(** * Transfer-matrix optical model with a swept layer thickness

    A shallow embedding of [transfermatrix_varyThickness.py] and the
    properties of it that the specification states.

    Number model.  The script computes with IEEE doubles and numpy
    [complex128] scalars.  Here
    - grid quantities (thicknesses, wavelengths, sample positions, steps)
      are rationals [Q], so the discretisation can be evaluated.  The
      embedding of the sweep computes them in exact arithmetic.  Section
      [Binary64] embeds [np.arange] once
      more in double precision, where every operation rounds to the nearest
      double; the two embeddings agree on whole numbers, and the statements
      on the number of grid values are made for such grids.  The comparison
      of positions with layer boundaries is exact on doubles, and the
      statement on it holds for any positions;
    - optical quantities are exact complex numbers, pairs of reals [R];
      rounding is not modelled;
    - division in [R] and [Q] is total ([x / 0 = 0]); numpy answers a
      division by zero with [inf] or [nan] and a warning.  Theorems on
      computed values therefore assume non-zero divisors where the code
      divides ([regular_step] collects the divisors of a sweep step), and
      section [NumpyDivision] embeds the interface matrix and the
      wavelength step once more over values that record non-finite
      results;
    - [np.arange] raises on a zero step; the sweep step raises with it. *)

From Stdlib Require Import QArith Qreals Qround Qreduction Qpower Qabs Lqa.
From Stdlib Require Import Reals Lra Lia List Bool Arith ZArith Sorted.
Import ListNotations.

Close Scope Q_scope.
Close Scope R_scope.
Set Implicit Arguments.

(* ===================================================================== *)
(** ** Complex numbers *)
(* ===================================================================== *)

Module Cplx.

Local Open Scope R_scope.

Definition C : Type := (R * R)%type.

Definition Re (z : C) : R := fst z.
Definition Im (z : C) : R := snd z.

Definition RtoC (x : R) : C := (x, 0).
Definition C0 : C := RtoC 0.
Definition C1 : C := RtoC 1.
Definition Ci : C := (0, 1).

Definition Cadd (a b : C) : C := (Re a + Re b, Im a + Im b).
Definition Copp (a : C) : C := (- Re a, - Im a).
Definition Csub (a b : C) : C := (Re a - Re b, Im a - Im b).
Definition Cmul (a b : C) : C :=
  (Re a * Re b - Im a * Im b, Re a * Im b + Im a * Re b).
Definition Cnorm2 (a : C) : R := Re a * Re a + Im a * Im a.
Definition Cinv (a : C) : C := (Re a / Cnorm2 a, - Im a / Cnorm2 a).
Definition Cdiv (a b : C) : C := Cmul a (Cinv b).

(** [abs] of a complex number. *)
Definition Cmod (a : C) : R := sqrt (Cnorm2 a).

(** [np.exp] on a complex argument. *)
Definition Cexp (a : C) : C := (exp (Re a) * cos (Im a), exp (Re a) * sin (Im a)).

(** Python's [complex(re, im)] accepts complex arguments and returns
    [re + im*1j], computed componentwise. *)
Definition py_complex (re im : C) : C := (Re re - Im im, Im re + Re im).

End Cplx.
Export Cplx.

Declare Scope C_scope.
Delimit Scope C_scope with C.
Bind Scope C_scope with C.
Infix "+" := Cadd : C_scope.
Infix "-" := Csub : C_scope.
Infix "*" := Cmul : C_scope.
Infix "/" := Cdiv : C_scope.
Notation "- x" := (Copp x) : C_scope.

(** ** 2x2 complex matrices ([np.array] of shape (2,2), [np.mat] product) *)

Record M2 : Type := mkM2 { m00 : C; m01 : C; m10 : C; m11 : C }.

Definition Mmul (A B : M2) : M2 :=
  mkM2 (m00 A * m00 B + m01 A * m10 B) (m00 A * m01 B + m01 A * m11 B)
       (m10 A * m00 B + m11 A * m10 B) (m10 A * m01 B + m11 A * m11 B)%C.

(** [np.eye(2)] *)
Definition eye2 : M2 := mkM2 C1 C0 C0 C1.

(** [A / t]: every entry divided by the scalar [t]. *)
Definition Mdiv (A : M2) (t : C) : M2 :=
  mkM2 (m00 A / t) (m01 A / t) (m10 A / t) (m11 A / t)%C.


Declare Scope M_scope.
Delimit Scope M_scope with M.
Bind Scope M_scope with M2.
Infix "*" := Mmul : M_scope.

(* ===================================================================== *)
(** ** Helper functions of the script *)
(* ===================================================================== *)

(** [I_mat(n1, n2)]: transfer matrix at an interface. *)
Definition I_mat (n1 n2 : C) : M2 :=
  let r := ((n1 - n2) / (n1 + n2))%C in
  let t := ((RtoC 2 * n1) / (n1 + n2))%C in
  let ret := mkM2 C1 r r C1 in
  Mdiv ret t.

(** [L_mat(n, d, l)]: propagation matrix of a layer with index [n] and
    thickness [d] at wavelength [l]. *)
Definition L_mat (n : C) (d l : R) : M2 :=
  let xi := ((RtoC (2 * PI * d)%R * n) / RtoC l)%C in
  mkM2 (Cexp (py_complex C0 (RtoC (-1) * xi)%C)) C0
       C0 (Cexp (py_complex C0 xi)).

(* ===================================================================== *)
(** ** Exceptions *)
(* ===================================================================== *)

(** The script has no [raise] and no [try].  The exceptions the modelled
    statements can raise are the [IndexError] of a list or array subscript
    out of range and the exception with which [np.arange] rejects a zero
    step, here [ArangeZeroStep] (numpy raises a [ZeroDivisionError] when the
    length [(stop - start)/step] is computed on Python numbers, and a
    [ValueError] or an [OverflowError] when it is computed on numpy scalars
    and comes out as [nan] or [inf]).  [InvalidOpticalConstant] is the error
    kind the specification names for a degenerate interface; it is part of
    the type so that statements about it can be written. *)
Inductive error : Type := IndexError | InvalidOpticalConstant | ArangeZeroStep.

Inductive result (A : Type) : Type :=
| Ok (a : A)
| Err (e : error).
Arguments Ok {A} a.
Arguments Err {A} e.

Definition bind {A B : Type} (c : result A) (k : A -> result B) : result B :=
  match c with Ok a => k a | Err e => Err e end.

Notation "x <- c ;; k" := (bind c (fun x => k))
  (at level 61, c at next level, right associativity).

(** A [for] loop whose body may raise. *)
Fixpoint foldM {A B : Type} (f : A -> B -> result A) (l : list B) (a : A)
  : result A :=
  match l with
  | [] => Ok a
  | b :: l' => a' <- f a b ;; foldM f l' a'
  end.

(** [l[i]] *)
Definition get {A : Type} (l : list A) (i : nat) : result A :=
  match nth_error l i with Some a => Ok a | None => Err IndexError end.

Fixpoint list_set {A : Type} (l : list A) (i : nat) (v : A) : list A :=
  match l, i with
  | [], _ => []
  | _ :: l', O => v :: l'
  | a :: l', S i' => a :: list_set l' i' v
  end.

(** [l[i] = v], in place; raises when [i] is out of range. *)
Definition set_item {A : Type} (l : list A) (i : nat) (v : A)
  : result (list A) :=
  if i <? length l then Ok (list_set l i v) else Err IndexError.

(** [l[-1]] *)
Definition get_last {A : Type} (l : list A) : result A :=
  get l (length l - 1).

(* ===================================================================== *)
(** ** numpy and builtin helpers used by the script *)
(* ===================================================================== *)

Definition zip_with {A B D : Type} (f : A -> B -> D) (l1 : list A) (l2 : list B)
  : list D :=
  map (fun p => f (fst p) (snd p)) (combine l1 l2).

(** The grid of [np.arange(start, stop, step, float)] in exact arithmetic:
    [ceil((stop - start)/step)] values [start + i*step], none when that
    number is not positive.  This is the grid for a step that is not zero;
    [np_arange] below adds the exception for a zero step, and section
    [Binary64] embeds the same call in double precision. *)
Definition arange (start stop step : Q) : list Q :=
  map (fun i => start + inject_Z (Z.of_nat i) * step)%Q
      (seq 0 (Z.to_nat (Qceiling ((stop - start) / step)))).

(** [np.arange(start, stop, step)] as a call: it raises when the step is
    zero. *)
Definition np_arange (start stop step : Q) : result (list Q) :=
  if Qeq_bool step 0 then Err ArangeZeroStep else Ok (arange start stop step).

(** [np.arange(lo, hi)] on integers. *)
Definition irange (lo hi : nat) : list nat := seq lo (hi - lo).

(** [np.cumsum] *)
Fixpoint cumsum_from (acc : Q) (l : list Q) : list Q :=
  match l with
  | [] => []
  | x :: l' => (acc + x)%Q :: cumsum_from (acc + x)%Q l'
  end.
Definition cumsum (l : list Q) : list Q := cumsum_from 0 l.

(** builtin [sum] of a list of numbers *)
Definition pysum (l : list Q) : Q := fold_left Qplus l 0%Q.

Definition Rsum (l : list R) : R := fold_right Rplus 0%R l.

(** [x > y] on grid numbers; on doubles the comparison is exact. *)
Definition Qgtb (x y : Q) : bool := negb (Qle_bool x y).

(** [sorted] *)
Fixpoint insert_sorted (x : Q) (l : list Q) : list Q :=
  match l with
  | [] => [x]
  | y :: l' => if Qle_bool x y then x :: l else y :: insert_sorted x l'
  end.
Definition sorted (l : list Q) : list Q := fold_right insert_sorted [] l.

(* ===================================================================== *)
(** ** [np.arange] in double precision *)
(* ===================================================================== *)

Section Binary64.

Local Open Scope Q_scope.

(** The finite doubles (IEEE 754 binary64) are the rationals [m * 2^e]
    with [|m| < 2^53] and [-1074 <= e].  An arithmetic operation on
    doubles returns the double nearest to the exact result, the one with
    the even [m] when two are equally near.  Results beyond the largest
    double, which become [inf], are not modelled: the grids of the script
    stay far below [2^1024]. *)

Definition Qpow2 (e : Z) : Q := 2 ^ e.

(** [floor(log2 |x|)] for [x <> 0]: with [ln] and [ld] the logarithms of
    the numerator and the denominator it is [ln - ld] or [ln - ld - 1]. *)
Definition Qilog2 (x : Q) : Z :=
  let an := Z.abs (Qnum x) in
  let ln := Z.log2 an in
  let ld := Z.log2 (Zpos (Qden x)) in
  if (Zpos (Qden x) * 2 ^ ln <=? an * 2 ^ ld)%Z then (ln - ld)%Z else (ln - ld - 1)%Z.

(** The nearest whole number, the even one at a tie. *)
Definition round_half_even (x : Q) : Z :=
  let f := Qfloor x in
  match Qcompare (x - inject_Z f) (1 # 2) with
  | Lt => f
  | Gt => (f + 1)%Z
  | Eq => if Z.even f then f else (f + 1)%Z
  end.

(** The double nearest to [x], in lowest terms: [x] is rounded to a whole
    multiple of [2^e], where [e] is the exponent of the last of the 53 bits
    of [x], and at least [-1074]. *)
Definition f64_round (x : Q) : Q :=
  let y := Qred x in
  if Qeq_bool y 0 then 0
  else
    let e := Z.max (-1074) (Qilog2 y - 52) in
    Qred (inject_Z (round_half_even (y / Qpow2 e)) * Qpow2 e).

Definition f64_add (x y : Q) : Q := f64_round (x + y).
Definition f64_sub (x y : Q) : Q := f64_round (x - y).
Definition f64_mul (x y : Q) : Q := f64_round (x * y).
Definition f64_div (x y : Q) : Q := f64_round (x / y).

(** [np.arange(start, stop, step, float)] on doubles, for a step that is
    not zero, as numpy computes it: the length is
    [ceil((stop - start)/step)], the first two values are [start] and
    [start + step], and value [i] from the third on is [start + i*delta]
    with [delta] the difference of the first two. *)
Definition np_arange_f64 (start stop step : Q) : list Q :=
  let len := Z.to_nat (Qceiling (f64_div (f64_sub stop start) step)) in
  let next := f64_add start step in
  let delta := f64_sub next start in
  map (fun i => match i with
                | O => start
                | S O => next
                | _ => f64_add start (f64_mul (inject_Z (Z.of_nat i)) delta)
                end)
      (seq 0 len).

(** [np.cumsum] and the builtin [sum] on doubles: both add from left to
    right. *)
Fixpoint cumsum_f64_from (acc : Q) (l : list Q) : list Q :=
  match l with
  | [] => []
  | x :: l' => f64_add acc x :: cumsum_f64_from (f64_add acc x) l'
  end.
Definition cumsum_f64 (l : list Q) : list Q := cumsum_f64_from 0 l.

Definition pysum_f64 (l : list Q) : Q := fold_left f64_add l 0.

End Binary64.

(* ===================================================================== *)
(** ** Configuration block and inputs of the script *)
(* ===================================================================== *)

(** The assignments at the top of the script, with the two inputs read from
    the material files: the index table [n] (one row per layer, one column
    per wavelength) and the interpolated spectrum [am15_int_y].  Layer
    indices are natural numbers: Python's negative subscripts are not
    modelled. *)
Record config : Type := mkConfig {
  thicknesses : list Q;
  activeLayer : nat;
  layerVaried : nat;
  varyStart : Q;
  varyFinish : Q;
  varyStep : Q;
  lambda_start : Q;
  lambda_stop : Q;
  lambda_step : Q;
  x_step : Q;
  n : list (list C);
  am15_int_y : list R
}.

(** Constants *)
Definition h : R := 6.62606957e-34%R.
Definition c : R := 2.99792458e8%R.
Definition q : R := 1.60217657e-19%R.

(** Lines 88 and 89, for steps that are not zero (with a zero step the
    script stops there, before the sweep). *)
Definition lambdas (cfg : config) : list Q :=
  arange (lambda_start cfg) (lambda_stop cfg + lambda_step cfg)%Q (lambda_step cfg).

Definition varyThickness (cfg : config) : list Q :=
  arange (varyStart cfg) (varyFinish cfg + varyStep cfg)%Q (varyStep cfg).

(** Line 89 in double precision: the numbers of the configuration block
    are read as the nearest doubles. *)
Definition varyThickness_f64 (cfg : config) : list Q :=
  let start := f64_round (varyStart cfg) in
  let step := f64_round (varyStep cfg) in
  np_arange_f64 start (f64_add (f64_round (varyFinish cfg)) step) step.

(** [n[i, ind]] *)
Definition n_at (n : list (list C)) (i ind : nat) : result C :=
  row <- get n i ;; get row ind.

(** [T_glass = abs((4.0 * 1.0 * n[0, :]) / ((1 + n[0, :]) ** 2))] *)
Definition T_glass (n : list (list C)) : result (list R) :=
  row <- get n 0 ;;
  Ok (map (fun n0 => Cmod ((RtoC (4.0 * 1.0)%R * n0) / ((C1 + n0) * (C1 + n0)))%C) row).

(** [R_glass = abs((1 - n[0, :]) / (1 + n[0, :])) ** 2] *)
Definition R_glass (n : list (list C)) : result (list R) :=
  row <- get n 0 ;;
  Ok (map (fun n0 => (Cmod ((C1 - n0) / (C1 + n0))%C ^ 2)%R) row).

(* ===================================================================== *)
(** ** Cross-section discretisation *)
(* ===================================================================== *)

(** The sample positions [np.arange((x_step / 2.0), sum(t), x_step)] in
    exact arithmetic, for a step that is not zero.  [x_pos_f64] below is the
    same line in double precision; the two give the same positions and the
    same layers on whole-number thicknesses and step
    ([discretisation_f64_whole]) and differ on decimal ones
    ([decimal_positions_change_layer]). *)
Definition x_pos_of (x_step : Q) (t : list Q) : list Q :=
  arange (x_step / 2.0)%Q (pysum t) x_step.

(** Line 166 in double precision. *)
Definition x_pos_f64 (x_step : Q) (t : list Q) : list Q :=
  np_arange_f64 (f64_div x_step 2.0) (pysum_f64 t) x_step.

(** [comp1 = np.kron(np.ones((len(t), 1)), x_pos)]: [len(t)] rows, each
    the vector [x_pos]. *)
Definition comp1 (t x_pos : list Q) : list (list Q) :=
  repeat x_pos (length t).

(** [comp2 = np.transpose(np.kron(np.ones((len(x_pos), 1)), t_cumsum))]:
    row [i] holds [t_cumsum[i]] in every column. *)
Definition comp2 (x_pos t_cumsum : list Q) : list (list Q) :=
  map (fun ci => repeat ci (length x_pos)) t_cumsum.

(** [x_mat = sum(comp1 > comp2, 0)]: the builtin [sum] adds the rows of the
    boolean matrix to the start value 0, which broadcasts to a row. *)
Definition x_mat_of (t x_pos t_cumsum : list Q) : list nat :=
  fold_left
    (fun acc row => zip_with (fun a (b : bool) => a + (if b then 1 else 0)) acc row)
    (zip_with (zip_with Qgtb) (comp1 t x_pos) (comp2 x_pos t_cumsum))
    (repeat 0 (length x_pos)).

(* ===================================================================== *)
(** ** Coherent stack solver, one wavelength *)
(* ===================================================================== *)

Section OneWavelength.

Variable n : list (list C).
Variable t : list Q.
Variable lambdas : list Q.
Variable ind : nat.

(** Body of the loop of lines 181-184. *)
Definition S_body (S : M2) (matind : nat) : result M2 :=
  nm <- n_at n matind ind ;;
  d <- get t matind ;;
  l <- get lambdas ind ;;
  let mL := L_mat nm (Q2R d) (Q2R l) in
  nm1 <- n_at n (matind + 1) ind ;;
  let mI := I_mat nm nm1 in
  Ok (S * mL * mI)%M.

(** [S] after the loop over [np.arange(1, len(t) - 1)]. *)
Definition S_mat : result M2 :=
  n0 <- n_at n 0 ind ;;
  n1 <- n_at n 1 ind ;;
  foldM S_body (irange 1 (length t - 1)) (I_mat n0 n1).

(** [abs(S[1, 0] / S[0, 0]) ** 2] *)
Definition reflectance (S : M2) : R := (Cmod (m10 S / m00 S)%C ^ 2)%R.

(** [abs((2 / (1 + n[0, ind]))) / np.sqrt(1 - R_glass[ind] * R[ind])] *)
Definition transmittance (n0 : C) (Rg Rind : R) : R :=
  (Cmod (RtoC 2 / (C1 + n0))%C / sqrt (1 - Rg * Rind))%R.

(** Loop of lines 196-199. *)
Definition S_prime_body (S_prime : M2) (matind : nat) : result M2 :=
  nm <- n_at n (matind - 1) ind ;;
  d <- get t (matind - 1) ;;
  l <- get lambdas ind ;;
  let mL := L_mat nm (Q2R d) (Q2R l) in
  nm1 <- n_at n matind ind ;;
  let mI := I_mat nm nm1 in
  Ok (S_prime * mL * mI)%M.

Definition S_prime_mat (material : nat) : result M2 :=
  n0 <- n_at n 0 ind ;;
  n1 <- n_at n 1 ind ;;
  foldM S_prime_body (irange 2 (material + 1)) (I_mat n0 n1).

(** Loop of lines 202-205. *)
Definition S_dprime_body (S_dprime : M2) (matind : nat) : result M2 :=
  nm <- n_at n matind ind ;;
  nm1 <- n_at n (matind + 1) ind ;;
  let mI := I_mat nm nm1 in
  d <- get t (matind + 1) ;;
  l <- get lambdas ind ;;
  let mL := L_mat nm1 (Q2R d) (Q2R l) in
  Ok (S_dprime * mI * mL)%M.

Definition S_dprime_mat (material : nat) : result M2 :=
  foldM S_dprime_body (irange material (length t - 1)) eye2.

End OneWavelength.

(* ===================================================================== *)
(** ** Field profile and the wavelength loop of one sweep step *)
(* ===================================================================== *)

(** An entry of the field array [E].  [np.zeros] fills the array with
    zeros; [Zero] is an entry that still holds that initial value and
    [Assigned v] one that line 214 has stored [v] into. *)
Inductive cell : Type := Zero | Assigned (v : C).

Definition cell_val (e : cell) : C :=
  match e with Zero => C0 | Assigned v => v end.

(** [num / den] of lines 207-214 at one position; [x] is the distance from
    the start of the layer. *)
Definition E_value (Tind : R) (xi : C) (dj x : Q) (S_prime S_dprime : M2) : C :=
  let num :=
    (RtoC Tind *
     (m00 S_dprime * Cexp (py_complex C0 (RtoC (-1.0)) * xi * RtoC (Q2R (dj - x)))
      + m10 S_dprime * Cexp (py_complex C0 (RtoC 1) * xi * RtoC (Q2R (dj - x)))))%C in
  let den :=
    (m00 S_prime * m00 S_dprime * Cexp (py_complex C0 (RtoC (-1.0)) * xi * RtoC (Q2R dj))
     + m01 S_prime * m10 S_dprime * Cexp (py_complex C0 (RtoC 1) * xi * RtoC (Q2R dj)))%C in
  (num / den)%C.

(** [E[x_indices, ind] = ...] with [x_indices = np.nonzero(x_mat == material)]:
    row [j] is written at column [ind] when [x_mat[j] == material]; [f] gives
    the value from the position [x_pos[j]].  [E], [x_mat] and [x_pos] have
    the same length, the number of sample positions. *)
Definition E_assign (E : list (list cell)) (x_mat : list nat) (x_pos : list Q)
    (material ind : nat) (f : Q -> C) : list (list cell) :=
  zip_with
    (fun row (mx : nat * Q) =>
       if fst mx =? material then list_set row ind (Assigned (f (snd mx))) else row)
    E (combine x_mat x_pos).

(** The arrays [R], [T] and [E] of one sweep step. *)
Record fields : Type := mkFields {
  R_arr : list R;
  T_arr : list R;
  E_arr : list (list cell)
}.

Section SweepStep.

Variable n : list (list C).
Variable lambdas : list Q.
Variable R_glass : list R.
Variable t : list Q.
Variable t_cumsum : list Q.
Variable x_pos : list Q.
Variable x_mat : list nat.

(** Body of the loop over [material] (lines 190-214). *)
Definition material_body (T : list R) (ind : nat) (E : list (list cell))
    (material : nat) : result (list (list cell)) :=
  nm <- n_at n material ind ;;
  l <- get lambdas ind ;;
  let xi := ((RtoC (2 * PI)%R * nm) / RtoC (Q2R l))%C in
  dj <- get t material ;;
  cprev <- get t_cumsum (material - 1) ;;
  S_prime <- S_prime_mat n t lambdas ind material ;;
  S_dprime <- S_dprime_mat n t lambdas ind material ;;
  Tind <- get T ind ;;
  Ok (E_assign E x_mat x_pos material ind
        (fun xp => E_value Tind xi dj (xp - cprev)%Q S_prime S_dprime)).

(** Body of the loop over wavelengths (lines 179-214). *)
Definition wavelength_body (st : fields) (ind : nat) : result fields :=
  S <- S_mat n t lambdas ind ;;
  R' <- set_item (R_arr st) ind (reflectance S) ;;
  n0 <- n_at n 0 ind ;;
  Rg <- get R_glass ind ;;
  Rind <- get R' ind ;;
  T' <- set_item (T_arr st) ind (transmittance n0 Rg Rind) ;;
  E' <- foldM (material_body T' ind) (irange 1 (length t)) (E_arr st) ;;
  Ok (mkFields R' T' E').

(** Lines 174-214: fresh [R], [T], [E], then the wavelength loop. *)
Definition step_fields : result fields :=
  foldM wavelength_body (seq 0 (length lambdas))
    (mkFields (map (fun _ => 0%R) lambdas) (map (fun _ => 0%R) lambdas)
              (repeat (repeat Zero (length lambdas)) (length x_pos))).

(** Lines 216-218: absorption coefficient in 1/cm. *)
Definition absorption : result (list (list R)) :=
  foldM
    (fun a matind =>
       row <- get n matind ;;
       set_item a matind
         (zip_with (fun (nc : C) (l : Q) => (4 * PI * Im nc / (Q2R l * 1.0e-7))%R)
                   row lambdas))
    (irange 1 (length t))
    (repeat (repeat 0%R (length lambdas)) (length t)).

(** Lines 225-228. *)
Definition lambda_step_of : result Q :=
  if length lambdas =? 1 then Ok 1%Q
  else
    hi <- get_last (sorted lambdas) ;;
    lo <- get (sorted lambdas) 0 ;;
    Ok ((hi - lo) / inject_Z (Z.of_nat (length lambdas) - 1))%Q.

(** [Gxl] (lines 220-224): one row per position of the active layer. *)
Definition Gxl_of (activeLayer : nat) (am15_int_y : list R)
    (a : list (list R)) (E : list (list cell)) : result (list (list R)) :=
  let ActivePos := filter (fun p => fst p =? activeLayer) (combine x_mat E) in
  arow <- get a activeLayer ;;
  nrow <- get n activeLayer ;;
  let tmp1 :=
    zip_with Rmult (zip_with (fun av (nc : C) => (av * Re nc)%R) arow nrow) am15_int_y in
  let Qgen := map (fun p => zip_with (fun tm e => (tm * Cmod (cell_val e) ^ 2)%R)
                                     tmp1 (snd p)) ActivePos in
  Ok (map (fun Qrow => zip_with (fun qv (l : Q) =>
                                   ((qv * 1.0e-3) * (Q2R l * 1.0e-9) / (h * c))%R)
                                Qrow lambdas) Qgen).

(** Lines 229-231: the photocurrent of the step from [Gxl]. *)
Definition Jsc_of (x_step : Q) (Gxl : list (list R)) (lambda_step : Q) : R :=
  let Gx := map (fun row => (Rsum row * Q2R lambda_step)%R) Gxl in
  (Rsum Gx * Q2R x_step * 1.0e-7 * q * 1.0e3)%R.

End SweepStep.

(* ===================================================================== *)
(** ** Thickness sweep *)
(* ===================================================================== *)

(** The variables that live across iterations of the sweep loop: the
    thickness list [t] (an alias of [thicknesses], written in place), the
    result array [Jsc], the rebound global [lambda_step], and the arrays
    [R], [T], [E] left by the last step.  The remaining names of the loop
    body ([t_cumsum], [x_pos], [x_mat], [a], ...) are bound afresh in every
    iteration before they are read. *)
Record state : Type := mkState {
  st_t : list Q;
  st_Jsc : list R;
  st_lambda_step : Q;
  st_fields : fields
}.

(** What one iteration computes from the thickness list it reads:
    the arrays, the recomputed [lambda_step] and the photocurrent. *)
Definition step_output (cfg : config) (Rg : list R) (t : list Q)
  : result (fields * Q * R) :=
  let t_cumsum := cumsum t in
  x_pos <- np_arange (x_step cfg / 2.0)%Q (pysum t) (x_step cfg) ;;
  let x_mat := x_mat_of t x_pos t_cumsum in
  f <- step_fields (n cfg) (lambdas cfg) Rg t t_cumsum x_pos x_mat ;;
  a <- absorption (n cfg) (lambdas cfg) t ;;
  Gxl <- Gxl_of (n cfg) (lambdas cfg) x_mat (activeLayer cfg) (am15_int_y cfg) a (E_arr f) ;;
  ls <- lambda_step_of (lambdas cfg) ;;
  Ok (f, ls, Jsc_of (x_step cfg) Gxl ls).

(** Body of the sweep loop (lines 162-231). *)
Definition sweep_body (cfg : config) (Rg : list R) (st : state) (thickInd : nat)
  : result state :=
  v <- get (varyThickness cfg) thickInd ;;
  t <- set_item (st_t st) (layerVaried cfg) v ;;
  out <- step_output cfg Rg t ;;
  let '(f, ls, J) := out in
  Jsc <- set_item (st_Jsc st) thickInd J ;;
  Ok (mkState t Jsc ls f).

(** State before the loop (lines 158-160); [R], [T], [E] are not yet bound. *)
Definition init_state (cfg : config) : result state :=
  t <- set_item (thicknesses cfg) 0 0%Q ;;
  Ok (mkState t (map (fun _ => 0%R) (varyThickness cfg)) (lambda_step cfg)
              (mkFields [] [] [])).

(** The sweep over the first [k] thickness values. *)
Definition sweep_upto (cfg : config) (Rg : list R) (k : nat) (st : state)
  : result state :=
  foldM (sweep_body cfg Rg) (seq 0 k) st.

(** Lines 153-231. *)
Definition run (cfg : config) : result state :=
  Tg <- T_glass (n cfg) ;;
  Rg <- R_glass (n cfg) ;;
  st <- init_state cfg ;;
  sweep_upto cfg Rg (length (varyThickness cfg)) st.

(* ===================================================================== *)
(** ** The interface matrix over values that record non-finite results *)
(* ===================================================================== *)

Section NumpyDivision.

(** A numpy [complex128] value: a finite number, or [NonFin] for a value
    with an [inf] or [nan] component.  numpy does not raise on a division
    by zero: it warns and returns such a value, and arithmetic on it is
    taken to give such a value again. *)
Inductive npval : Type := Fin (z : C) | NonFin.

Definition Cis_zero (z : C) : bool :=
  if Req_dec_T (Re z) 0 then (if Req_dec_T (Im z) 0 then true else false)
  else false.

Definition np_div (a b : npval) : npval :=
  match a, b with
  | Fin x, Fin y => if Cis_zero y then NonFin else Fin (x / y)%C
  | _, _ => NonFin
  end.

Record M2np : Type := mkM2np { p00 : npval; p01 : npval; p10 : npval; p11 : npval }.


(** [I_mat] on numpy scalars, as the script calls it. *)
Definition I_mat_np (n1 n2 : C) : result M2np :=
  let r := np_div (Fin (n1 - n2)%C) (Fin (n1 + n2)%C) in
  let t := np_div (Fin (RtoC 2 * n1)%C) (Fin (n1 + n2)%C) in
  let ret := mkM2np (Fin C1) r r (Fin C1) in
  Ok (mkM2np (np_div (p00 ret) t) (np_div (p01 ret) t)
             (np_div (p10 ret) t) (np_div (p11 ret) t)).

(** A numpy [float64] value: a finite number, or [FNonFin] for [inf] or
    [nan]. *)
Inductive npfloat : Type := FFin (x : Q) | FNonFin.

Definition np_fdiv (a b : Q) : npfloat :=
  if Qeq_bool b 0 then FNonFin else FFin (a / b).

(** Lines 225-228 on numpy scalars: the quotient of line 228 is a numpy
    division. *)
Definition lambda_step_np (lambdas : list Q) : result npfloat :=
  if length lambdas =? 1 then Ok (FFin 1%Q)
  else
    hi <- get_last (sorted lambdas) ;;
    lo <- get (sorted lambdas) 0 ;;
    Ok (np_fdiv (hi - lo)%Q (inject_Z (Z.of_nat (length lambdas) - 1))).

End NumpyDivision.

(* ===================================================================== *)
(** ** Reference definitions, following the specification's wording *)
(* ===================================================================== *)

(** Reads that cannot fail, for the statements below: [idx n i ind] is
    [n[i, ind]] and [thick t i] is [t[i]] when the subscripts are in
    range. *)
Definition idx (n : list (list C)) (i ind : nat) : C :=
  nth ind (nth i n []) C0.

Definition thick (t : list Q) (i : nat) : Q := nth i t 0%Q.

(** The system matrix by left-chaining: [S_chain ... 0] is the interface
    matrix between layer 0 and layer 1, and [S_chain ... m] post-multiplies
    [S_chain ... (m - 1)] by the propagation matrix of layer [m] and then by
    the interface matrix between layer [m] and layer [m + 1]. *)
Fixpoint S_chain (n : list (list C)) (t : list Q) (l : Q) (ind m : nat) : M2 :=
  match m with
  | O => I_mat (idx n 0 ind) (idx n 1 ind)
  | S m' =>
      (S_chain n t l ind m'
       * L_mat (idx n m ind) (Q2R (thick t m)) (Q2R l)
       * I_mat (idx n m ind) (idx n (m + 1) ind))%M
  end.

(** The product behind a layer: [Sd_chain ... m 0] is the identity, and
    [Sd_chain ... m (k + 1)] post-multiplies [Sd_chain ... m k] by the
    interface matrix between layers [m + k] and [m + k + 1] and then by the
    propagation matrix of layer [m + k + 1]. *)
Fixpoint Sd_chain (n : list (list C)) (t : list Q) (l : Q) (ind m k : nat) : M2 :=
  match k with
  | O => eye2
  | S k' =>
      (Sd_chain n t l ind m k'
       * I_mat (idx n (m + k') ind) (idx n (m + k' + 1) ind)
       * L_mat (idx n (m + k' + 1) ind) (Q2R (thick t (m + k' + 1))) (Q2R l))%M
  end.

(** Shape of the inputs: the index table has a row for layers 0 and 1 and
    for every entry of the thickness list, and every row has one column per
    wavelength (the script builds [n] as a
    [len(layers)] by [len(lambdas)] array). *)
Definition wf_table (n : list (list C)) (t lambdas : list Q) : Prop :=
  2 <= length n /\ length t <= length n /\
  Forall (fun row => length row = length lambdas) n.

(** Reflectance and transmittance at wavelength [ind] as functions of the
    thickness list. *)
Definition R_of (n : list (list C)) (t lambdas : list Q) (ind : nat) : R :=
  reflectance (S_chain n t (nth ind lambdas 0%Q) ind (length t - 2)).

Definition T_of (n : list (list C)) (t lambdas : list Q) (Rg : list R)
    (ind : nat) : R :=
  transmittance (idx n 0 ind) (nth ind Rg 0%R) (R_of n t lambdas ind).

(** [E[j, k]] *)
Definition E_at (E : list (list cell)) (j k : nat) : option cell :=
  match nth_error E j with
  | Some row => nth_error row k
  | None => None
  end.

(** The field array after some pairs (layer, wavelength) have been
    processed: [D m k] says that the pair [(m, k)] has been.  An entry
    [E[j, k]] is assigned when the pair of its layer [x_mat[j]] and [k] has
    been processed, and still holds its initial zero otherwise. *)
Definition E_inv (lambdas x_pos : list Q) (x_mat : list nat)
    (D : nat -> nat -> Prop) (E : list (list cell)) : Prop :=
  length E = length x_pos /\
  forall j mj row, nth_error x_mat j = Some mj -> nth_error E j = Some row ->
    length row = length lambdas /\
    forall k, k < length lambdas ->
      (D mj k -> exists v, nth_error row k = Some (Assigned v)) /\
      (~ D mj k -> nth_error row k = Some Zero).

(** The step derived from the grid, [(max - min)/(count - 1)], without the
    guard of line 225. *)
Definition grid_step_np (lambdas : list Q) : result npfloat :=
  hi <- get_last (sorted lambdas) ;;
  lo <- get (sorted lambdas) 0 ;;
  Ok (np_fdiv (hi - lo)%Q (inject_Z (Z.of_nat (length lambdas) - 1))).

(** The denominator [den] of lines 211-213. *)
Definition E_den (xi : C) (dj : Q) (S_prime S_dprime : M2) : C :=
  (m00 S_prime * m00 S_dprime * Cexp (py_complex C0 (RtoC (-1.0)) * xi * RtoC (Q2R dj))
   + m01 S_prime * m10 S_dprime * Cexp (py_complex C0 (RtoC 1) * xi * RtoC (Q2R dj)))%C.

(** A sweep step in which no division has a zero divisor and the square
    root of line 186 has a positive argument, so that no [inf] or [nan]
    arises from them.  For every wavelength [ind]:
    - the wavelength is not zero (lines 130, 190 and 218 divide by it);
    - for every pair of adjacent layers [m], [m + 1] that [I_mat] is called
      on (the pair 0, 1 and the pairs up to the last layer), the sum of the
      indices is not zero and the index of layer [m] is not zero, so that
      the coefficient [t] by which line 121 divides is not zero;
    - [1 + n[0, ind]] is not zero (lines 156 and 186);
    - [S[0, 0]] is not zero (line 185);
    - [1 - R_glass[ind] * R[ind]] is positive (line 186);
    - the denominator [den] of the field is not zero for every layer from 1
      to the last (line 214). *)
Definition regular_step (n : list (list C)) (lambdas : list Q) (Rg : list R)
    (t : list Q) : Prop :=
  forall ind, ind < length lambdas ->
    let l := nth ind lambdas 0%Q in
    ~ (l == 0)%Q /\
    (forall m, m = 0 \/ m + 1 < length t ->
       idx n m ind <> C0 /\ (idx n m ind + idx n (m + 1) ind)%C <> C0) /\
    (C1 + idx n 0 ind)%C <> C0 /\
    m00 (S_chain n t l ind (length t - 2)) <> C0 /\
    (0 < 1 - nth ind Rg 0 * R_of n t lambdas ind)%R /\
    (forall m, 1 <= m < length t ->
       E_den ((RtoC (2 * PI)%R * idx n m ind) / RtoC (Q2R l))%C (thick t m)
             (S_chain n t l ind (m - 1))
             (Sd_chain n t l ind m (length t - 1 - m)) <> C0).

(** The layer that contains a position: the number of cumulative sums that
    the position exceeds. *)
Definition layer_of (t_cumsum : list Q) (x : Q) : nat :=
  length (filter (Qgtb x) t_cumsum).

(** Shape of a configuration on which a sweep runs without an
    [IndexError]: the table covers the thickness list, the active and the
    varied layer are layers of the stack, the wavelength grid is not empty. *)
Definition wf_config (cfg : config) : Prop :=
  wf_table (n cfg) (thicknesses cfg) (lambdas cfg) /\
  activeLayer cfg < length (thicknesses cfg) /\
  layerVaried cfg < length (thicknesses cfg) /\
  lambdas cfg <> [].

(* ===================================================================== *)
(** ** Example configurations *)
(* ===================================================================== *)

(** The configuration block of the script as it stands; the index table and
    the spectrum come from the material files. *)
Definition script_config (n : list (list C)) (am15_int_y : list R) : config :=
  mkConfig [0; 110; 35; 220; 7; 200]%Q 3 3 0 300 5 350 800 5 5.0 n am15_int_y.

(** A layer of index 1 between two media of index 2, at the single
    wavelength 4; the thickness of the middle layer goes from 0 to 1, a
    quarter of the wavelength. *)
Definition quarter_wave_config : config :=
  mkConfig [0; 0; 0]%Q 1 1 0 1 1 4 4 1 1
           [[RtoC 2]; [RtoC 1]; [RtoC 2]] [1%R].

(** A sweep range that the step does not divide. *)
Definition uneven_sweep_config : config :=
  mkConfig [0; 0; 0]%Q 1 1 0 7 5 4 4 1 1
           [[RtoC 2]; [RtoC 1]; [RtoC 2]] [1%R].

(** The quarter-wave stack with a configured thickness of 7 for the varied
    layer and a configured wavelength step of 3; the wavelength grid still
    holds the single wavelength 4. *)
Definition rebinding_config : config :=
  mkConfig [0; 7; 0]%Q 1 1 0 1 1 4 4 3 1
           [[RtoC 2]; [RtoC 1]; [RtoC 2]] [1%R].

(** The quarter-wave stack with a spatial step of zero. *)
Definition zero_x_step_config : config :=
  mkConfig [0; 0; 0]%Q 1 1 0 1 1 4 4 1 0
           [[RtoC 2]; [RtoC 1]; [RtoC 2]] [1%R].

(** A stack at the single wavelength 4 whose first two layers have the
    indices 1 and -1. *)
Definition degenerate_config : config :=
  mkConfig [0; 0; 0]%Q 1 1 0 1 1 4 4 1 1
           [[RtoC 1]; [RtoC (-1)]; [RtoC 2]] [1%R].

(** A configuration with another list of configured thicknesses. *)
Definition with_thicknesses (cfg : config) (th : list Q) : config :=
  mkConfig th (activeLayer cfg) (layerVaried cfg)
           (varyStart cfg) (varyFinish cfg) (varyStep cfg)
           (lambda_start cfg) (lambda_stop cfg) (lambda_step cfg)
           (x_step cfg) (n cfg) (am15_int_y cfg).

(** The total of a list of whole-number thicknesses (used to state when the
    double-precision discretisation is exact). *)
Definition Zsum (l : list Z) : Z := fold_right Z.add 0%Z l.

(* ===================================================================== *)
(** ** Facts on complex numbers and matrices *)
(* ===================================================================== *)

Section ComplexFacts.

Local Open Scope R_scope.

Lemma C_eq (a b : C) : Re a = Re b -> Im a = Im b -> a = b.
Proof. destruct a, b; simpl; intros -> ->; reflexivity. Qed.

Lemma Cnorm2_nonneg (a : C) : 0 <= Cnorm2 a.
Proof. unfold Cnorm2. nra. Qed.

Lemma Cnorm2_eq0 (a : C) : Cnorm2 a = 0 -> a = C0.
Proof.
  destruct a as [x y]; unfold Cnorm2, C0, RtoC; simpl; intros H.
  assert (x = 0) by nra. assert (y = 0) by nra. subst; reflexivity.
Qed.

Lemma Cnorm2_neq0 (a : C) : a <> C0 -> Cnorm2 a <> 0.
Proof. intros Ha H; apply Ha, Cnorm2_eq0, H. Qed.

Lemma Cmul_comm (a b : C) : (a * b = b * a)%C.
Proof. apply C_eq; simpl; ring. Qed.


Lemma Cmul_1_r (a : C) : (a * C1 = a)%C.
Proof. apply C_eq; simpl; ring. Qed.

Lemma Cmul_0_l (a : C) : (C0 * a = C0)%C.
Proof. apply C_eq; simpl; ring. Qed.

Lemma Cinv_r (a : C) : a <> C0 -> (a * Cinv a = C1)%C.
Proof.
  intros Ha; pose proof (Cnorm2_neq0 Ha) as Hn.
  destruct a as [x y]; unfold Cnorm2 in Hn; simpl in Hn.
  apply C_eq; unfold Cmul, Cinv, Cnorm2, C1, RtoC, Re, Im; simpl; field; exact Hn.
Qed.


Lemma Cmul_neq0 (a b : C) : a <> C0 -> b <> C0 -> (a * b)%C <> C0.
Proof.
  intros Ha Hb H.
  assert (Hn : Cnorm2 (a * b)%C = Cnorm2 a * Cnorm2 b)
    by (unfold Cnorm2; simpl; ring).
  rewrite H in Hn. unfold Cnorm2 at 1 in Hn; simpl in Hn.
  pose proof (Cnorm2_neq0 Ha). pose proof (Cnorm2_neq0 Hb).
  assert (Cnorm2 a * Cnorm2 b <> 0) by (apply Rmult_integral_contrapositive; tauto).
  lra.
Qed.


Lemma Cdiv_diag (a : C) : a <> C0 -> (a / a = C1)%C.
Proof. apply Cinv_r. Qed.

Lemma Cdiv_0_l (a : C) : (C0 / a = C0)%C.
Proof. unfold Cdiv; apply Cmul_0_l. Qed.

Lemma Cinv_1 : Cinv C1 = C1.
Proof. apply C_eq; unfold Cinv, Cnorm2, C1, RtoC, Re, Im; simpl; field. Qed.

Lemma Cdiv_1_r (a : C) : (a / C1 = a)%C.
Proof. unfold Cdiv; rewrite Cinv_1; apply Cmul_1_r. Qed.

Lemma Csub_diag (a : C) : (a - a = C0)%C.
Proof. apply C_eq; simpl; ring. Qed.

Lemma Cdouble (a : C) : (a + a = RtoC 2 * a)%C.
Proof. apply C_eq; simpl; ring. Qed.

Lemma Cdouble_neq0 (a : C) : a <> C0 -> (a + a)%C <> C0.
Proof.
  intros Ha H; apply Ha. destruct a as [x y].
  apply (f_equal Re) in H as Hr; apply (f_equal Im) in H as Hi.
  simpl in Hr, Hi. apply C_eq; simpl; lra.
Qed.


Lemma Cexp_0 : Cexp C0 = C1.
Proof. apply C_eq; simpl; rewrite exp_0, ?cos_0, ?sin_0; ring. Qed.


Lemma Cmod_sqr (a : C) : Cmod a ^ 2 = Cnorm2 a.
Proof.
  unfold Cmod. simpl. rewrite Rmult_1_r. apply sqrt_sqrt, Cnorm2_nonneg.
Qed.


Lemma py_complex_i (z : C) : py_complex C0 z = (Ci * z)%C.
Proof. apply C_eq; simpl; ring. Qed.


End ComplexFacts.

(* ===================================================================== *)
(** ** Interface and propagation matrices *)
(* ===================================================================== *)

Section Builders.

Lemma I_mat_same (n1 : C) : n1 <> C0 -> I_mat n1 n1 = eye2.
Proof.
  intros Hn. unfold I_mat.
  rewrite Csub_diag, Cdiv_0_l, <- Cdouble, (Cdiv_diag (Cdouble_neq0 Hn)).
  unfold Mdiv, eye2; simpl. now rewrite !Cdiv_1_r.
Qed.

Lemma S_mat_two_layers (n : list (list C)) (t lambdas : list Q) (ind : nat) (v : C) :
  length t = 2 -> n_at n 0 ind = Ok v -> n_at n 1 ind = Ok v -> v <> C0 ->
  S_mat n t lambdas ind = Ok eye2.
Proof.
  intros Ht H0 H1 Hv. unfold S_mat. rewrite H0, H1, Ht. simpl.
  now rewrite (I_mat_same Hv).
Qed.

Lemma L_mat_zero_thickness (n : C) (l : R) : l <> 0%R -> L_mat n 0%R l = eye2.
Proof.
  intros Hl. unfold L_mat, eye2.
  assert (Hz : ((RtoC (2 * PI * 0)%R * n) / RtoC l)%C = C0).
  { apply C_eq; unfold Cdiv, Cinv, Cnorm2, Cmul, C0, RtoC, Re, Im; simpl; field;
      exact Hl. }
  rewrite Hz.
  assert (H1 : py_complex C0 (RtoC (-1) * C0)%C = C0) by (apply C_eq; simpl; ring).
  assert (H2 : py_complex C0 C0 = C0) by (apply C_eq; simpl; ring).
  now rewrite H1, H2, Cexp_0.
Qed.

(** C3.  The propagation matrix is [diag(exp(-i*xi), exp(+i*xi))] with
    [xi = 2*pi*d*n/l], for every index [n], thickness [d] and non-zero
    wavelength [l]; at thickness 0 it is the identity matrix. *)
Theorem L_mat_diag_phase (n : C) (d l : R) :
  l <> 0%R ->
  let xi := (RtoC (2 * PI * d / l)%R * n)%C in
  L_mat n d l = mkM2 (Cexp (- (Ci * xi))%C) C0 C0 (Cexp (Ci * xi)%C)
  /\ L_mat n 0%R l = eye2.
Proof.
  intros Hl xi. split; [|apply L_mat_zero_thickness, Hl].
  unfold L_mat. rewrite !py_complex_i. f_equal; f_equal.
  - subst xi. apply C_eq; unfold Cdiv, Cinv, Cnorm2, Cmul, Copp, Ci, RtoC, Re, Im;
      simpl; field; exact Hl.
  - subst xi. apply C_eq; unfold Cdiv, Cinv, Cnorm2, Cmul, Copp, Ci, RtoC, Re, Im;
      simpl; field; exact Hl.
Qed.

Lemma L_mat_diag_phase_witness :
  (500 <> 0)%R /\ L_mat (2, 0.1)%R 0%R 500%R = eye2.
Proof.
  assert (H : (500 <> 0)%R) by lra.
  split; [exact H | exact (proj2 (L_mat_diag_phase (2, 0.1)%R 100%R H))].
Defined.

End Builders.

(* ===================================================================== *)
(** ** Control: the exception monad, subscripts and loops *)
(* ===================================================================== *)

Section Control.

Context {A B : Type}.

Lemma bind_Ok_inv (X Y : Type) (m : result X) (k : X -> result Y) (y : Y) :
  (x <- m ;; k x) = Ok y -> exists x, m = Ok x /\ k x = Ok y.
Proof. destruct m as [x|e]; simpl; [eauto | discriminate]. Qed.

Lemma foldM_app (f : A -> B -> result A) (l1 l2 : list B) (a : A) :
  foldM f (l1 ++ l2) a = (a' <- foldM f l1 a ;; foldM f l2 a').
Proof.
  revert a; induction l1 as [|b l1 IH]; intros a; simpl; [reflexivity|].
  destruct (f a b); simpl; [apply IH | reflexivity].
Qed.

Lemma foldM_ext (f g : A -> B -> result A) (l : list B) (a : A) :
  (forall a' b, In b l -> f a' b = g a' b) -> foldM f l a = foldM g l a.
Proof.
  revert a; induction l as [|b l IH]; intros a H; simpl; [reflexivity|].
  rewrite (H a b (or_introl eq_refl)).
  destruct (g a b); simpl; [apply IH; intros; apply H; now right | reflexivity].
Qed.

(** A loop whose body keeps an invariant and never raises under it
    returns, and the invariant holds of the result. *)
Lemma foldM_invariant (P : A -> Prop) (f : A -> B -> result A) (l : list B) (a : A) :
  P a ->
  (forall a' b, In b l -> P a' -> exists a'', f a' b = Ok a'' /\ P a'') ->
  exists r, foldM f l a = Ok r /\ P r.
Proof.
  revert a; induction l as [|b l IH]; intros a Ha H; simpl; [eauto|].
  destruct (H a b (or_introl eq_refl) Ha) as [a'' [-> Ha'']]; simpl.
  apply IH; [exact Ha''|]. intros; apply H; [now right | assumption].
Qed.

Lemma get_nth_error (l : list A) (i : nat) (a : A) :
  get l i = Ok a <-> nth_error l i = Some a.
Proof.
  unfold get; destruct (nth_error l i); split; intros H;
    inversion H; subst; reflexivity.
Qed.

Lemma get_in_range (l : list A) (i : nat) (d : A) :
  i < length l -> get l i = Ok (nth i l d).
Proof. intros H; apply get_nth_error, nth_error_nth'; exact H. Qed.

Lemma get_Ok_range (l : list A) (i : nat) (a : A) :
  get l i = Ok a -> i < length l.
Proof.
  intros H; apply get_nth_error in H. apply nth_error_Some. congruence.
Qed.

Lemma get_out_of_range (l : list A) (i : nat) :
  length l <= i -> get l i = Err IndexError.
Proof. intros H; unfold get. now apply nth_error_None in H as ->. Qed.

Lemma length_list_set (l : list A) (i : nat) (v : A) :
  length (list_set l i v) = length l.
Proof.
  revert i; induction l as [|a l IH]; intros [|i]; simpl; auto.
Qed.

Lemma nth_error_list_set_eq (l : list A) (i : nat) (v : A) :
  i < length l -> nth_error (list_set l i v) i = Some v.
Proof.
  revert i; induction l as [|a l IH]; intros [|i] H; simpl in *; try lia; auto.
  apply IH; lia.
Qed.

Lemma nth_error_list_set_neq (l : list A) (i j : nat) (v : A) :
  i <> j -> nth_error (list_set l i v) j = nth_error l j.
Proof.
  revert i j; induction l as [|a l IH]; intros [|i] [|j] H; simpl; auto;
    try congruence.
Qed.

Lemma list_set_twice (l : list A) (i : nat) (v w : A) :
  list_set (list_set l i v) i w = list_set l i w.
Proof.
  revert i; induction l as [|a l IH]; intros [|i]; simpl; auto.
  now rewrite IH.
Qed.

Lemma set_item_in_range (l : list A) (i : nat) (v : A) :
  i < length l -> set_item l i v = Ok (list_set l i v).
Proof. intros H; unfold set_item. now apply Nat.ltb_lt in H as ->. Qed.

Lemma set_item_Ok_inv (l l' : list A) (i : nat) (v : A) :
  set_item l i v = Ok l' -> i < length l /\ l' = list_set l i v.
Proof.
  unfold set_item; destruct (i <? length l) eqn:E; intros H; inversion H.
  apply Nat.ltb_lt in E; auto.
Qed.

End Control.

Lemma length_zip_with (X Y Z : Type) (f : X -> Y -> Z) (l1 : list X) (l2 : list Y) :
  length (zip_with f l1 l2) = Nat.min (length l1) (length l2).
Proof. unfold zip_with. now rewrite length_map, length_combine. Qed.

Lemma nth_error_zip_with (X Y Z : Type) (f : X -> Y -> Z) (l1 : list X)
    (l2 : list Y) (i : nat) :
  nth_error (zip_with f l1 l2) i =
  match nth_error l1 i, nth_error l2 i with
  | Some x, Some y => Some (f x y)
  | _, _ => None
  end.
Proof.
  revert l2 i; induction l1 as [|x l1 IH]; intros [|y l2] [|i]; simpl; auto.
  - destruct (nth_error l1 i); reflexivity.
  - apply IH.
Qed.

Lemma irange_snoc (lo hi : nat) : lo <= hi -> irange lo (S hi) = irange lo hi ++ [hi].
Proof.
  intros H; unfold irange. replace (S hi - lo) with (S (hi - lo)) by lia.
  rewrite seq_S. do 2 f_equal. lia.
Qed.

Lemma in_irange (lo hi m : nat) : In m (irange lo hi) <-> lo <= m < hi.
Proof. unfold irange; rewrite in_seq; lia. Qed.

Lemma np_arange_nonzero (start stop step : Q) :
  ~ (step == 0)%Q -> np_arange start stop step = Ok (arange start stop step).
Proof.
  intros H. unfold np_arange.
  destruct (Qeq_bool step 0) eqn:E; [|reflexivity].
  apply Qeq_bool_iff in E. contradiction.
Qed.

Lemma np_arange_zero (start stop step : Q) :
  (step == 0)%Q -> np_arange start stop step = Err ArangeZeroStep.
Proof.
  intros H. unfold np_arange. apply Qeq_bool_iff in H. now rewrite H.
Qed.

Lemma np_arange_Ok_inv (start stop step : Q) (g : list Q) :
  np_arange start stop step = Ok g ->
  ~ (step == 0)%Q /\ g = arange start stop step.
Proof.
  unfold np_arange. destruct (Qeq_bool step 0) eqn:E; [discriminate|].
  intros H; inversion H. split; [|reflexivity].
  intros Hz. apply Qeq_bool_iff in Hz. congruence.
Qed.

(** Destructs the binds of a computation known to return. *)
Ltac inv_bind H :=
  repeat match type of H with
  | bind _ _ = Ok _ =>
      let x := fresh "x" in let Hx := fresh "Hx" in
      apply bind_Ok_inv in H; destruct H as [x [Hx H]]
  end.

(* ===================================================================== *)
(** ** The coherent stack solver *)
(* ===================================================================== *)

Section StackSolver.

Variable n : list (list C).
Variable t lambdas : list Q.
Hypothesis Hwf : wf_table n t lambdas.

Lemma n_at_idx (i ind : nat) :
  i < length n -> ind < length lambdas -> n_at n i ind = Ok (idx n i ind).
Proof.
  intros Hi Hind. destruct Hwf as (_ & _ & Hrows).
  unfold n_at, idx. rewrite (get_in_range n [] Hi); simpl.
  apply get_in_range.
  rewrite Forall_forall in Hrows. rewrite (Hrows (nth i n [])); [exact Hind|].
  apply nth_In, Hi.
Qed.

Lemma S_body_chain (ind k : nat) :
  ind < length lambdas -> k + 2 < length t ->
  S_body n t lambdas ind (S_chain n t (nth ind lambdas 0%Q) ind k) (k + 1)
  = Ok (S_chain n t (nth ind lambdas 0%Q) ind (S k)).
Proof.
  intros Hind Hk. destruct Hwf as (Hn2 & Htn & _).
  unfold S_body.
  rewrite n_at_idx by lia; cbn [bind].
  rewrite (get_in_range t 0%Q) by lia; cbn [bind].
  rewrite (get_in_range lambdas 0%Q Hind); cbn [bind].
  rewrite n_at_idx by lia; cbn [bind].
  cbn [S_chain]. unfold thick.
  replace (k + 1) with (S k) by lia. reflexivity.
Qed.

Lemma S_loop_chain (ind k : nat) :
  ind < length lambdas -> k = 0 \/ k + 2 <= length t ->
  foldM (S_body n t lambdas ind) (irange 1 (k + 1))
        (S_chain n t (nth ind lambdas 0%Q) ind 0)
  = Ok (S_chain n t (nth ind lambdas 0%Q) ind k).
Proof.
  intros Hind. induction k as [|k IH]; intros Hk; [reflexivity|].
  replace (S k + 1) with (S (k + 1)) by lia.
  rewrite irange_snoc by lia. rewrite foldM_app, IH by lia. simpl.
  rewrite S_body_chain by lia. reflexivity.
Qed.

Lemma S_mat_chain (ind : nat) :
  ind < length lambdas ->
  S_mat n t lambdas ind
  = Ok (S_chain n t (nth ind lambdas 0%Q) ind (length t - 2)).
Proof.
  intros Hind. pose proof Hwf as (Hn2 & Htn & _).
  unfold S_mat. rewrite !n_at_idx by lia; simpl.
  destruct (le_lt_dec 2 (length t)) as [H2|H2].
  - replace (length t - 1) with ((length t - 2) + 1) by lia.
    apply S_loop_chain; [exact Hind | lia].
  - replace (length t - 2) with 0 by lia.
    replace (irange 1 (length t - 1)) with (@nil nat); [reflexivity|].
    unfold irange. replace (length t - 1 - 1) with 0 by lia. reflexivity.
Qed.

Lemma S_prime_total (ind material : nat) :
  ind < length lambdas -> material < length t ->
  exists S', S_prime_mat n t lambdas ind material = Ok S'.
Proof.
  intros Hind Hm. pose proof Hwf as (Hn2 & Htn & _).
  unfold S_prime_mat. rewrite !n_at_idx by lia; simpl.
  destruct (foldM_invariant (fun _ => True)
              (S_prime_body n t lambdas ind) (irange 2 (material + 1))
              (I_mat (idx n 0 ind) (idx n 1 ind)) I) as [r [Hr _]]; [|eauto].
  intros S' m Hin _. apply in_irange in Hin. unfold S_prime_body.
  rewrite n_at_idx by lia; simpl.
  rewrite (get_in_range t 0%Q) by lia; simpl.
  rewrite (get_in_range lambdas 0%Q Hind); simpl.
  rewrite n_at_idx by lia; simpl. eauto.
Qed.

Lemma S_dprime_total (ind material : nat) :
  ind < length lambdas ->
  exists S'', S_dprime_mat n t lambdas ind material = Ok S''.
Proof.
  intros Hind. pose proof Hwf as (Hn2 & Htn & _).
  unfold S_dprime_mat.
  destruct (foldM_invariant (fun _ => True)
              (S_dprime_body n t lambdas ind) (irange material (length t - 1))
              eye2 I) as [r [Hr _]]; [|eauto].
  intros S' m Hin _. apply in_irange in Hin. unfold S_dprime_body.
  rewrite !n_at_idx by lia; simpl.
  rewrite (get_in_range t 0%Q) by lia; simpl.
  rewrite (get_in_range lambdas 0%Q Hind); simpl. eauto.
Qed.

End StackSolver.

(* ===================================================================== *)
(** ** The wavelength loop of one sweep step *)
(* ===================================================================== *)

Lemma nth_error_combine (X Y : Type) (l1 : list X) (l2 : list Y) (i : nat) :
  nth_error (combine l1 l2) i =
  match nth_error l1 i, nth_error l2 i with
  | Some x, Some y => Some (x, y)
  | _, _ => None
  end.
Proof.
  revert l2 i; induction l1 as [|x l1 IH]; intros [|y l2] [|i]; simpl; auto.
  destruct (nth_error l1 i); reflexivity.
Qed.

Lemma nth_error_repeat (X : Type) (x : X) (k i : nat) :
  i < k -> nth_error (repeat x k) i = Some x.
Proof.
  revert i; induction k as [|k IH]; intros [|i] H; simpl; try lia; auto.
  apply IH; lia.
Qed.

Section WavelengthLoop.

Variable n : list (list C).
Variable lambdas : list Q.
Variable Rg : list R.
Variable t t_cumsum x_pos : list Q.
Variable x_mat : list nat.

Hypothesis Hwf : wf_table n t lambdas.
Hypothesis HRg : length Rg = length lambdas.
Hypothesis Hcum : length t_cumsum = length t.
Hypothesis Hmat : length x_mat = length x_pos.

Lemma E_inv_init :
  E_inv lambdas x_pos x_mat (fun _ _ => False)
        (repeat (repeat Zero (length lambdas)) (length x_pos)).
Proof.
  split; [apply repeat_length|].
  intros j mj row _ Hrow.
  assert (row = repeat Zero (length lambdas)) as ->.
  { apply nth_error_In, repeat_spec in Hrow. exact Hrow. }
  split; [apply repeat_length|].
  intros k Hk; split; [tauto|]. intros _. now apply nth_error_repeat.
Qed.

Lemma E_assign_inv (D : nat -> nat -> Prop) (E : list (list cell))
    (material ind : nat) (f : Q -> C) :
  ind < length lambdas -> E_inv lambdas x_pos x_mat D E ->
  E_inv lambdas x_pos x_mat (fun m k => D m k \/ (m = material /\ k = ind))
        (E_assign E x_mat x_pos material ind f).
Proof.
  intros Hind [Hlen Hrows]. split.
  - unfold E_assign. rewrite length_zip_with, length_combine. lia.
  - intros j mj row Hmj Hrow.
    unfold E_assign in Hrow.
    rewrite nth_error_zip_with, nth_error_combine, Hmj in Hrow.
    destruct (nth_error E j) as [row0|] eqn:Hrow0; [|discriminate].
    destruct (nth_error x_pos j) as [xj|]; [|discriminate].
    simpl in Hrow. destruct (Hrows j mj row0 Hmj Hrow0) as [Hl0 Hcells].
    destruct (Nat.eqb_spec mj material) as [->|Hne]; inversion Hrow; subst row; clear Hrow.
    + split; [now rewrite length_list_set|].
      intros k Hk. destruct (Nat.eq_dec ind k) as [->|Hk'].
      * split; [|intros Hn; exfalso; apply Hn; right; auto].
        intros _. eexists. apply nth_error_list_set_eq. lia.
      * rewrite nth_error_list_set_neq by exact Hk'.
        destruct (Hcells k Hk) as [Ha Hz]. split.
        -- intros [Hd|[_ Heq]]; [now apply Ha | congruence].
        -- intros Hn. apply Hz. tauto.
    + split; [exact Hl0|].
      intros k Hk. destruct (Hcells k Hk) as [Ha Hz]. split.
      * intros [Hd|[Heq _]]; [now apply Ha | congruence].
      * intros Hn. apply Hz. tauto.
Qed.

Lemma material_body_total (T : list R) (ind material : nat) (E : list (list cell)) :
  ind < length lambdas -> length T = length lambdas ->
  1 <= material < length t ->
  exists f, material_body n lambdas t t_cumsum x_pos x_mat T ind E material
            = Ok (E_assign E x_mat x_pos material ind f).
Proof.
  intros Hind HT Hm. pose proof Hwf as (Hn2 & Htn & _).
  unfold material_body.
  rewrite (n_at_idx Hwf) by lia; cbn [bind].
  rewrite (get_in_range lambdas 0%Q Hind); cbn [bind].
  rewrite (get_in_range t 0%Q) by lia; cbn [bind].
  rewrite (get_in_range t_cumsum 0%Q) by lia; cbn [bind].
  destruct (@S_prime_total n t lambdas Hwf ind material Hind) as [S' ->]; [lia|].
  destruct (@S_dprime_total n t lambdas Hwf ind material Hind) as [S'' ->].
  cbn [bind].
  rewrite (get_in_range T 0%R) by lia; cbn [bind].
  eauto.
Qed.

Lemma E_inv_ext (D D' : nat -> nat -> Prop) (E : list (list cell)) :
  (forall m k, D m k <-> D' m k) ->
  E_inv lambdas x_pos x_mat D E -> E_inv lambdas x_pos x_mat D' E.
Proof.
  intros HD [Hl Hr]; split; [exact Hl|].
  intros j mj row Hmj Hrow. destruct (Hr j mj row Hmj Hrow) as [Hlr Hc].
  split; [exact Hlr|]. intros k Hk; destruct (Hc k Hk) as [Ha Hz]; split.
  - intros Hd; apply Ha, HD, Hd.
  - intros Hn; apply Hz. intros Hd; apply Hn, HD, Hd.
Qed.

Lemma material_loop (T : list R) (ind : nat) (mats : list nat) :
  ind < length lambdas -> length T = length lambdas ->
  (forall m, In m mats -> 1 <= m < length t) ->
  forall D E, E_inv lambdas x_pos x_mat D E ->
  exists E',
    foldM (material_body n lambdas t t_cumsum x_pos x_mat T ind) mats E = Ok E' /\
    E_inv lambdas x_pos x_mat (fun m k => D m k \/ (In m mats /\ k = ind)) E'.
Proof.
  intros Hind HT. induction mats as [|m mats IH]; intros Hin D E HE.
  - exists E; split; [reflexivity|].
    apply (E_inv_ext (D := D)); [|exact HE]. simpl; tauto.
  - destruct (@material_body_total T ind m E Hind HT) as [f Hf];
      [apply Hin; now left|].
    cbn [foldM]. rewrite Hf; cbn [bind].
    destruct (IH (fun m' Hm' => Hin m' (or_intror Hm')) _ _
                 (@E_assign_inv D E m ind f Hind HE)) as [E' [HE' Hinv]].
    exists E'; split; [exact HE'|].
    revert Hinv; apply E_inv_ext. intros m' k; simpl.
    split; [intros [[H|[-> ->]]|[H ->]] | intros [H|[[->|H] ->]]]; auto.
Qed.

Lemma get_list_set_eq (X : Type) (l : list X) (i : nat) (v : X) :
  i < length l -> get (list_set l i v) i = Ok v.
Proof. intros H; apply get_nth_error, nth_error_list_set_eq, H. Qed.

Lemma wavelength_body_total (st : fields) (ind : nat) (D : nat -> nat -> Prop) :
  ind < length lambdas ->
  length (R_arr st) = length lambdas -> length (T_arr st) = length lambdas ->
  E_inv lambdas x_pos x_mat D (E_arr st) ->
  exists E',
    wavelength_body n lambdas Rg t t_cumsum x_pos x_mat st ind
    = Ok (mkFields (list_set (R_arr st) ind (R_of n t lambdas ind))
                   (list_set (T_arr st) ind (T_of n t lambdas Rg ind)) E') /\
    E_inv lambdas x_pos x_mat (fun m k => D m k \/ (1 <= m < length t /\ k = ind)) E'.
Proof.
  intros Hind HR HT HE. pose proof Hwf as (Hn2 & Htn & _).
  unfold wavelength_body.
  rewrite (S_mat_chain Hwf Hind); cbn [bind].
  rewrite set_item_in_range by lia; cbn [bind].
  rewrite (n_at_idx Hwf) by lia; cbn [bind].
  rewrite (get_in_range Rg 0%R) by lia; cbn [bind].
  rewrite get_list_set_eq by lia; cbn [bind].
  rewrite set_item_in_range by lia; cbn [bind].
  fold (R_of n t lambdas ind). fold (T_of n t lambdas Rg ind).
  destruct (@material_loop (list_set (T_arr st) ind (T_of n t lambdas Rg ind))
              ind (irange 1 (length t)) Hind) with (D := D) (E := E_arr st)
    as [E' [HE' Hinv]].
  - now rewrite length_list_set.
  - intros m Hm; apply in_irange in Hm; exact Hm.
  - exact HE.
  - rewrite HE'; cbn [bind]. exists E'; split; [reflexivity|].
    revert Hinv; apply E_inv_ext. intros m k. rewrite in_irange. tauto.
Qed.

Lemma wavelength_loop (inds : list nat) :
  (forall k, In k inds -> k < length lambdas) ->
  forall (st : fields) (D : nat -> nat -> Prop),
  length (R_arr st) = length lambdas -> length (T_arr st) = length lambdas ->
  E_inv lambdas x_pos x_mat D (E_arr st) ->
  exists st',
    foldM (wavelength_body n lambdas Rg t t_cumsum x_pos x_mat) inds st = Ok st' /\
    length (R_arr st') = length lambdas /\ length (T_arr st') = length lambdas /\
    (forall k, In k inds ->
       nth_error (R_arr st') k = Some (R_of n t lambdas k) /\
       nth_error (T_arr st') k = Some (T_of n t lambdas Rg k)) /\
    (forall k, ~ In k inds ->
       nth_error (R_arr st') k = nth_error (R_arr st) k /\
       nth_error (T_arr st') k = nth_error (T_arr st) k) /\
    E_inv lambdas x_pos x_mat
          (fun m k => D m k \/ (1 <= m < length t /\ In k inds)) (E_arr st').
Proof.
  induction inds as [|i inds IH]; intros Hin st D HR HT HE.
  - exists st. split; [reflexivity|]. split; [exact HR|]. split; [exact HT|].
    split; [intros k []|]. split; [auto|].
    revert HE; apply E_inv_ext; simpl; tauto.
  - assert (Hi : i < length lambdas) by (apply Hin; now left).
    destruct (@wavelength_body_total st i D Hi HR HT HE) as [E1 [Hb HE1]].
    cbn [foldM]. rewrite Hb; cbn [bind].
    destruct (IH (fun k Hk => Hin k (or_intror Hk))
                 (mkFields (list_set (R_arr st) i (R_of n t lambdas i))
                           (list_set (T_arr st) i (T_of n t lambdas Rg i)) E1)
                 (fun m k => D m k \/ (1 <= m < length t /\ k = i)))
      as [st' (Hf & HR' & HT' & Hval & Hframe & Hinv)];
      [simpl; now rewrite length_list_set | simpl; now rewrite length_list_set
      | exact HE1 |].
    exists st'. split; [exact Hf|]. split; [exact HR'|]. split; [exact HT'|].
    split; [|split].
    + intros k Hk. destruct (in_dec Nat.eq_dec k inds) as [Hk'|Hk'];
        [now apply Hval|].
      destruct Hk as [<-|Hk]; [|contradiction].
      destruct (Hframe i Hk') as [-> ->]; simpl.
      split; apply nth_error_list_set_eq; lia.
    + intros k Hk. destruct (Hframe k) as [-> ->]; [intros H; apply Hk; now right|].
      simpl. split; apply nth_error_list_set_neq; intros ->; apply Hk; now left.
    + revert Hinv; apply E_inv_ext. intros m k; simpl.
      split; [intros [[H|[H ->]]|[H H']] | intros [H|[H [->|H']]]]; auto.
Qed.

(** The arrays of a step: the step returns, [R] and [T] hold the
    reflectance and transmittance of every wavelength, and [E] is assigned
    exactly at the positions of layers 1 to [len(t) - 1]. *)
Lemma step_fields_spec :
  exists f,
    step_fields n lambdas Rg t t_cumsum x_pos x_mat = Ok f /\
    R_arr f = map (R_of n t lambdas) (seq 0 (length lambdas)) /\
    T_arr f = map (T_of n t lambdas Rg) (seq 0 (length lambdas)) /\
    E_inv lambdas x_pos x_mat (fun m k => 1 <= m < length t /\ k < length lambdas) (E_arr f).
Proof.
  unfold step_fields.
  destruct (@wavelength_loop (seq 0 (length lambdas)))
    with (st := mkFields (map (fun _ : Q => 0%R) lambdas) (map (fun _ : Q => 0%R) lambdas)
                         (repeat (repeat Zero (length lambdas)) (length x_pos)))
         (D := fun _ _ : nat => False)
    as [f (Hf & HR & HT & Hval & _ & Hinv)].
  - intros k Hk; apply in_seq in Hk; lia.
  - simpl; apply length_map.
  - simpl; apply length_map.
  - exact E_inv_init.
  - exists f. split; [exact Hf|].
    assert (Hpt : forall (g : nat -> R) (l : list R),
               length l = length lambdas ->
               (forall k, k < length lambdas -> nth_error l k = Some (g k)) ->
               l = map g (seq 0 (length lambdas))).
    { intros g l Hl Hg. apply nth_error_ext. intros k.
      destruct (lt_dec k (length lambdas)) as [Hk|Hk].
      - rewrite (Hg k Hk). symmetry.
        rewrite nth_error_map, nth_error_seq.
        apply Nat.ltb_lt in Hk as ->. reflexivity.
      - transitivity (@None R); [|symmetry]; apply nth_error_None;
          rewrite ?length_map, ?length_seq; lia. }
    split; [|split].
    + apply Hpt; [exact HR|]. intros k Hk; apply Hval, in_seq; lia.
    + apply Hpt; [exact HT|]. intros k Hk; apply Hval, in_seq; lia.
    + revert Hinv; apply E_inv_ext. intros m k. rewrite in_seq. intuition lia.
Qed.

End WavelengthLoop.

(* ===================================================================== *)
(** ** Cross-section discretisation *)
(* ===================================================================== *)

Section Discretisation.

Lemma length_cumsum_from (acc : Q) (l : list Q) :
  length (cumsum_from acc l) = length l.
Proof. revert acc; induction l as [|x l IH]; intros acc; simpl; auto. Qed.

Lemma length_cumsum (l : list Q) : length (cumsum l) = length l.
Proof. apply length_cumsum_from. Qed.

Lemma zip_with_cons (X Y Z : Type) (f : X -> Y -> Z) x y l1 l2 :
  zip_with f (x :: l1) (y :: l2) = f x y :: zip_with f l1 l2.
Proof. reflexivity. Qed.

Lemma zip_with_repeat_r (X Y Z : Type) (f : X -> Y -> Z) (l : list X) (y : Y) :
  zip_with f l (repeat y (length l)) = map (fun x => f x y) l.
Proof.
  induction l as [|x l IH]; [reflexivity|].
  simpl repeat. rewrite zip_with_cons, IH. reflexivity.
Qed.

Lemma zip_with_repeat_l (X Y Z : Type) (f : X -> Y -> Z) (x : X) (l : list Y) :
  zip_with f (repeat x (length l)) l = map (f x) l.
Proof.
  induction l as [|y l IH]; [reflexivity|].
  simpl repeat. rewrite zip_with_cons, IH. reflexivity.
Qed.

Lemma gt_rows (t x_pos t_cumsum : list Q) :
  length t_cumsum = length t ->
  zip_with (zip_with Qgtb) (comp1 t x_pos) (comp2 x_pos t_cumsum)
  = map (fun ci => map (fun x => Qgtb x ci) x_pos) t_cumsum.
Proof.
  intros Hl. unfold comp1, comp2. rewrite <- Hl.
  rewrite <- (length_map (fun ci => repeat ci (length x_pos)) t_cumsum).
  rewrite zip_with_repeat_l, map_map.
  apply map_ext. intros ci. apply zip_with_repeat_r.
Qed.

Lemma layer_of_cons (ci : Q) (tc : list Q) (x : Q) :
  layer_of (ci :: tc) x = (if Qgtb x ci then 1 else 0) + layer_of tc x.
Proof. unfold layer_of; simpl. destruct (Qgtb x ci); reflexivity. Qed.

Lemma add_row (ci : Q) (tc : list Q) (acc : list nat) (xp : list Q) :
  zip_with (fun a x => a + layer_of tc x)
    (zip_with (fun a (b : bool) => a + (if b then 1 else 0)) acc
              (map (fun x => Qgtb x ci) xp)) xp
  = zip_with (fun a x => a + layer_of (ci :: tc) x) acc xp.
Proof.
  revert xp; induction acc as [|a acc IH]; intros [|x xp]; try reflexivity.
  simpl map. rewrite !zip_with_cons, IH, layer_of_cons. f_equal. lia.
Qed.

Lemma sum_rows (tc : list Q) (xp : list Q) (acc : list nat) :
  length acc = length xp ->
  fold_left
    (fun acc row => zip_with (fun a (b : bool) => a + (if b then 1 else 0)) acc row)
    (map (fun ci => map (fun x => Qgtb x ci) xp) tc) acc
  = zip_with (fun a x => a + layer_of tc x) acc xp.
Proof.
  revert acc; induction tc as [|ci tc IH]; intros acc Hl.
  - simpl. unfold layer_of; simpl.
    revert xp Hl; induction acc as [|a acc IHa]; intros [|x xp] Hl;
      try reflexivity; try discriminate.
    rewrite zip_with_cons, <- IHa by (simpl in Hl; lia). f_equal. lia.
  - simpl map. simpl fold_left. rewrite IH.
    + apply add_row.
    + rewrite length_zip_with, length_map. lia.
Qed.

Lemma x_mat_of_layer (t x_pos t_cumsum : list Q) :
  length t_cumsum = length t ->
  x_mat_of t x_pos t_cumsum = map (layer_of t_cumsum) x_pos.
Proof.
  intros Hl. unfold x_mat_of.
  rewrite (@gt_rows t x_pos t_cumsum Hl), sum_rows by apply repeat_length.
  rewrite zip_with_repeat_l. reflexivity.
Qed.

Lemma length_x_mat_of (t x_pos : list Q) :
  length (x_mat_of t x_pos (cumsum t)) = length x_pos.
Proof. now rewrite x_mat_of_layer, length_map by apply length_cumsum. Qed.

End Discretisation.

(* ===================================================================== *)
(** ** One sweep step and the sweep *)
(* ===================================================================== *)

Section Sweep.

Lemma length_insert_sorted (x : Q) (l : list Q) :
  length (insert_sorted x l) = S (length l).
Proof.
  induction l as [|y l IH]; simpl; [reflexivity|].
  destruct (Qle_bool x y); simpl; auto.
Qed.

Lemma length_sorted (l : list Q) : length (sorted l) = length l.
Proof.
  induction l as [|x l IH]; simpl; [reflexivity|].
  now rewrite length_insert_sorted, IH.
Qed.

Lemma lambda_step_of_total (lambdas : list Q) :
  lambdas <> [] -> exists ls, lambda_step_of lambdas = Ok ls.
Proof.
  intros Hne. unfold lambda_step_of.
  destruct (length lambdas =? 1); [eauto|].
  assert (0 < length (sorted lambdas)).
  { rewrite length_sorted. destruct lambdas; [congruence | simpl; lia]. }
  unfold get_last.
  rewrite (get_in_range (sorted lambdas) 0%Q) by lia; cbn [bind].
  rewrite (get_in_range (sorted lambdas) 0%Q) by lia; cbn [bind].
  eauto.
Qed.

Lemma wf_table_length (n : list (list C)) (t t' lambdas : list Q) :
  length t' = length t -> wf_table n t lambdas -> wf_table n t' lambdas.
Proof. unfold wf_table; intros ->; auto. Qed.

Lemma absorption_total (n : list (list C)) (t lambdas : list Q) :
  wf_table n t lambdas ->
  exists a, absorption n lambdas t = Ok a /\ length a = length t.
Proof.
  intros (Hn2 & Htn & _). unfold absorption.
  apply foldM_invariant with (P := fun a : list (list R) => length a = length t).
  - apply repeat_length.
  - intros a m Hm Ha. apply in_irange in Hm.
    rewrite (get_in_range n [] (i := m)) by lia; cbn [bind].
    rewrite set_item_in_range by lia.
    eexists; split; [reflexivity|]. now rewrite length_list_set.
Qed.

Lemma Gxl_of_total (n : list (list C)) (lambdas : list Q) (x_mat : list nat)
    (activeLayer : nat) (am15 : list R) (a : list (list R)) (E : list (list cell)) :
  activeLayer < length a -> activeLayer < length n ->
  exists Gxl, Gxl_of n lambdas x_mat activeLayer am15 a E = Ok Gxl.
Proof.
  intros Ha Hn. unfold Gxl_of.
  rewrite (get_in_range a [] Ha); cbn [bind].
  rewrite (get_in_range n [] Hn); cbn [bind]. eauto.
Qed.

Variable cfg : config.
Variable Rg : list R.
Hypothesis HRg : length Rg = length (lambdas cfg).

(** A sweep step returns on every thickness list of the configured length
    when the spatial step is not zero, with the reflectance and
    transmittance of that list in [R] and [T]; the photocurrent is computed
    from the generation rate of the fields of the step. *)
Lemma step_output_total_parts (t : list Q) :
  wf_config cfg -> ~ (x_step cfg == 0)%Q -> length t = length (thicknesses cfg) ->
  exists f ls a Gxl,
    step_output cfg Rg t = Ok (f, ls, Jsc_of (x_step cfg) Gxl ls) /\
    lambda_step_of (lambdas cfg) = Ok ls /\
    absorption (n cfg) (lambdas cfg) t = Ok a /\
    Gxl_of (n cfg) (lambdas cfg) (x_mat_of t (x_pos_of (x_step cfg) t) (cumsum t))
           (activeLayer cfg) (am15_int_y cfg) a (E_arr f) = Ok Gxl /\
    R_arr f = map (R_of (n cfg) t (lambdas cfg)) (seq 0 (length (lambdas cfg))) /\
    T_arr f = map (T_of (n cfg) t (lambdas cfg) Rg) (seq 0 (length (lambdas cfg))) /\
    E_inv (lambdas cfg) (x_pos_of (x_step cfg) t)
          (x_mat_of t (x_pos_of (x_step cfg) t) (cumsum t))
          (fun m k => 1 <= m < length t /\ k < length (lambdas cfg)) (E_arr f).
Proof.
  intros (Hwf & Hact & Hvar & Hne) Hx Hlen.
  apply (wf_table_length t Hlen) in Hwf.
  destruct (@step_fields_spec (n cfg) (lambdas cfg) Rg t (cumsum t)
              (x_pos_of (x_step cfg) t)
              (x_mat_of t (x_pos_of (x_step cfg) t) (cumsum t))
              Hwf HRg (length_cumsum t)
              (length_x_mat_of t (x_pos_of (x_step cfg) t)))
    as [f (Hf & HR & HT & HE)].
  destruct (absorption_total Hwf) as [a [Ha Hla]].
  destruct (@Gxl_of_total (n cfg) (lambdas cfg)
              (x_mat_of t (x_pos_of (x_step cfg) t) (cumsum t))
              (activeLayer cfg) (am15_int_y cfg) a (E_arr f)) as [Gxl HG].
  { lia. } { destruct Hwf as (_ & Htn & _); lia. }
  destruct (lambda_step_of_total Hne) as [ls Hls].
  exists f, ls, a, Gxl. unfold step_output.
  rewrite (np_arange_nonzero _ _ Hx); cbn [bind]. fold (x_pos_of (x_step cfg) t).
  rewrite Hf; cbn [bind]. rewrite Ha; cbn [bind].
  rewrite HG; cbn [bind]. rewrite Hls; cbn [bind]. auto 10.
Qed.

Lemma step_output_total (t : list Q) :
  wf_config cfg -> ~ (x_step cfg == 0)%Q -> length t = length (thicknesses cfg) ->
  exists f ls Gxl,
    step_output cfg Rg t = Ok (f, ls, Jsc_of (x_step cfg) Gxl ls) /\
    lambda_step_of (lambdas cfg) = Ok ls /\
    R_arr f = map (R_of (n cfg) t (lambdas cfg)) (seq 0 (length (lambdas cfg))) /\
    T_arr f = map (T_of (n cfg) t (lambdas cfg) Rg) (seq 0 (length (lambdas cfg))) /\
    E_inv (lambdas cfg) (x_pos_of (x_step cfg) t)
          (x_mat_of t (x_pos_of (x_step cfg) t) (cumsum t))
          (fun m k => 1 <= m < length t /\ k < length (lambdas cfg)) (E_arr f).
Proof.
  intros Hwf Hx Hlen.
  destruct (@step_output_total_parts t Hwf Hx Hlen)
    as (f & ls & a & Gxl & H1 & H2 & _ & _ & H3 & H4 & H5).
  exists f, ls, Gxl. auto.
Qed.

Lemma sweep_upto_S (k : nat) (st : state) :
  sweep_upto cfg Rg (S k) st
  = (st' <- sweep_upto cfg Rg k st ;; sweep_body cfg Rg st' k).
Proof.
  unfold sweep_upto. rewrite seq_S, foldM_app. simpl.
  destruct (foldM (sweep_body cfg Rg) (seq 0 k) st); simpl; [|reflexivity].
  destruct (sweep_body cfg Rg a k); reflexivity.
Qed.

(** A sweep step that returned had a spatial step that is not zero. *)
Lemma step_output_Ok_x_step (t : list Q) (out : fields * Q * R) :
  step_output cfg Rg t = Ok out -> ~ (x_step cfg == 0)%Q.
Proof.
  unfold step_output. intros H. apply bind_Ok_inv in H as [x_pos [Hx _]].
  now apply np_arange_Ok_inv in Hx.
Qed.

Lemma sweep_upto_Ok_x_step (k : nat) (st0 st : state) :
  sweep_upto cfg Rg (S k) st0 = Ok st -> ~ (x_step cfg == 0)%Q.
Proof.
  rewrite sweep_upto_S. intros H. inv_bind H.
  unfold sweep_body in H. inv_bind H.
  exact (step_output_Ok_x_step _ Hx2).
Qed.

(** The thickness list after any number of sweep steps differs from the
    list before the sweep at most in the entry of the varied layer. *)
Lemma sweep_upto_t (k : nat) (st0 st : state) :
  sweep_upto cfg Rg k st0 = Ok st ->
  length (st_t st) = length (st_t st0) /\
  (forall w, list_set (st_t st) (layerVaried cfg) w
             = list_set (st_t st0) (layerVaried cfg) w) /\
  (forall i, i <> layerVaried cfg ->
             nth_error (st_t st) i = nth_error (st_t st0) i).
Proof.
  revert st; induction k as [|k IH]; intros st H.
  - inversion H; subst; auto.
  - rewrite sweep_upto_S in H. inv_bind H.
    destruct (IH _ Hx) as (Hl & Hset & Hnth).
    unfold sweep_body in H. inv_bind H.
    destruct x2 as [[f ls] J]. inv_bind H. inversion H; subst; clear H.
    apply set_item_Ok_inv in Hx1 as [Hlv ->]. simpl.
    rewrite length_list_set. split; [exact Hl|]. split.
    + intros w. now rewrite list_set_twice.
    + intros i Hi. rewrite nth_error_list_set_neq by congruence. now apply Hnth.
Qed.

(** What the last of [k + 1] sweep steps leaves in [t] and in
    [lambda_step]. *)
Lemma sweep_upto_writes (k : nat) (st0 st : state) :
  sweep_upto cfg Rg (S k) st0 = Ok st ->
  st_t st = list_set (st_t st0) (layerVaried cfg) (nth k (varyThickness cfg) 0%Q) /\
  lambda_step_of (lambdas cfg) = Ok (st_lambda_step st).
Proof.
  intros Hsweep. rewrite sweep_upto_S in Hsweep. inv_bind Hsweep.
  destruct (sweep_upto_t _ _ Hx) as (_ & Hset' & _).
  unfold sweep_body in Hsweep. inv_bind Hsweep.
  destruct x2 as [[f ls] J]. inv_bind Hsweep.
  inversion Hsweep; subst st; clear Hsweep. cbn [st_t st_lambda_step].
  apply set_item_Ok_inv in Hx1 as [_ ->].
  apply get_nth_error in Hx0. apply (nth_error_nth _ _ 0%Q) in Hx0. subst x0.
  split; [apply Hset'|].
  unfold step_output in Hx2. inv_bind Hx2. now inversion Hx2; subst.
Qed.

Lemma sweep_body_total (st : state) (k : nat) :
  wf_config cfg -> ~ (x_step cfg == 0)%Q ->
  length (st_t st) = length (thicknesses cfg) ->
  length (st_Jsc st) = length (varyThickness cfg) ->
  k < length (varyThickness cfg) ->
  exists f ls J,
    step_output cfg Rg
      (list_set (st_t st) (layerVaried cfg) (nth k (varyThickness cfg) 0%Q))
    = Ok (f, ls, J) /\
    sweep_body cfg Rg st k
    = Ok (mkState (list_set (st_t st) (layerVaried cfg) (nth k (varyThickness cfg) 0%Q))
                  (list_set (st_Jsc st) k J) ls f).
Proof.
  intros Hwf Hx Ht HJ Hk. pose proof Hwf as (_ & _ & Hlv & _).
  destruct (@step_output_total
              (list_set (st_t st) (layerVaried cfg) (nth k (varyThickness cfg) 0%Q)) Hwf Hx)
    as (f & ls & Gxl & Hout & _).
  { now rewrite length_list_set. }
  exists f, ls, (Jsc_of (x_step cfg) Gxl ls). split; [exact Hout|].
  unfold sweep_body.
  rewrite (get_in_range (varyThickness cfg) 0%Q Hk); cbn [bind].
  rewrite set_item_in_range by lia; cbn [bind].
  rewrite Hout; cbn [bind].
  rewrite set_item_in_range by lia; cbn [bind]. reflexivity.
Qed.

(** The sweep returns; entry [i] of [Jsc] is the photocurrent computed from
    the thickness list in which the varied layer has thickness
    [varyThickness[i]], and the arrays left behind are those of the last
    step. *)
Lemma sweep_upto_total (k : nat) (st0 : state) :
  wf_config cfg -> ~ (x_step cfg == 0)%Q ->
  length (st_t st0) = length (thicknesses cfg) ->
  length (st_Jsc st0) = length (varyThickness cfg) ->
  k <= length (varyThickness cfg) ->
  exists st,
    sweep_upto cfg Rg k st0 = Ok st /\
    length (st_t st) = length (thicknesses cfg) /\
    length (st_Jsc st) = length (varyThickness cfg) /\
    (forall i, i < k -> exists f ls J,
        step_output cfg Rg
          (list_set (st_t st0) (layerVaried cfg) (nth i (varyThickness cfg) 0%Q))
        = Ok (f, ls, J) /\
        nth_error (st_Jsc st) i = Some J) /\
    (forall i, k <= i -> nth_error (st_Jsc st) i = nth_error (st_Jsc st0) i) /\
    (forall k', k = S k' -> exists ls J,
        step_output cfg Rg
          (list_set (st_t st0) (layerVaried cfg) (nth k' (varyThickness cfg) 0%Q))
        = Ok (st_fields st, ls, J)).
Proof.
  intros Hwf Hx Ht HJ. induction k as [|k IH]; intros Hk.
  - exists st0. split; [reflexivity|]. split; [exact Ht|]. split; [exact HJ|].
    split; [intros i Hi; lia|]. split; [auto | intros k' Hk'; discriminate].
  - destruct IH as (st & Hst & Hlt & HlJ & Hdone & Hrest & _); [lia|].
    destruct (@sweep_body_total st k Hwf Hx Hlt HlJ) as (f & ls & J & Hout & Hbody); [lia|].
    destruct (sweep_upto_t _ _ Hst) as (_ & Hset & _).
    rewrite Hset in Hout, Hbody.
    eexists. rewrite sweep_upto_S, Hst; cbn [bind]. split; [exact Hbody|]. simpl.
    split; [now rewrite length_list_set|]. split; [now rewrite length_list_set|].
    split; [|split].
    + intros i Hi. destruct (Nat.eq_dec i k) as [->|Hne].
      * exists f, ls, J. split; [exact Hout|]. apply nth_error_list_set_eq. lia.
      * destruct (Hdone i) as (f' & ls' & J' & Ho' & Hn'); [lia|].
        exists f', ls', J'. split; [exact Ho'|].
        rewrite nth_error_list_set_neq by congruence. exact Hn'.
    + intros i Hi. rewrite nth_error_list_set_neq by lia. apply Hrest; lia.
    + intros k' Hk'. inversion Hk'; subst k'. eauto.
Qed.

End Sweep.

(* ===================================================================== *)
(** ** Properties stated by the specification *)
(* ===================================================================== *)

(** *** Coherent stack solver *)

(** The chain written out for a stack of four layers. *)
Example S_chain_four_layers (n : list (list C)) (t : list Q) (l : Q) (ind : nat) :
  S_chain n t l ind 2
  = (I_mat (idx n 0 ind) (idx n 1 ind)
     * L_mat (idx n 1 ind) (Q2R (thick t 1)) (Q2R l) * I_mat (idx n 1 ind) (idx n 2 ind)
     * L_mat (idx n 2 ind) (Q2R (thick t 2)) (Q2R l) * I_mat (idx n 2 ind) (idx n 3 ind))%M.
Proof. reflexivity. Qed.

(** C1.  For every wavelength the solver's system matrix [S] is the
    left-chained product: it starts with the interface matrix between layer
    0 and layer 1 and, for each layer [m] strictly between the first and
    the last, in increasing order, is post-multiplied by the propagation
    matrix of layer [m] and then by the interface matrix between layer [m]
    and layer [m + 1]; the reflectance stored for the wavelength is
    [|S[1,0] / S[0,0]|^2]. *)
Theorem S_mat_left_chain_reflectance
    (n : list (list C)) (t lambdas : list Q) (Rg : list R)
    (t_cumsum x_pos : list Q) (x_mat : list nat) (ind : nat) :
  wf_table n t lambdas ->
  length Rg = length lambdas ->
  length t_cumsum = length t ->
  length x_mat = length x_pos ->
  ind < length lambdas ->
  let S := S_chain n t (nth ind lambdas 0%Q) ind (length t - 2) in
  S_mat n t lambdas ind = Ok S /\
  exists f,
    step_fields n lambdas Rg t t_cumsum x_pos x_mat = Ok f /\
    nth_error (R_arr f) ind = Some (Cmod (m10 S / m00 S)%C ^ 2)%R.
Proof.
  intros Hwf HRg Hcum Hmat Hind S. split; [apply (S_mat_chain Hwf Hind)|].
  destruct (@step_fields_spec n lambdas Rg t t_cumsum x_pos x_mat Hwf HRg Hcum Hmat)
    as [f (Hf & HR & _)].
  exists f. split; [exact Hf|].
  rewrite HR, nth_error_map, nth_error_seq.
  apply Nat.ltb_lt in Hind as ->. reflexivity.
Qed.

Lemma S_mat_left_chain_reflectance_witness :
  let n := [[(1.5, 0)]; [(2, 0.1)]; [(1, 0)]]%R in
  let t := [0; 100; 0]%Q in
  let S := S_chain n t 500%Q 0 1 in
  S_mat n t [500%Q] 0 = Ok S /\
  exists f,
    step_fields n [500%Q] [0.04%R] t (cumsum t) [] [] = Ok f /\
    nth_error (R_arr f) 0 = Some (Cmod (m10 S / m00 S)%C ^ 2)%R.
Proof.
  intros n t.
  apply (@S_mat_left_chain_reflectance n t [500%Q] [0.04%R] (cumsum t) [] [] 0).
  - unfold wf_table; simpl. split; [lia|]. split; [lia|].
    repeat constructor.
  - reflexivity.
  - reflexivity.
  - reflexivity.
  - simpl; lia.
Defined.

(** *** Interface matrix *)

Lemma Cis_zero_true (z : C) : z = C0 -> Cis_zero z = true.
Proof.
  intros ->. unfold Cis_zero; simpl.
  destruct (Req_dec_T 0 0) as [_|H]; [reflexivity | now elim H].
Qed.






(** *** Degenerate interface *)

(** C9, as the code has it.  For a degenerate pairing [n1 + n2 = 0] the
    interface matrix builder raises nothing: both Fresnel coefficients are
    the result of a division by zero, and the matrix it returns has no
    finite entry. *)
Theorem I_mat_np_degenerate_returns (n1 n2 : C) :
  (n1 + n2)%C = C0 ->
  I_mat_np n1 n2 = Ok (mkM2np NonFin NonFin NonFin NonFin).
Proof.
  intros Hs. unfold I_mat_np, np_div; simpl.
  rewrite (Cis_zero_true Hs). reflexivity.
Qed.

Lemma I_mat_np_degenerate_returns_witness :
  (RtoC 1 + RtoC (-1))%C = C0 /\
  I_mat_np (RtoC 1) (RtoC (-1)) = Ok (mkM2np NonFin NonFin NonFin NonFin).
Proof.
  assert (H : (RtoC 1 + RtoC (-1))%C = C0) by (apply C_eq; simpl; lra).
  split; [exact H | exact (I_mat_np_degenerate_returns H)].
Defined.

(** C9, as stated, fails: at [n1 = 1], [n2 = -1] the sum is zero and the
    builder does not fail with [InvalidOpticalConstant]. *)
Lemma I_mat_np_no_InvalidOpticalConstant :
  (RtoC 1 + RtoC (-1))%C = C0 /\
  I_mat_np (RtoC 1) (RtoC (-1)) <> Err InvalidOpticalConstant.
Proof.
  split; [apply C_eq; simpl; lra|].
  unfold I_mat_np. discriminate.
Qed.

(** *** Field profile *)

Section FieldEntries.

Variable lambdas x_pos : list Q.
Variable x_mat : list nat.
Hypothesis Hmat : length x_mat = length x_pos.

Lemma E_inv_at (D : nat -> nat -> Prop) (E : list (list cell)) (j mj k : nat) :
  E_inv lambdas x_pos x_mat D E ->
  nth_error x_mat j = Some mj -> k < length lambdas ->
  (D mj k -> exists v, E_at E j k = Some (Assigned v)) /\
  (~ D mj k -> E_at E j k = Some Zero).
Proof.
  intros [Hl Hr] Hmj Hk.
  assert (Hj : j < length E).
  { rewrite Hl, <- Hmat. apply nth_error_Some. congruence. }
  destruct (nth_error E j) as [row|] eqn:Hrow;
    [|apply nth_error_None in Hrow; lia].
  destruct (Hr j mj row Hmj Hrow) as [_ Hc].
  unfold E_at. rewrite Hrow. apply Hc, Hk.
Qed.

End FieldEntries.

(** C5, as the code has it.  The field profile calculator assigns a field
    value to every sample point of the layers [m] with
    [1 <= m <= len(t) - 1], the exit layer included; the entries of points
    in the incidence layer (index 0) are never assigned and keep their
    initial zero. *)
Theorem E_assigned_from_layer_1_to_last
    (n : list (list C)) (t lambdas : list Q) (Rg : list R)
    (t_cumsum x_pos : list Q) (x_mat : list nat) :
  wf_table n t lambdas ->
  length Rg = length lambdas ->
  length t_cumsum = length t ->
  length x_mat = length x_pos ->
  exists f,
    step_fields n lambdas Rg t t_cumsum x_pos x_mat = Ok f /\
    forall j mj k, nth_error x_mat j = Some mj -> k < length lambdas ->
      (mj = 0 -> E_at (E_arr f) j k = Some Zero) /\
      (1 <= mj <= length t - 1 -> exists v, E_at (E_arr f) j k = Some (Assigned v)).
Proof.
  intros Hwf HRg Hcum Hmat.
  destruct (@step_fields_spec n lambdas Rg t t_cumsum x_pos x_mat Hwf HRg Hcum Hmat)
    as [f (Hf & _ & _ & HE)].
  exists f. split; [exact Hf|].
  intros j mj k Hmj Hk.
  destruct (@E_inv_at lambdas x_pos x_mat Hmat _ _ j mj k HE Hmj Hk) as [Ha Hz]. split.
  - intros ->. apply Hz. lia.
  - intros Hm. apply Ha. lia.
Qed.

Lemma E_assigned_from_layer_1_to_last_witness :
  let n := [[(1.5, 0)]; [(2, 0.1)]]%R in
  let t := [0; 10]%Q in
  exists f,
    step_fields n [500%Q] [0.04%R] t (cumsum t) [2.5; 7.5]%Q [1; 1] = Ok f /\
    forall j mj k, nth_error [1; 1] j = Some mj -> k < 1 ->
      (mj = 0 -> E_at (E_arr f) j k = Some Zero) /\
      (1 <= mj <= 1 -> exists v, E_at (E_arr f) j k = Some (Assigned v)).
Proof.
  intros n t.
  apply (@E_assigned_from_layer_1_to_last n t [500%Q] [0.04%R] (cumsum t)
           [2.5; 7.5]%Q [1; 1]).
  - unfold wf_table; simpl. split; [lia|]. split; [lia|]. repeat constructor.
  - reflexivity.
  - reflexivity.
  - reflexivity.
Defined.

(** C5, as stated, fails: in the stack [t = [0, 10]] sampled every 5 nm both
    sample points lie in the exit layer (index 1, the last one), and the
    entry of the first point is assigned a field value. *)
Lemma exit_layer_entry_is_assigned :
  let n := [[(1.5, 0)]; [(2, 0.1)]]%R in
  let t := [0; 10]%Q in
  let x_pos := x_pos_of 5 t in
  let x_mat := x_mat_of t x_pos (cumsum t) in
  exists f v,
    step_fields n [500%Q] [0.04%R] t (cumsum t) x_pos x_mat = Ok f /\
    nth_error x_mat 0 = Some (length t - 1) /\
    E_at (E_arr f) 0 0 = Some (Assigned v).
Proof.
  intros n t x_pos x_mat.
  assert (Hwf : wf_table n t [500%Q]).
  { unfold wf_table; simpl. split; [lia|]. split; [lia|]. repeat constructor. }
  assert (Hmat : length x_mat = length x_pos) by apply length_x_mat_of.
  destruct (@step_fields_spec n [500%Q] [0.04%R] t (cumsum t) x_pos x_mat
              Hwf eq_refl (length_cumsum t) Hmat) as [f (Hf & _ & _ & HE)].
  assert (Hm : nth_error x_mat 0 = Some 1) by (vm_compute; reflexivity).
  destruct (@E_inv_at [500%Q] x_pos x_mat Hmat _ _ 0 1 0 HE Hm) as [Ha _];
    [simpl; lia|].
  destruct Ha as [v Hv]; [simpl; lia|].
  exists f, v. auto.
Qed.

(** *** Incoherent substrate correction *)

Lemma R_glass_spec (n : list (list C)) (t lambdas : list Q) :
  wf_table n t lambdas ->
  R_glass n
  = Ok (map (fun n0 => (Cmod ((C1 - n0) / (C1 + n0))%C ^ 2)%R) (nth 0 n [])) /\
  T_glass n
  = Ok (map (fun n0 => Cmod ((RtoC (4.0 * 1.0)%R * n0) / ((C1 + n0) * (C1 + n0)))%C)
            (nth 0 n [])) /\
  length (nth 0 n []) = length lambdas.
Proof.
  intros (Hn2 & _ & Hrows). unfold R_glass, T_glass.
  rewrite (get_in_range n [] (i := 0)) by lia; cbn [bind].
  split; [reflexivity|]. split; [reflexivity|].
  rewrite Forall_forall in Hrows. apply Hrows, nth_In. lia.
Qed.

(** The transmittance array that a sweep step leaves behind. *)
Lemma sweep_T_arr (cfg : config) (Rg : list R) (st0 st : state) (k : nat) :
  wf_config cfg ->
  length Rg = length (lambdas cfg) ->
  length (st_t st0) = length (thicknesses cfg) ->
  length (st_Jsc st0) = length (varyThickness cfg) ->
  k < length (varyThickness cfg) ->
  sweep_upto cfg Rg (S k) st0 = Ok st ->
  T_arr (st_fields st)
  = map (T_of (n cfg)
              (list_set (st_t st0) (layerVaried cfg) (nth k (varyThickness cfg) 0%Q))
              (lambdas cfg) Rg)
        (seq 0 (length (lambdas cfg))).
Proof.
  intros Hwf HlRg Ht HJ Hk Hsweep.
  pose proof (sweep_upto_Ok_x_step _ _ _ _ Hsweep) as Hx.
  destruct (@sweep_upto_total cfg Rg HlRg (S k) st0 Hwf Hx Ht HJ)
    as (st' & Hst' & _ & _ & _ & _ & Hlast); [lia|].
  rewrite Hsweep in Hst'. inversion Hst'; subst st'.
  destruct (Hlast k eq_refl) as (ls & J & Hout).
  destruct (@step_output_total cfg Rg HlRg
              (list_set (st_t st0) (layerVaried cfg) (nth k (varyThickness cfg) 0%Q)) Hwf Hx)
    as (f & ls' & Gxl & Hout' & _ & _ & HTf & _).
  { now rewrite length_list_set. }
  rewrite Hout in Hout'. inversion Hout'; subst f. exact HTf.
Qed.

(** C4, as the code has it.  [T_glass] and [R_glass] are computed once,
    from the indices of layer 0, before the sweep.  The transmittance
    [T = |2/(1 + n0)| / sqrt(1 - R_glass*R)] is recomputed for every
    wavelength in every sweep step, from the reflectance [R] of the
    thickness list of that step. *)
Theorem T_recomputed_from_step_reflectance
    (cfg : config) (Rg : list R) (st0 st : state) (k : nat) :
  wf_config cfg ->
  R_glass (n cfg) = Ok Rg ->
  length (st_t st0) = length (thicknesses cfg) ->
  length (st_Jsc st0) = length (varyThickness cfg) ->
  k < length (varyThickness cfg) ->
  sweep_upto cfg Rg (S k) st0 = Ok st ->
  let t_k := list_set (st_t st0) (layerVaried cfg) (nth k (varyThickness cfg) 0%Q) in
  T_arr (st_fields st)
  = map (fun ind =>
           (Cmod (RtoC 2 / (C1 + idx (n cfg) 0 ind))%C
            / sqrt (1 - nth ind Rg 0 * R_of (n cfg) t_k (lambdas cfg) ind))%R)
        (seq 0 (length (lambdas cfg))) /\
  Rg = map (fun n0 => (Cmod ((C1 - n0) / (C1 + n0))%C ^ 2)%R) (nth 0 (n cfg) []) /\
  T_glass (n cfg)
  = Ok (map (fun n0 => Cmod ((RtoC (4.0 * 1.0)%R * n0) / ((C1 + n0) * (C1 + n0)))%C)
            (nth 0 (n cfg) [])).
Proof.
  intros Hwf HRg Ht HJ Hk Hsweep t_k.
  destruct (R_glass_spec (proj1 Hwf)) as (HR & HT & Hlen).
  assert (HRg' : Rg = map (fun n0 => (Cmod ((C1 - n0) / (C1 + n0))%C ^ 2)%R)
                          (nth 0 (n cfg) [])) by congruence.
  assert (HlRg : length Rg = length (lambdas cfg))
    by (rewrite HRg', length_map; exact Hlen).
  split; [|split; [exact HRg' | exact HT]].
  rewrite (@sweep_T_arr cfg Rg st0 st k Hwf HlRg Ht HJ Hk Hsweep). reflexivity.
Qed.

(** *** Grids *)

Section Grids.

Local Open Scope Q_scope.

Lemma length_arange (start stop step : Q) :
  length (arange start stop step)
  = Z.to_nat (Qceiling ((stop - start) / step)).
Proof. unfold arange. now rewrite length_map, length_seq. Qed.

Lemma nth_error_arange (start stop step : Q) (i : nat) :
  (i < length (arange start stop step))%nat ->
  nth_error (arange start stop step) i
  = Some (start + inject_Z (Z.of_nat i) * step).
Proof.
  intros Hi. rewrite length_arange in Hi. unfold arange.
  rewrite nth_error_map, nth_error_seq.
  apply Nat.ltb_lt in Hi as ->. reflexivity.
Qed.

Lemma Qceiling_unique (x : Q) (z : Z) :
  inject_Z (z - 1) < x -> x <= inject_Z z -> Qceiling x = z.
Proof.
  intros Hlo Hhi.
  pose proof (Qle_ceiling x) as H1. pose proof (Qceiling_lt x) as H2.
  assert (Ha : inject_Z (Qceiling x - 1) < inject_Z z)
    by (eapply Qlt_le_trans; eassumption).
  assert (Hb : inject_Z (z - 1) < inject_Z (Qceiling x))
    by (eapply Qlt_le_trans; eassumption).
  rewrite <- Zlt_Qlt in Ha, Hb. lia.
Qed.

Lemma Qceiling_succ (x : Q) : Qceiling (x + 1) = (Qceiling x + 1)%Z.
Proof.
  apply Qceiling_unique.
  - replace (Qceiling x + 1 - 1)%Z with (Qceiling x) by lia.
    pose proof (Qceiling_lt x) as H.
    replace (Qceiling x - 1)%Z with (Qceiling x + -1)%Z in H by lia.
    rewrite inject_Z_plus in H.
    assert (Hm : inject_Z (-1) == -(1)) by reflexivity.
    rewrite Hm in H. Lqa.lra.
  - rewrite inject_Z_plus. change (inject_Z 1) with 1.
    pose proof (Qle_ceiling x). Lqa.lra.
Qed.

(** Every value of a grid with a positive step lies in [[start, stop)]. *)
Lemma arange_bounds (start stop step x : Q) :
  0 < step -> In x (arange start stop step) -> start <= x /\ x < stop.
Proof.
  intros Hstep Hx. apply In_nth_error in Hx as [i Hi].
  assert (Hlen : (i < length (arange start stop step))%nat)
    by (apply nth_error_Some; congruence).
  rewrite nth_error_arange in Hi by exact Hlen. inversion Hi; subst x; clear Hi.
  rewrite length_arange in Hlen.
  assert (H0 : 0 <= inject_Z (Z.of_nat i)).
  { replace 0 with (inject_Z 0) by reflexivity. rewrite <- Zle_Qle. lia. }
  split; [Lqa.nra|].
  pose proof (Qceiling_lt ((stop - start) / step)) as Hc.
  assert (Hi : inject_Z (Z.of_nat i) <= inject_Z (Qceiling ((stop - start) / step) - 1)).
  { rewrite <- Zle_Qle. lia. }
  assert (Hq : inject_Z (Z.of_nat i) < (stop - start) / step)
    by (eapply Qle_lt_trans; eassumption).
  assert (Hm : inject_Z (Z.of_nat i) * step < (stop - start) / step * step).
  { apply Qmult_lt_compat_r; assumption. }
  assert (He : (stop - start) / step * step == stop - start).
  { field. intros E; rewrite E in Hstep; now apply Qlt_irrefl in Hstep. }
  rewrite He in Hm. Lqa.lra.
Qed.

End Grids.

(** *** Double precision: the grids on whole numbers *)

Section Binary64Facts.

Local Open Scope Q_scope.

Lemma Qpow2_pos (e : Z) : 0 < Qpow2 e.
Proof. apply Qpower_0_lt. reflexivity. Qed.

Lemma Qpow2_plus (a b : Z) : Qpow2 (a + b) == Qpow2 a * Qpow2 b.
Proof. apply Qpower_plus. discriminate. Qed.

Lemma Qpow2_Z (k : Z) : (0 <= k)%Z -> Qpow2 k == inject_Z (2 ^ k).
Proof. intros H. unfold Qpow2. now rewrite Zpower_Qpower. Qed.

Lemma Qpow2_opp (k : Z) : Qpow2 (- k) == / Qpow2 k.
Proof. apply Qpower_opp. Qed.

Lemma round_half_even_comp (x y : Q) :
  x == y -> round_half_even x = round_half_even y.
Proof.
  intros H. unfold round_half_even.
  rewrite (Qfloor_comp _ _ H).
  assert (E : x - inject_Z (Qfloor y) == y - inject_Z (Qfloor y)) by now rewrite H.
  now rewrite (Qcompare_comp _ _ E _ _ (Qeq_refl (1 # 2))).
Qed.

Lemma round_half_even_Z (z : Z) : round_half_even (inject_Z z) = z.
Proof.
  unfold round_half_even. rewrite Qfloor_Z.
  assert (E : inject_Z z - inject_Z z == 0) by ring.
  now rewrite (Qcompare_comp _ _ E _ _ (Qeq_refl (1 # 2))).
Qed.

Lemma round_half_even_err (x : Q) :
  x - (1 # 2) <= inject_Z (round_half_even x) /\
  inject_Z (round_half_even x) <= x + (1 # 2).
Proof.
  unfold round_half_even.
  pose proof (Qfloor_le x) as Hlo. pose proof (Qlt_floor x) as Hhi.
  rewrite inject_Z_plus in Hhi. change (inject_Z 1) with 1 in Hhi.
  destruct (Qcompare_spec (x - inject_Z (Qfloor x)) (1 # 2)) as [E|E|E].
  - destruct (Z.even (Qfloor x)).
    + split; Lqa.lra.
    + rewrite inject_Z_plus. change (inject_Z 1) with 1. split; Lqa.lra.
  - split; Lqa.lra.
  - rewrite inject_Z_plus. change (inject_Z 1) with 1. split; Lqa.lra.
Qed.

Lemma f64_round_comp (x y : Q) : x == y -> f64_round x = f64_round y.
Proof. intros H. unfold f64_round. now rewrite (Qred_complete _ _ H). Qed.

Lemma Qred_inject_Z (z : Z) : Qred (inject_Z z) = inject_Z z.
Proof.
  unfold Qred, inject_Z.
  pose proof (Z.ggcd_gcd z 1) as Hg.
  pose proof (Z.ggcd_correct_divisors z 1) as Hd.
  destruct (Z.ggcd z 1) as [g [a b]]. simpl in *.
  rewrite Z.gcd_1_r in Hg. subst g. destruct Hd as [Ha Hb].
  rewrite Z.mul_1_l in Ha, Hb. now subst a b.
Qed.

(** Integers below [2^53] are doubles. *)
Lemma f64_round_Z (z : Z) :
  (Z.abs z < 2 ^ 53)%Z -> f64_round (inject_Z z) = inject_Z z.
Proof.
  intros Hz. unfold f64_round. rewrite Qred_inject_Z.
  destruct (Z.eq_dec z 0) as [->|Hnz]; [reflexivity|].
  destruct (Qeq_bool (inject_Z z) 0) eqn:E.
  { apply Qeq_bool_iff in E. unfold Qeq in E; simpl in E. lia. }
  assert (HL : Qilog2 (inject_Z z) = Z.log2 (Z.abs z)).
  { unfold Qilog2, inject_Z; cbn [Qnum Qden].
    change (Z.log2 1) with 0%Z. rewrite Z.pow_0_r, Z.mul_1_r, Z.mul_1_l, Z.sub_0_r.
    pose proof (Z.log2_spec (Z.abs z)) as Hs.
    destruct (Z.leb_spec (2 ^ Z.log2 (Z.abs z)) (Z.abs z)); lia. }
  rewrite HL.
  assert (Hlog : (Z.log2 (Z.abs z) < 53)%Z) by (apply Z.log2_lt_pow2; lia).
  pose proof (Z.log2_nonneg (Z.abs z)) as Hl0.
  set (e := Z.max (-1074) (Z.log2 (Z.abs z) - 52)).
  assert (He : (-1074 <= e <= 0)%Z) by (unfold e; lia).
  rewrite <- (Qred_inject_Z z) at 2. apply Qred_complete.
  assert (Hp : Qpow2 e * inject_Z (2 ^ (- e)) == 1).
  { rewrite <- Qpow2_Z by lia. rewrite <- Qpow2_plus.
    replace (e + - e)%Z with 0%Z by lia. reflexivity. }
  pose proof (Qpow2_pos e) as Hpos.
  assert (Hq : inject_Z z / Qpow2 e == inject_Z (z * 2 ^ (- e))).
  { rewrite inject_Z_mult. apply Qmult_inj_r with (z := Qpow2 e); [Lqa.lra|].
    unfold Qdiv. rewrite <- !Qmult_assoc.
    rewrite (Qmult_comm (/ Qpow2 e)), Qmult_inv_r by Lqa.lra.
    rewrite (Qmult_comm (inject_Z (2 ^ (- e)))), Hp. ring. }
  rewrite (round_half_even_comp Hq), round_half_even_Z.
  rewrite inject_Z_mult, <- Qmult_assoc, (Qmult_comm (inject_Z (2 ^ (- e)))), Hp. ring.
Qed.


Lemma Qpow2_sub (a b : Z) :
  (0 <= a)%Z -> (0 <= b)%Z -> Qpow2 (a - b) == inject_Z (2 ^ a) / inject_Z (2 ^ b).
Proof.
  intros Ha Hb. unfold Z.sub. rewrite Qpow2_plus, Qpow2_opp, !Qpow2_Z by assumption.
  reflexivity.
Qed.

Lemma Qpow2_sub_le (a b n : Z) (d : positive) :
  (0 <= a)%Z -> (0 <= b)%Z ->
  (2 ^ a * Zpos d <= n * 2 ^ b)%Z -> Qpow2 (a - b) <= n # d.
Proof.
  intros Ha Hb H. rewrite Qpow2_sub by assumption.
  assert (Hb0 : (0 < 2 ^ b)%Z) by (apply Z.pow_pos_nonneg; lia).
  apply Qle_shift_div_r.
  - replace 0 with (inject_Z 0) by reflexivity. now rewrite <- Zlt_Qlt.
  - unfold Qle, Qmult, inject_Z; cbn [Qnum Qden].
    rewrite Pos.mul_1_r, Z.mul_1_r. exact H.
Qed.

Lemma Qpow2_sub_gt (a b n : Z) (d : positive) :
  (0 <= a)%Z -> (0 <= b)%Z ->
  (n * 2 ^ b < 2 ^ a * Zpos d)%Z -> n # d < Qpow2 (a - b).
Proof.
  intros Ha Hb H. rewrite Qpow2_sub by assumption.
  assert (Hb0 : (0 < 2 ^ b)%Z) by (apply Z.pow_pos_nonneg; lia).
  apply Qlt_shift_div_l.
  - replace 0 with (inject_Z 0) by reflexivity. now rewrite <- Zlt_Qlt.
  - unfold Qlt, Qmult, inject_Z; cbn [Qnum Qden].
    rewrite Pos.mul_1_r, Z.mul_1_r. exact H.
Qed.

(** [Qilog2 x] is [floor(log2 |x|)]. *)
Lemma Qilog2_spec (x : Q) :
  ~ x == 0 ->
  Qpow2 (Qilog2 x) <= Qabs x /\ Qabs x < Qpow2 (Qilog2 x + 1).
Proof.
  intros Hx. destruct x as [n d].
  assert (Hn : (0 < Z.abs n)%Z).
  { destruct (Z.eq_dec n 0) as [->|]; [|lia]. elim Hx. reflexivity. }
  unfold Qilog2, Qabs; cbn [Qnum Qden].
  pose proof (Z.log2_spec (Z.abs n) Hn) as Hsn.
  pose proof (Z.log2_spec (Zpos d) (Pos2Z.is_pos d)) as Hsd.
  pose proof (Z.log2_nonneg (Z.abs n)) as Hln.
  pose proof (Z.log2_nonneg (Zpos d)) as Hld.
  set (ln := Z.log2 (Z.abs n)) in *. set (ld := Z.log2 (Zpos d)) in *.
  rewrite !Z.pow_succ_r in * by assumption.
  assert (Hpn : (0 < 2 ^ ln)%Z) by (apply Z.pow_pos_nonneg; lia).
  assert (Hpd : (0 < 2 ^ ld)%Z) by (apply Z.pow_pos_nonneg; lia).
  destruct (Z.leb_spec (Zpos d * 2 ^ ln) (Z.abs n * 2 ^ ld)) as [H|H].
  - split.
    + apply Qpow2_sub_le; lia.
    + replace (ln - ld + 1)%Z with (Z.succ ln - ld)%Z by lia.
      apply Qpow2_sub_gt; [lia | lia |]. rewrite Z.pow_succ_r by assumption. nia.
  - split.
    + replace (ln - ld - 1)%Z with (ln - Z.succ ld)%Z by lia.
      apply Qpow2_sub_le; [lia | lia |]. rewrite Z.pow_succ_r by assumption. nia.
    + replace (ln - ld - 1 + 1)%Z with (ln - ld)%Z by lia.
      apply Qpow2_sub_gt; lia.
Qed.

(** The rounding error is at most half a unit in the last place. *)
Lemma f64_round_err (x : Q) :
  ~ x == 0 ->
  let e := Z.max (-1074) (Qilog2 (Qred x) - 52) in
  x - Qpow2 e * (1 # 2) <= f64_round x /\ f64_round x <= x + Qpow2 e * (1 # 2).
Proof.
  intros Hx e. unfold f64_round. fold e.
  destruct (Qeq_bool (Qred x) 0) eqn:E.
  { apply Qeq_bool_iff in E. rewrite Qred_correct in E. contradiction. }
  rewrite Qred_correct.
  pose proof (Qpow2_pos e) as Hpos.
  destruct (round_half_even_err (Qred x / Qpow2 e)) as [Hlo Hhi].
  set (m := inject_Z (round_half_even (Qred x / Qpow2 e))) in *.
  assert (Hr : Qred x / Qpow2 e == x / Qpow2 e) by now rewrite Qred_correct.
  rewrite Hr in Hlo, Hhi.
  assert (Hy : x / Qpow2 e * Qpow2 e == x) by (field; Lqa.lra).
  assert (H1 : (x / Qpow2 e - (1 # 2)) * Qpow2 e <= m * Qpow2 e)
    by (apply Qmult_le_compat_r; Lqa.lra).
  assert (H2 : m * Qpow2 e <= (x / Qpow2 e + (1 # 2)) * Qpow2 e)
    by (apply Qmult_le_compat_r; Lqa.lra).
  split; Lqa.nra.
Qed.

Lemma Qpow2_le_1 (k : Z) : (k <= 0)%Z -> Qpow2 k <= 1.
Proof.
  intros Hk. replace k with (- (- k))%Z by lia. rewrite Qpow2_opp, Qpow2_Z by lia.
  assert (H : (1 <= 2 ^ (- k))%Z).
  { replace 1%Z with (2 ^ 0)%Z by reflexivity. apply Z.pow_le_mono_r; lia. }
  apply Qle_shift_inv_r.
  - replace 0 with (inject_Z 0) by reflexivity. rewrite <- Zlt_Qlt. lia.
  - rewrite Qmult_1_l. replace 1 with (inject_Z 1) by reflexivity.
    now rewrite <- Zle_Qle.
Qed.

Lemma Qpow2_le (a b : Z) : (a <= b)%Z -> Qpow2 a <= Qpow2 b.
Proof.
  intros H. replace b with (a + (b - a))%Z by lia. rewrite Qpow2_plus.
  rewrite <- (Qmult_1_r (Qpow2 a)) at 1.
  apply Qmult_le_l; [apply Qpow2_pos|].
  rewrite Qpow2_Z by lia. replace 1 with (inject_Z 1) by reflexivity.
  rewrite <- Zle_Qle.
  replace 1%Z with (2 ^ 0)%Z by reflexivity. apply Z.pow_le_mono_r; lia.
Qed.

(** In the range of the normal doubles the relative rounding error is at
    most [2^-53]. *)
Lemma f64_round_rel (x : Q) :
  Qpow2 (-1022) <= Qabs x ->
  x - Qabs x * Qpow2 (-53) <= f64_round x /\ f64_round x <= x + Qabs x * Qpow2 (-53).
Proof.
  intros H1.
  pose proof (Qpow2_pos (-1022)) as Hp1022.
  assert (Hx : ~ x == 0).
  { intros E. rewrite E in H1. change (Qabs 0) with 0 in H1. Lqa.lra. }
  destruct (f64_round_err Hx) as [Hlo Hhi].
  assert (Hrx : ~ Qred x == 0) by now rewrite Qred_correct.
  destruct (Qilog2_spec Hrx) as [HL HU].
  assert (Ea : Qabs (Qred x) == Qabs x) by now rewrite Qred_correct.
  rewrite Ea in HL, HU.
  set (L := Qilog2 (Qred x)) in *.
  assert (HL0 : (-1022 <= L)%Z).
  { destruct (Z.le_gt_cases (-1022) L) as [H|H]; [exact H|].
    pose proof (@Qpow2_le (L + 1) (-1022) ltac:(lia)). Lqa.lra. }
  replace (Z.max (-1074) (L - 52)) with (L + -53 + 1)%Z in Hlo, Hhi by lia.
  rewrite !Qpow2_plus in Hlo, Hhi.
  change (Qpow2 1) with 2 in Hlo, Hhi.
  pose proof (Qpow2_pos (-53)) as Hp. pose proof (Qpow2_pos L) as HpL.
  assert (Hm : Qpow2 L * Qpow2 (-53) <= Qabs x * Qpow2 (-53))
    by (apply Qmult_le_compat_r; Lqa.lra).
  split; Lqa.lra.
Qed.

(** The length that [np.arange] computes in double precision from whole
    numbers is the exact one. *)
Lemma f64_div_ceiling (X s : Z) :
  (0 < s < 2 ^ 53)%Z -> (Z.abs X < 2 ^ 53)%Z ->
  Qceiling (f64_div (inject_Z X) (inject_Z s)) = Qceiling (inject_Z X / inject_Z s).
Proof.
  intros [Hs Hs53] HX. unfold f64_div.
  assert (Hs0 : 0 < inject_Z s)
    by (replace 0 with (inject_Z 0) by reflexivity; now rewrite <- Zlt_Qlt).
  pose proof (Z.div_mod X s ltac:(lia)) as Hdm.
  pose proof (Z.mod_pos_bound X s Hs) as Hr.
  set (qz := (X / s)%Z) in *. set (r := (X mod s)%Z) in *.
  assert (Hx : inject_Z X / inject_Z s == inject_Z qz + inject_Z r / inject_Z s).
  { rewrite Hdm, inject_Z_plus, inject_Z_mult. field. Lqa.lra. }
  destruct (Z.eq_dec r 0) as [Hr0|Hr0].
  - assert (Hxz : inject_Z X / inject_Z s == inject_Z qz).
    { rewrite Hx, Hr0. change (inject_Z 0) with 0. field. Lqa.lra. }
    rewrite (f64_round_comp Hxz), f64_round_Z by nia.
    now rewrite (Qceiling_comp _ _ Hxz).
  - set (x := inject_Z X / inject_Z s) in *.
    assert (Hrs : 1 <= inject_Z r)
      by (replace 1 with (inject_Z 1) by reflexivity; rewrite <- Zle_Qle; lia).
    assert (Hrs' : inject_Z r + 1 <= inject_Z s).
    { replace 1 with (inject_Z 1) by reflexivity.
      rewrite <- inject_Z_plus, <- Zle_Qle. lia. }
    assert (Hinv : 0 < / inject_Z s) by now apply Qinv_lt_0_compat.
    assert (Hfrac1 : / inject_Z s <= inject_Z r / inject_Z s).
    { unfold Qdiv. rewrite <- (Qmult_1_l (/ inject_Z s)) at 1.
      apply Qmult_le_compat_r; Lqa.lra. }
    assert (Hfrac2 : inject_Z r / inject_Z s + / inject_Z s <= 1).
    { assert (E : inject_Z r / inject_Z s + / inject_Z s
                  == (inject_Z r + 1) / inject_Z s) by (field; Lqa.lra).
      rewrite E. apply Qle_shift_div_r; Lqa.lra. }
    (* |x| is a multiple of 1/s and not zero *)
    assert (Habs : Qabs x == inject_Z (Z.abs X) / inject_Z s).
    { unfold x, Qdiv. rewrite Qabs_Qmult, (Qabs_pos (/ inject_Z s)) by Lqa.lra.
      reflexivity. }
    assert (HXn : X <> 0%Z).
    { intros E. apply Hr0. unfold r. rewrite E. apply Zmod_0_l. }
    assert (HX0 : (1 <= Z.abs X)%Z) by lia.
    assert (HX1 : 1 <= inject_Z (Z.abs X))
      by (replace 1 with (inject_Z 1) by reflexivity; now rewrite <- Zle_Qle).
    assert (Hlow : / inject_Z s <= Qabs x).
    { rewrite Habs. unfold Qdiv. rewrite <- (Qmult_1_l (/ inject_Z s)) at 1.
      apply Qmult_le_compat_r; Lqa.lra. }
    assert (E53 : 1 == inject_Z (2 ^ 53) * Qpow2 (-53)) by reflexivity.
    assert (Hnorm : Qpow2 (-1022) <= Qabs x).
    { apply Qle_trans with (Qpow2 (-53)); [now apply Qpow2_le|].
      apply Qle_trans with (/ inject_Z s); [|exact Hlow].
      apply Qle_shift_inv_l; [exact Hs0|].
      apply Qle_trans with (inject_Z (2 ^ 53) * Qpow2 (-53));
        [|rewrite <- E53; apply Qle_refl].
      rewrite (Qmult_comm (Qpow2 (-53))).
      apply Qmult_le_compat_r; [|apply Qlt_le_weak, Qpow2_pos].
      rewrite <- Zle_Qle. lia. }
    destruct (@f64_round_rel x Hnorm) as [Hlo Hhi].
    assert (Herr : Qabs x * Qpow2 (-53) < / inject_Z s).
    { rewrite Habs. unfold Qdiv.
      rewrite <- Qmult_assoc, (Qmult_comm (/ inject_Z s)), Qmult_assoc.
      rewrite <- (Qmult_1_l (/ inject_Z s)) at 2.
      apply Qmult_lt_compat_r; [exact Hinv|].
      apply Qlt_le_trans with (inject_Z (2 ^ 53) * Qpow2 (-53));
        [|rewrite <- E53; apply Qle_refl].
      apply Qmult_lt_compat_r; [apply Qpow2_pos|]. now rewrite <- Zlt_Qlt. }
    transitivity (qz + 1)%Z; [|symmetry]; apply Qceiling_unique;
      replace (qz + 1 - 1)%Z with qz by lia;
      rewrite ?inject_Z_plus; change (inject_Z 1) with 1; Lqa.lra.
Qed.

Lemma f64_add_Z (x y : Z) :
  (Z.abs (x + y) < 2 ^ 53)%Z -> f64_add (inject_Z x) (inject_Z y) = inject_Z (x + y).
Proof.
  intros H. unfold f64_add.
  rewrite (@f64_round_comp _ (inject_Z (x + y))) by (now rewrite inject_Z_plus).
  now apply f64_round_Z.
Qed.

Lemma f64_sub_Z (x y : Z) :
  (Z.abs (x - y) < 2 ^ 53)%Z -> f64_sub (inject_Z x) (inject_Z y) = inject_Z (x - y).
Proof.
  intros H. unfold f64_sub.
  rewrite (@f64_round_comp _ (inject_Z (x - y)))
    by (unfold Z.sub; rewrite inject_Z_plus, inject_Z_opp; reflexivity).
  now apply f64_round_Z.
Qed.

Lemma f64_mul_Z (x y : Z) :
  (Z.abs (x * y) < 2 ^ 53)%Z -> f64_mul (inject_Z x) (inject_Z y) = inject_Z (x * y).
Proof.
  intros H. unfold f64_mul.
  rewrite (@f64_round_comp _ (inject_Z (x * y))) by (now rewrite inject_Z_mult).
  now apply f64_round_Z.
Qed.

(** The number of values of an inclusive grid on whole numbers. *)
Lemma inclusive_count_Z (a fin s : Z) :
  (0 < s)%Z -> (a <= fin)%Z ->
  let c := Qceiling (inject_Z (fin - a) / inject_Z s) in
  (0 <= c)%Z /\ ((c - 1) * s < fin - a)%Z /\ (fin - a <= c * s)%Z.
Proof.
  intros Hs Hle c.
  assert (Hs0 : 0 < inject_Z s)
    by (replace 0 with (inject_Z 0) by reflexivity; now rewrite <- Zlt_Qlt).
  pose proof (Qceiling_lt (inject_Z (fin - a) / inject_Z s)) as Hlo.
  pose proof (Qle_ceiling (inject_Z (fin - a) / inject_Z s)) as Hhi.
  fold c in Hlo, Hhi.
  assert (He : inject_Z (fin - a) / inject_Z s * inject_Z s == inject_Z (fin - a))
    by (field; Lqa.lra).
  assert (H1 : inject_Z (c - 1) * inject_Z s < inject_Z (fin - a)).
  { rewrite <- He. apply Qmult_lt_compat_r; assumption. }
  assert (H2 : inject_Z (fin - a) <= inject_Z c * inject_Z s).
  { rewrite <- He. apply Qmult_le_compat_r; [assumption | Lqa.lra]. }
  rewrite <- inject_Z_mult, <- Zlt_Qlt in H1.
  rewrite <- inject_Z_mult, <- Zle_Qle in H2.
  split; [nia | split; assumption].
Qed.

(** On whole numbers below [2^52] in magnitude the double-precision grid
    is the exact grid, written in lowest terms. *)
Lemma np_arange_f64_Z (a fin s : Z) :
  (0 < s)%Z -> (a <= fin)%Z -> (- 2 ^ 52 < a)%Z -> (fin + s < 2 ^ 52)%Z ->
  np_arange_f64 (inject_Z a) (f64_add (inject_Z fin) (inject_Z s)) (inject_Z s)
  = map (fun i => inject_Z (a + Z.of_nat i * s))
        (seq 0 (Z.to_nat (Qceiling (inject_Z (fin - a) / inject_Z s) + 1))).
Proof.
  intros Hs Hle Ha Hfin.
  destruct (@inclusive_count_Z a fin s Hs Hle) as (Hc0 & Hc1 & Hc2).
  set (c := Qceiling (inject_Z (fin - a) / inject_Z s)) in *.
  assert (Hs0 : 0 < inject_Z s)
    by (replace 0 with (inject_Z 0) by reflexivity; now rewrite <- Zlt_Qlt).
  unfold np_arange_f64. cbv zeta.
  rewrite (@f64_add_Z fin s) by lia. rewrite (@f64_sub_Z (fin + s) a) by lia.
  rewrite f64_div_ceiling by lia.
  assert (Hx : inject_Z (fin + s - a) / inject_Z s
               == inject_Z (fin - a) / inject_Z s + 1).
  { replace (fin + s - a)%Z with ((fin - a) + s)%Z by lia.
    rewrite inject_Z_plus. field. Lqa.lra. }
  rewrite (Qceiling_comp _ _ Hx), Qceiling_succ. fold c.
  rewrite (@f64_add_Z a s) by lia. rewrite (@f64_sub_Z (a + s) a) by lia.
  replace (a + s - a)%Z with s by lia.
  apply map_ext_in. intros i Hi. apply in_seq in Hi.
  assert (Hic : (Z.of_nat i <= c)%Z) by lia.
  destruct i as [|[|i]].
  - f_equal. lia.
  - f_equal. lia.
  - rewrite f64_mul_Z by nia. rewrite f64_add_Z by nia. reflexivity.
Qed.

Lemma arange_comp (start stop step start' stop' step' : Q) :
  start == start' -> stop == stop' -> step == step' ->
  map Qred (arange start stop step) = map Qred (arange start' stop' step').
Proof.
  intros H1 H2 H3. unfold arange. rewrite !map_map.
  assert (E : (stop - start) / step == (stop' - start') / step')
    by now rewrite H1, H2, H3.
  rewrite (Qceiling_comp _ _ E).
  apply map_ext. intros i. apply Qred_complete. now rewrite H1, H3.
Qed.

Lemma np_arange_f64_exact (a fin s : Z) :
  (0 < s)%Z -> (a <= fin)%Z -> (- 2 ^ 52 < a)%Z -> (fin + s < 2 ^ 52)%Z ->
  np_arange_f64 (inject_Z a) (f64_add (inject_Z fin) (inject_Z s)) (inject_Z s)
  = map Qred (arange (inject_Z a) (inject_Z fin + inject_Z s) (inject_Z s)).
Proof.
  intros Hs Hle Ha Hfin. rewrite np_arange_f64_Z by assumption.
  assert (Hs0 : 0 < inject_Z s)
    by (replace 0 with (inject_Z 0) by reflexivity; now rewrite <- Zlt_Qlt).
  unfold arange. rewrite map_map.
  assert (Hx : (inject_Z fin + inject_Z s - inject_Z a) / inject_Z s
               == inject_Z (fin - a) / inject_Z s + 1).
  { unfold Z.sub. rewrite inject_Z_plus, inject_Z_opp. field. Lqa.lra. }
  rewrite (Qceiling_comp _ _ Hx), Qceiling_succ.
  apply map_ext. intros i.
  rewrite <- (Qred_inject_Z (a + Z.of_nat i * s)). apply Qred_complete.
  now rewrite inject_Z_plus, inject_Z_mult.
Qed.

(** Line 89 on whole numbers: the grid computed in double precision is
    the exact grid. *)
Lemma varyThickness_f64_Z (cfg : config) (a fin s : Z) :
  varyStart cfg == inject_Z a -> varyFinish cfg == inject_Z fin ->
  varyStep cfg == inject_Z s ->
  (0 < s)%Z -> (a <= fin)%Z -> (- 2 ^ 52 < a)%Z -> (fin + s < 2 ^ 52)%Z ->
  varyThickness_f64 cfg = map Qred (varyThickness cfg) /\
  varyThickness_f64 cfg
  = map (fun i => inject_Z (a + Z.of_nat i * s))
        (seq 0 (Z.to_nat (Qceiling (inject_Z (fin - a) / inject_Z s) + 1))).
Proof.
  intros Ha Hf Hs Hs0 Hle Hlo Hhi.
  assert (E : varyThickness_f64 cfg
              = np_arange_f64 (inject_Z a) (f64_add (inject_Z fin) (inject_Z s))
                              (inject_Z s)).
  { unfold varyThickness_f64.
    rewrite (f64_round_comp Ha), (f64_round_comp Hf), (f64_round_comp Hs).
    rewrite !f64_round_Z by lia. reflexivity. }
  split.
  - rewrite E, np_arange_f64_exact by assumption.
    unfold varyThickness. symmetry. apply arange_comp; [exact Ha | | exact Hs].
    now rewrite Hf, Hs.
  - rewrite E. now apply np_arange_f64_Z.
Qed.

End Binary64Facts.

(** Double precision matters when the parameters are not whole numbers:
    for the range from 0 to 0.2 in steps of 0.1 the double-precision grid
    has four values, the last one beyond 0.3, and the exact grid three. *)
Example decimal_grid_has_four_values :
  let step := f64_round 0.1 in
  let g := np_arange_f64 0 (f64_add (f64_round 0.2) step) step in
  length g = 4 /\ (0.3 < nth 3 g 0)%Q /\ length (arange 0 (0.2 + 0.1) 0.1) = 3.
Proof. vm_compute. repeat split. Qed.

(** *** The sweep *)

(** The script runs to the end on a well-formed configuration; [Jsc] has
    one entry per sweep value, the photocurrent of the thickness list in
    which the varied layer has that value. *)
Lemma run_total (cfg : config) :
  wf_config cfg -> ~ (x_step cfg == 0)%Q ->
  exists Rg t0 st,
    R_glass (n cfg) = Ok Rg /\ length Rg = length (lambdas cfg) /\
    init_state cfg
    = Ok (mkState t0 (map (fun _ => 0%R) (varyThickness cfg)) (lambda_step cfg)
                  (mkFields [] [] [])) /\
    t0 = list_set (thicknesses cfg) 0 0%Q /\
    run cfg = Ok st /\
    length (st_Jsc st) = length (varyThickness cfg) /\
    forall i, i < length (varyThickness cfg) ->
      exists f ls J,
        step_output cfg Rg
          (list_set t0 (layerVaried cfg) (nth i (varyThickness cfg) 0%Q))
        = Ok (f, ls, J) /\
        nth_error (st_Jsc st) i = Some J.
Proof.
  intros Hwf Hx. pose proof Hwf as (Htab & Hact & Hlv & Hne).
  destruct (R_glass_spec Htab) as (HR & HT & Hlen).
  set (Rg := map (fun n0 => (Cmod ((C1 - n0) / (C1 + n0))%C ^ 2)%R) (nth 0 (n cfg) [])) in *.
  assert (HlRg : length Rg = length (lambdas cfg))
    by (unfold Rg; rewrite length_map; exact Hlen).
  set (t0 := list_set (thicknesses cfg) 0 0%Q).
  set (st0 := mkState t0 (map (fun _ => 0%R) (varyThickness cfg)) (lambda_step cfg)
                      (mkFields [] [] [])).
  assert (Hinit : init_state cfg = Ok st0).
  { unfold init_state. rewrite set_item_in_range by lia. reflexivity. }
  destruct (@sweep_upto_total cfg Rg HlRg (length (varyThickness cfg)) st0 Hwf Hx)
    as (st & Hst & _ & HlJ & Hdone & _); try (simpl; lia).
  { unfold st0, t0; simpl. apply length_list_set. }
  { simpl. apply length_map. }
  exists Rg, t0, st. split; [exact HR|]. split; [exact HlRg|].
  split; [exact Hinit|]. split; [reflexivity|]. split; [|split; [exact HlJ | exact Hdone]].
  unfold run. rewrite HT, HR; cbn [bind]. rewrite Hinit; cbn [bind]. exact Hst.
Qed.

(** With a spatial step of zero the first sweep step stops at [np.arange]
    (line 166). *)
Lemma run_zero_x_step (cfg : config) :
  n cfg <> [] -> thicknesses cfg <> [] ->
  layerVaried cfg < length (thicknesses cfg) ->
  varyThickness cfg <> [] -> (x_step cfg == 0)%Q ->
  run cfg = Err ArangeZeroStep.
Proof.
  intros Hn Ht Hlv Hv Hx. unfold run, T_glass, R_glass.
  rewrite (get_in_range (n cfg) [] (i := 0))
    by (destruct (n cfg); [congruence | simpl; lia]).
  cbn [bind]. unfold init_state.
  rewrite set_item_in_range by (destruct (thicknesses cfg); [congruence | simpl; lia]).
  cbn [bind].
  destruct (varyThickness cfg) as [|v vT] eqn:EvT; [congruence|].
  unfold sweep_upto. cbn [length seq foldM]. unfold sweep_body at 1.
  rewrite EvT. cbn [get nth_error bind st_t].
  rewrite set_item_in_range by (rewrite length_list_set; exact Hlv).
  cbn [bind]. unfold step_output.
  rewrite (np_arange_zero _ _ Hx). reflexivity.
Qed.

(** C6, as the code has it.  The sweep steps share mutable state: every
    step writes the thickness list [t] in place at the varied layer and
    rebinds [lambda_step], and the next step starts from the state so
    written.  But no step reads what an earlier step wrote: step [k], run
    in the state that the steps before it left behind, is the step run on
    the thickness list of before the sweep with the varied entry replaced;
    the other entries of [t] are never written, [lambda_step], [R], [T],
    [E] are bound again before they are read, and [Jsc] is only written. *)
Theorem sweep_step_reads_no_earlier_write
    (cfg : config) (Rg : list R) (st0 st : state) (k : nat) :
  layerVaried cfg < length (st_t st0) ->
  sweep_upto cfg Rg k st0 = Ok st ->
  sweep_body cfg Rg st k
  = (v <- get (varyThickness cfg) k ;;
     out <- step_output cfg Rg (list_set (st_t st0) (layerVaried cfg) v) ;;
     let '(f, ls, J) := out in
     Jsc <- set_item (st_Jsc st) k J ;;
     Ok (mkState (list_set (st_t st0) (layerVaried cfg) v) Jsc ls f)) /\
  (forall i, i <> layerVaried cfg -> nth_error (st_t st) i = nth_error (st_t st0) i) /\
  (forall k', k = S k' ->
     st_t st = list_set (st_t st0) (layerVaried cfg) (nth k' (varyThickness cfg) 0%Q) /\
     lambda_step_of (lambdas cfg) = Ok (st_lambda_step st)).
Proof.
  intros Hlv Hsweep.
  destruct (sweep_upto_t _ _ _ _ Hsweep) as (Hlen & Hset & Hnth).
  split; [|split; [exact Hnth|]].
  - unfold sweep_body. destruct (get (varyThickness cfg) k) as [v|e]; [|reflexivity].
    cbn [bind]. rewrite set_item_in_range by lia; cbn [bind].
    rewrite Hset. reflexivity.
  - intros k' ->. exact (sweep_upto_writes _ _ _ _ Hsweep).
Qed.

Lemma varyThickness_divisible (cfg : config) (k : nat) :
  (0 < varyStep cfg)%Q ->
  (varyFinish cfg - varyStart cfg == inject_Z (Z.of_nat k) * varyStep cfg)%Q ->
  length (varyThickness cfg) = k + 1 /\
  Qfloor ((varyFinish cfg - varyStart cfg) / varyStep cfg) = Z.of_nat k.
Proof.
  intros Hstep Hdiv.
  assert (Hnz : ~ (varyStep cfg == 0)%Q).
  { intros E; rewrite E in Hstep; now apply Qlt_irrefl in Hstep. }
  split.
  - unfold varyThickness. rewrite length_arange.
    assert (E : (varyFinish cfg + varyStep cfg - varyStart cfg
                 == inject_Z (Z.of_nat k + 1) * varyStep cfg)%Q).
    { rewrite inject_Z_plus, Qmult_plus_distr_l, <- Hdiv.
      change (inject_Z 1) with 1%Q. ring. }
    rewrite (Qceiling_comp _ (inject_Z (Z.of_nat k + 1))).
    + rewrite Qceiling_Z. lia.
    + rewrite E. apply Qdiv_mult_l, Hnz.
  - rewrite (Qfloor_comp _ (inject_Z (Z.of_nat k))).
    + apply Qfloor_Z.
    + rewrite Hdiv. apply Qdiv_mult_l, Hnz.
Qed.

(** C7, as the code has it.  For a sweep range given in whole numbers
    (below [2^52] in magnitude, so that line 89 computes without rounding),
    whose length [varyFinish - varyStart] is a whole number [k] of positive
    steps, on well-shaped inputs (the index table covers the stack, the
    spectrum has one value per wavelength) with a spatial step that is not
    zero: the grid that line 89
    computes in double precision is the exact grid; the sweep visits
    [varyStart], [varyStart + varyStep], ..., [varyFinish], both end points
    included, and leaves one photocurrent per step in [Jsc], in sweep
    order; the number of values is
    [floor((varyFinish - varyStart)/varyStep) + 1]. *)
Theorem sweep_inclusive_when_step_divides (cfg : config) (a s : Z) (k : nat) :
  wf_config cfg -> length (am15_int_y cfg) = length (lambdas cfg) ->
  ~ (x_step cfg == 0)%Q ->
  (varyStart cfg == inject_Z a)%Q -> (varyStep cfg == inject_Z s)%Q ->
  (varyFinish cfg == inject_Z (a + Z.of_nat k * s))%Q ->
  (0 < s)%Z -> (- 2 ^ 52 < a)%Z -> (a + (Z.of_nat k + 1) * s < 2 ^ 52)%Z ->
  varyThickness_f64 cfg = map Qred (varyThickness cfg) /\
  varyThickness_f64 cfg
  = map (fun i => inject_Z (a + Z.of_nat i * s)) (seq 0 (k + 1)) /\
  (varyStart cfg <= varyFinish cfg)%Q /\
  Z.of_nat (length (varyThickness cfg))
  = (Qfloor ((varyFinish cfg - varyStart cfg) / varyStep cfg) + 1)%Z /\
  (forall i, i <= k ->
     nth_error (varyThickness cfg) i
     = Some (varyStart cfg + inject_Z (Z.of_nat i) * varyStep cfg)%Q) /\
  (nth 0 (varyThickness cfg) 0 == varyStart cfg)%Q /\
  (nth k (varyThickness cfg) 0 == varyFinish cfg)%Q /\
  exists Rg st,
    R_glass (n cfg) = Ok Rg /\ run cfg = Ok st /\
    length (st_Jsc st) = length (varyThickness cfg) /\
    forall i, i < length (varyThickness cfg) ->
      exists f ls J,
        step_output cfg Rg
          (list_set (list_set (thicknesses cfg) 0 0%Q) (layerVaried cfg)
                    (nth i (varyThickness cfg) 0%Q))
        = Ok (f, ls, J) /\
        nth_error (st_Jsc st) i = Some J.
Proof.
  intros Hwf _ Hxs Ha Hs Hfin Hs0 Hlo Hhi.
  assert (Hstep : (0 < varyStep cfg)%Q).
  { rewrite Hs. replace 0%Q with (inject_Z 0) by reflexivity.
    now rewrite <- Zlt_Qlt. }
  assert (Hdiv : (varyFinish cfg - varyStart cfg
                  == inject_Z (Z.of_nat k) * varyStep cfg)%Q).
  { rewrite Hfin, Ha, Hs, inject_Z_plus, inject_Z_mult. ring. }
  destruct (varyThickness_divisible cfg k Hstep Hdiv) as [Hlen Hfloor].
  assert (Hk : (0 <= inject_Z (Z.of_nat k))%Q).
  { replace 0%Q with (inject_Z 0) by reflexivity. rewrite <- Zle_Qle. lia. }
  assert (Hnth : forall i, i <= k ->
     nth_error (varyThickness cfg) i
     = Some (varyStart cfg + inject_Z (Z.of_nat i) * varyStep cfg)%Q).
  { intros i Hi. apply nth_error_arange. fold (varyThickness cfg). lia. }
  destruct (@varyThickness_f64_Z cfg a (a + Z.of_nat k * s) s Ha Hfin Hs Hs0)
    as [Hexact Hvals]; [nia | exact Hlo | nia |].
  split; [exact Hexact|]. split.
  { rewrite Hvals. do 2 f_equal.
    replace (a + Z.of_nat k * s - a)%Z with (Z.of_nat k * s)%Z by lia.
    rewrite (Qceiling_comp _ (inject_Z (Z.of_nat k))).
    - rewrite Qceiling_Z. lia.
    - rewrite inject_Z_mult. apply Qdiv_mult_l.
      intros E. assert (H : (inject_Z s == inject_Z 0)%Q) by exact E.
      rewrite inject_Z_injective in H. lia. }
  split.
  { assert (0 <= inject_Z (Z.of_nat k) * varyStep cfg)%Q
      by (apply Qmult_le_0_compat; [exact Hk | apply Qlt_le_weak, Hstep]).
    Lqa.lra. }
  split; [lia|]. split; [exact Hnth|].
  split; [|split].
  - rewrite (nth_error_nth _ _ _ (Hnth 0 (Nat.le_0_l k))).
    change (inject_Z (Z.of_nat 0)) with 0%Q. ring.
  - rewrite (nth_error_nth _ _ _ (Hnth k (Nat.le_refl k))), <- Hdiv. ring.
  - destruct (run_total Hwf Hxs) as (Rg & t0 & st & HR & _ & _ & Ht0 & Hrun & HlJ & Hdone).
    subst t0. exists Rg, st. auto.
Qed.

Lemma quarter_wave_wf : wf_config quarter_wave_config.
Proof.
  unfold wf_config, wf_table.
  assert (E : lambdas quarter_wave_config = [4%Q]) by (vm_compute; reflexivity).
  rewrite E. simpl. repeat split; try lia; try discriminate.
  repeat constructor.
Qed.

Lemma quarter_wave_x_step : ~ (x_step quarter_wave_config == 0)%Q.
Proof. discriminate. Qed.

Lemma sweep_inclusive_when_step_divides_witness :
  let cfg := quarter_wave_config in
  varyThickness_f64 cfg = map Qred (varyThickness cfg) /\
  Z.of_nat (length (varyThickness cfg))
  = (Qfloor ((varyFinish cfg - varyStart cfg) / varyStep cfg) + 1)%Z /\
  (nth 1 (varyThickness cfg) 0 == varyFinish cfg)%Q /\
  exists st, run cfg = Ok st /\ length (st_Jsc st) = length (varyThickness cfg).
Proof.
  intros cfg.
  destruct (@sweep_inclusive_when_step_divides cfg 0 1 1 quarter_wave_wf
              eq_refl quarter_wave_x_step)
    as (Hf64 & _ & _ & Hlen & _ & _ & Hlast & Rg & st & _ & Hrun & HJ & _);
    try reflexivity.
  split; [exact Hf64|]. split; [exact Hlen|]. split; [exact Hlast|].
  exists st. auto.
Defined.

(** C7, as stated, fails: for the range from 0 to 7 in steps of 5 the sweep
    visits 0, 5 and 10, three values and not [floor(7/5) + 1 = 2], and
    does not visit the end point 7. *)
Lemma sweep_overshoots_uneven_range :
  let cfg := uneven_sweep_config in
  (varyStart cfg <= varyFinish cfg)%Q /\ (0 < varyStep cfg)%Q /\
  varyThickness cfg = [0; 5; 10]%Q /\
  Z.of_nat (length (varyThickness cfg))
  <> (Qfloor ((varyFinish cfg - varyStart cfg) / varyStep cfg) + 1)%Z /\
  ~ (exists v, In v (varyThickness cfg) /\ (v == varyFinish cfg)%Q).
Proof.
  intros cfg.
  assert (E : varyThickness cfg = [0; 5; 10]%Q) by (vm_compute; reflexivity).
  split; [discriminate|]. split; [reflexivity|]. split; [exact E|]. split.
  - rewrite E. vm_compute. discriminate.
  - rewrite E. intros [v [Hin Hv]]. simpl in Hin.
    destruct Hin as [<-|[<-|[<-|[]]]]; vm_compute in Hv; discriminate.
Qed.

(** The script's own range, 0 to 300 nm in steps of 5 nm, has 61 values. *)
Example script_sweep_length (n : list (list C)) (am15 : list R) :
  length (varyThickness (script_config n am15)) = 61.
Proof. reflexivity. Qed.

(** *** A quarter-wave layer: the transmittance depends on the thickness *)

Ltac cplx_unfold :=
  unfold Cdiv, Cinv, Cnorm2, Cmul, Cadd, Csub, Copp, C1, C0, Ci, RtoC, Re, Im;
  simpl fst; simpl snd.

Section QuarterWave.

Local Open Scope R_scope.

Lemma I_mat_2_1 :
  I_mat (RtoC 2) (RtoC 1) = mkM2 (RtoC (3/4)) (RtoC (1/4)) (RtoC (1/4)) (RtoC (3/4)).
Proof.
  unfold I_mat, Mdiv; cbn [m00 m01 m10 m11].
  f_equal; apply C_eq; cplx_unfold; field.
Qed.

Lemma I_mat_1_2 :
  I_mat (RtoC 1) (RtoC 2)
  = mkM2 (RtoC (3/2)) (RtoC (-1/2)) (RtoC (-1/2)) (RtoC (3/2)).
Proof.
  unfold I_mat, Mdiv; cbn [m00 m01 m10 m11].
  f_equal; apply C_eq; cplx_unfold; field.
Qed.

(** A layer of index 1 and thickness 1 at wavelength 4 has the phase
    [pi/2]: the propagation matrix is [diag(-i, i)]. *)
Lemma L_mat_quarter : L_mat (RtoC 1) 1 4 = mkM2 (0, -1) C0 C0 (0, 1).
Proof.
  unfold L_mat.
  assert (Hxi : ((RtoC (2 * PI * 1) * RtoC 1) / RtoC 4)%C = (PI / 2, 0)).
  { apply C_eq; cplx_unfold; field. }
  rewrite Hxi. f_equal.
  - unfold Cexp, py_complex; cplx_unfold.
    replace (0 - (-1 * 0 + 0 * (PI / 2))) with 0 by ring.
    replace (0 + (-1 * (PI / 2) - 0 * 0)) with (- (PI / 2)) by ring.
    rewrite exp_0, cos_neg, sin_neg, cos_PI2, sin_PI2. f_equal; ring.
  - unfold Cexp, py_complex; cplx_unfold.
    replace (0 - 0) with 0 by ring.
    replace (0 + PI / 2) with (PI / 2) by ring.
    rewrite exp_0, cos_PI2, sin_PI2. f_equal; ring.
Qed.

Lemma R_of_quarter_wave_0 :
  R_of (n quarter_wave_config) [0; 0; 0]%Q [4%Q] 0 = 0.
Proof.
  unfold R_of. cbn [length Nat.sub S_chain]. unfold idx, thick.
  cbn [n quarter_wave_config nth Nat.add].
  replace (Q2R 0) with 0 by (unfold Q2R; simpl; lra).
  replace (Q2R 4) with 4 by (unfold Q2R; simpl; lra).
  rewrite L_mat_zero_thickness by lra.
  rewrite I_mat_2_1, I_mat_1_2.
  unfold reflectance. rewrite Cmod_sqr.
  unfold Mmul, eye2; cbn [m00 m01 m10 m11]. cplx_unfold. field.
Qed.

Lemma R_of_quarter_wave_1 :
  R_of (n quarter_wave_config) [0; 1; 0]%Q [4%Q] 0 = 9/25.
Proof.
  unfold R_of. cbn [length Nat.sub S_chain]. unfold idx, thick.
  cbn [n quarter_wave_config nth Nat.add].
  replace (Q2R 1) with 1 by (unfold Q2R; simpl; lra).
  replace (Q2R 4) with 4 by (unfold Q2R; simpl; lra).
  rewrite I_mat_2_1, I_mat_1_2, L_mat_quarter.
  unfold reflectance. rewrite Cmod_sqr.
  unfold Mmul; cbn [m00 m01 m10 m11]. cplx_unfold. field.
Qed.

Lemma R_glass_quarter_wave : R_glass (n quarter_wave_config) = Ok [1/9].
Proof.
  unfold R_glass. cbn [n quarter_wave_config get nth_error bind map].
  rewrite Cmod_sqr. do 2 f_equal. cplx_unfold. field.
Qed.

Lemma T_of_quarter_wave_neq :
  T_of (n quarter_wave_config) [0; 0; 0]%Q [4%Q] [1/9] 0
  <> T_of (n quarter_wave_config) [0; 1; 0]%Q [4%Q] [1/9] 0.
Proof.
  unfold T_of. rewrite R_of_quarter_wave_0, R_of_quarter_wave_1.
  unfold transmittance, idx. cbn [n quarter_wave_config nth].
  replace (1 - 1 / 9 * 0) with 1 by lra.
  replace (1 - 1 / 9 * (9 / 25)) with (24 / 25) by lra.
  rewrite sqrt_1.
  set (a := Cmod (RtoC 2 / (C1 + RtoC 2))%C).
  assert (Ha : 0 < a).
  { assert (Hn : Cnorm2 (RtoC 2 / (C1 + RtoC 2))%C = 4 / 9) by (cplx_unfold; field).
    unfold a, Cmod. rewrite Hn. apply sqrt_lt_R0. lra. }
  assert (Hs : 0 < sqrt (24 / 25)) by (apply sqrt_lt_R0; lra).
  assert (Hss : sqrt (24 / 25) * sqrt (24 / 25) = 24 / 25) by (apply sqrt_sqrt; lra).
  intros E.
  assert (Hm : a * sqrt (24 / 25) = a).
  { apply (f_equal (fun x => x * sqrt (24 / 25))) in E.
    replace (a / sqrt (24 / 25) * sqrt (24 / 25)) with a in E by (field; lra).
    lra. }
  nra.
Qed.

Lemma quarter_wave_grids :
  lambdas quarter_wave_config = [4%Q] /\
  varyThickness quarter_wave_config = [0; 1]%Q.
Proof. split; vm_compute; reflexivity. Qed.

(** The system matrix of the quarter-wave stack. *)
Lemma S_chain_quarter_wave :
  S_chain (n quarter_wave_config) [0; 1; 0]%Q 4 0 1
  = mkM2 (0, -5/4) (0, 3/4) (0, -3/4) (0, 5/4).
Proof.
  cbn [S_chain]. unfold idx, thick.
  cbn [n quarter_wave_config nth Nat.add].
  replace (Q2R 1) with 1 by (unfold Q2R; simpl; lra).
  replace (Q2R 4) with 4 by (unfold Q2R; simpl; lra).
  rewrite I_mat_2_1, I_mat_1_2, L_mat_quarter.
  unfold Mmul; cbn [m00 m01 m10 m11].
  f_equal; apply C_eq; cplx_unfold; field.
Qed.

Lemma Cexp_quarter_turn (s : R) :
  Cexp (py_complex C0 (RtoC s) * ((RtoC (2 * PI) * RtoC 1) / RtoC 4) * RtoC 1)%C
  = (cos (s * (PI / 2)), sin (s * (PI / 2))).
Proof.
  assert (E : (py_complex C0 (RtoC s) * ((RtoC (2 * PI) * RtoC 1) / RtoC 4) * RtoC 1)%C
              = (0, s * (PI / 2))).
  { apply C_eq; unfold py_complex; cplx_unfold; field. }
  rewrite E. unfold Cexp; cplx_unfold. rewrite exp_0. f_equal; ring.
Qed.

(** No division of the quarter-wave step has a zero divisor. *)
Lemma quarter_wave_regular :
  regular_step (n quarter_wave_config) [4%Q] [1/9] [0; 1; 0]%Q.
Proof.
  intros ind Hind l. simpl in Hind.
  assert (ind = 0%nat) by lia. subst ind. subst l. cbn [nth].
  assert (Hne : forall x : R, x <> 0 -> RtoC x <> C0).
  { intros x Hx E. apply (f_equal Re) in E. simpl in E. contradiction. }
  split; [discriminate|]. split; [|split; [|split; [|split]]].
  - intros m Hm. assert (Hm' : (m = 0 \/ m = 1)%nat) by (simpl in Hm; lia).
    destruct Hm' as [-> | ->]; unfold idx; cbn [n quarter_wave_config nth Nat.add];
      split; try (apply Hne; lra);
      intros E; apply (f_equal Re) in E; simpl in E; lra.
  - unfold idx; cbn [n quarter_wave_config nth].
    intros E; apply (f_equal Re) in E; simpl in E; lra.
  - cbn [length Nat.sub]. rewrite S_chain_quarter_wave. cbn [m00].
    intros E; apply (f_equal Im) in E; simpl in E; lra.
  - cbn [nth]. rewrite R_of_quarter_wave_1. lra.
  - intros m Hm. assert (Hm' : (m = 1 \/ m = 2)%nat) by (simpl in Hm; lia).
    destruct Hm' as [-> | ->]; cbn [length Nat.sub].
    + unfold E_den. cbn [S_chain Sd_chain Nat.add]. unfold idx, thick.
      cbn [n quarter_wave_config nth].
      replace (Q2R 0) with 0 by (unfold Q2R; simpl; lra).
      replace (Q2R 1) with 1 by (unfold Q2R; simpl; lra).
      replace (Q2R 4) with 4 by (unfold Q2R; simpl; lra).
      rewrite L_mat_zero_thickness by lra.
      rewrite I_mat_2_1, I_mat_1_2, !Cexp_quarter_turn.
      replace (-1.0 * (PI / 2)) with (- (PI / 2)) by lra.
      replace (1 * (PI / 2)) with (PI / 2) by lra.
      rewrite cos_neg, sin_neg, cos_PI2, sin_PI2.
      unfold Mmul, eye2; cbn [m00 m01 m10 m11].
      intros E; apply (f_equal Im) in E; revert E; cplx_unfold; lra.
    + unfold E_den. rewrite S_chain_quarter_wave. cbn [Sd_chain]. unfold idx, thick.
      cbn [n quarter_wave_config nth].
      replace (Q2R 0) with 0 by (unfold Q2R; simpl; lra).
      assert (Ez : forall a b : C, (a * b * RtoC 0)%C = C0)
        by (intros; apply C_eq; cplx_unfold; ring).
      rewrite !Ez, Cexp_0. unfold eye2; cbn [m00 m01 m10 m11].
      intros E; apply (f_equal Im) in E; revert E; cplx_unfold; lra.
Qed.

End QuarterWave.

(** C4, as stated, fails: in the quarter-wave configuration the
    transmittance array left by the first sweep step (thickness 0) differs
    from the one left by the second (thickness 1). *)
Lemma T_varies_with_swept_thickness :
  let cfg := quarter_wave_config in
  exists Rg st0 s1 s2,
    R_glass (n cfg) = Ok Rg /\ init_state cfg = Ok st0 /\
    sweep_upto cfg Rg 1 st0 = Ok s1 /\ sweep_upto cfg Rg 2 st0 = Ok s2 /\
    T_arr (st_fields s1) <> T_arr (st_fields s2).
Proof.
  intros cfg. destruct quarter_wave_grids as [Elam EvT].
  set (st0 := mkState [0; 0; 0]%Q [0; 0]%R 1%Q (mkFields [] [] [])).
  assert (HlRg : length [(1/9)%R] = length (lambdas cfg)) by (unfold cfg; now rewrite Elam).
  assert (Ht : length (st_t st0) = length (thicknesses cfg)) by reflexivity.
  assert (HJ : length (st_Jsc st0) = length (varyThickness cfg))
    by (unfold cfg; now rewrite EvT).
  assert (Hlen : length (varyThickness cfg) = 2) by (unfold cfg; now rewrite EvT).
  destruct (@sweep_upto_total cfg _ HlRg 1 st0 quarter_wave_wf quarter_wave_x_step Ht HJ)
    as (s1 & Hs1 & _); [lia|].
  destruct (@sweep_upto_total cfg _ HlRg 2 st0 quarter_wave_wf quarter_wave_x_step Ht HJ)
    as (s2 & Hs2 & _); [lia|].
  exists [(1/9)%R], st0, s1, s2.
  split; [exact R_glass_quarter_wave|].
  split; [unfold init_state, cfg; rewrite EvT; reflexivity|].
  split; [exact Hs1|]. split; [exact Hs2|].
  rewrite (@sweep_T_arr cfg _ st0 s1 0 quarter_wave_wf HlRg Ht HJ) by (lia || exact Hs1).
  rewrite (@sweep_T_arr cfg _ st0 s2 1 quarter_wave_wf HlRg Ht HJ) by (lia || exact Hs2).
  unfold cfg. rewrite Elam, EvT.
  change (~ [T_of (n quarter_wave_config) [0; 0; 0]%Q [4%Q] [(1/9)%R] 0]
          = [T_of (n quarter_wave_config) [0; 1; 0]%Q [4%Q] [(1/9)%R] 0]).
  intros E. inversion E as [E']. exact (T_of_quarter_wave_neq E').
Qed.

Lemma T_recomputed_from_step_reflectance_witness :
  let cfg := quarter_wave_config in
  let st0 := mkState [0; 0; 0]%Q [0; 0]%R 1%Q (mkFields [] [] []) in
  exists st,
    sweep_upto cfg [(1/9)%R] 1 st0 = Ok st /\
    T_arr (st_fields st)
    = map (fun ind =>
             (Cmod (RtoC 2 / (C1 + idx (n cfg) 0 ind))%C
              / sqrt (1 - nth ind [(1/9)%R] 0
                          * R_of (n cfg)
                                 (list_set (st_t st0) (layerVaried cfg)
                                           (nth 0 (varyThickness cfg) 0%Q))
                                 (lambdas cfg) ind))%R)
          (seq 0 (length (lambdas cfg))).
Proof.
  intros cfg st0. destruct quarter_wave_grids as [Elam EvT].
  assert (HlRg : length [(1/9)%R] = length (lambdas cfg)) by (unfold cfg; now rewrite Elam).
  assert (Ht : length (st_t st0) = length (thicknesses cfg)) by reflexivity.
  assert (HJ : length (st_Jsc st0) = length (varyThickness cfg))
    by (unfold cfg; now rewrite EvT).
  assert (Hk : 0 < length (varyThickness cfg)) by (unfold cfg; rewrite EvT; simpl; lia).
  destruct (@sweep_upto_total cfg _ HlRg 1 st0 quarter_wave_wf quarter_wave_x_step Ht HJ)
    as (st & Hst & _); [lia|].
  exists st. split; [exact Hst|].
  exact (proj1 (@T_recomputed_from_step_reflectance cfg _ st0 st 0 quarter_wave_wf
                  R_glass_quarter_wave Ht HJ Hk Hst)).
Defined.

Lemma sweep_step_reads_no_earlier_write_witness :
  let cfg := quarter_wave_config in
  let Rg := [(1/9)%R] in
  let st0 := mkState [0; 0; 0]%Q [0; 0]%R 1%Q (mkFields [] [] []) in
  exists st,
    sweep_upto cfg Rg 1 st0 = Ok st /\
    sweep_body cfg Rg st 1
    = (v <- get (varyThickness cfg) 1 ;;
       out <- step_output cfg Rg (list_set (st_t st0) (layerVaried cfg) v) ;;
       let '(f, ls, J) := out in
       Jsc <- set_item (st_Jsc st) 1 J ;;
       Ok (mkState (list_set (st_t st0) (layerVaried cfg) v) Jsc ls f)).
Proof.
  intros cfg Rg st0. destruct quarter_wave_grids as [Elam EvT].
  assert (HlRg : length Rg = length (lambdas cfg)) by (unfold cfg; now rewrite Elam).
  assert (Ht : length (st_t st0) = length (thicknesses cfg)) by reflexivity.
  assert (HJ : length (st_Jsc st0) = length (varyThickness cfg))
    by (unfold cfg; now rewrite EvT).
  assert (Hlv : layerVaried cfg < length (st_t st0)) by (simpl; lia).
  destruct (@sweep_upto_total cfg Rg HlRg 1 st0 quarter_wave_wf quarter_wave_x_step Ht HJ)
    as (st & Hst & _); [unfold cfg; rewrite EvT; simpl; lia|].
  exists st. split; [exact Hst|].
  exact (proj1 (@sweep_step_reads_no_earlier_write cfg Rg st0 st 1 Hlv Hst)).
Defined.

(** C6, as stated, fails: the sweep steps do share mutable state.  In the
    quarter-wave stack configured with thickness 7 for the varied layer and
    wavelength step 3, the first sweep step overwrites the thickness list
    [[0, 7, 0]] with [[0, 0, 0]] and the wavelength step 3 with the
    recomputed step 1, and the second step starts from the state so
    written. *)
Lemma sweep_steps_share_written_state :
  let cfg := rebinding_config in
  exists Rg st0 s1,
    R_glass (n cfg) = Ok Rg /\ init_state cfg = Ok st0 /\
    sweep_upto cfg Rg 1 st0 = Ok s1 /\
    st_t st0 = [0; 7; 0]%Q /\ st_t s1 = [0; 0; 0]%Q /\
    st_lambda_step st0 = 3%Q /\ st_lambda_step s1 = 1%Q /\
    sweep_upto cfg Rg 2 st0 = sweep_body cfg Rg s1 1.
Proof.
  intros cfg.
  assert (Elam : lambdas cfg = [4%Q]) by (vm_compute; reflexivity).
  assert (EvT : varyThickness cfg = [0; 1]%Q) by (vm_compute; reflexivity).
  assert (Hwf : wf_config cfg).
  { unfold wf_config, wf_table. rewrite Elam. simpl.
    repeat split; try lia; try discriminate. repeat constructor. }
  assert (Hx : ~ (x_step cfg == 0)%Q) by discriminate.
  set (st0 := mkState [0; 7; 0]%Q [0; 0]%R 3%Q (mkFields [] [] [])).
  assert (HlRg : length [(1/9)%R] = length (lambdas cfg)) by now rewrite Elam.
  destruct (@sweep_upto_total cfg _ HlRg 1 st0 Hwf Hx) as (s1 & Hs1 & _);
    [reflexivity | now rewrite EvT | rewrite EvT; simpl; lia |].
  destruct (sweep_upto_writes _ _ _ _ Hs1) as [Ht Hls].
  exists [(1/9)%R], st0, s1.
  split; [exact R_glass_quarter_wave|].
  split; [unfold init_state; rewrite EvT; reflexivity|].
  split; [exact Hs1|]. split; [reflexivity|].
  split; [rewrite Ht, EvT; reflexivity|]. split; [reflexivity|].
  split.
  - rewrite Elam in Hls. cbn in Hls. now inversion Hls.
  - rewrite sweep_upto_S, Hs1. reflexivity.
Qed.

(** *** Position-to-layer mapping *)

Section LayerOf.

Local Open Scope Q_scope.

Lemma Qgtb_lt (x c : Q) : Qgtb x c = true <-> c < x.
Proof.
  unfold Qgtb. rewrite negb_true_iff. split.
  - intros H. apply Qnot_le_lt. intros Hle. apply Qle_bool_iff in Hle. congruence.
  - intros H. destruct (Qle_bool x c) eqn:E; [|reflexivity].
    apply Qle_bool_iff in E. now apply Qlt_not_le in H.
Qed.

Lemma cumsum_from_sorted (acc : Q) (t : list Q) :
  (forall d, In d t -> 0 <= d) ->
  StronglySorted Qle (cumsum_from acc t) /\ Forall (Qle acc) (cumsum_from acc t).
Proof.
  revert acc; induction t as [|d t IH]; intros acc Hpos; simpl.
  - split; constructor.
  - assert (Hd : 0 <= d) by (apply Hpos; now left).
    destruct (IH (acc + d) (fun d' H => Hpos d' (or_intror H))) as [Hs Hall].
    split.
    + constructor; assumption.
    + constructor; [Lqa.lra|].
      eapply Forall_impl; [|exact Hall]. intros c Hc. simpl in Hc. Lqa.lra.
Qed.

Lemma cumsum_from_last (acc d : Q) (l : list Q) :
  nth (length l) (cumsum_from acc (d :: l)) 0 = fold_left Qplus (d :: l) acc.
Proof.
  revert acc d; induction l as [|d' l IH]; intros acc d; [reflexivity|].
  simpl length. simpl fold_left.
  change (cumsum_from acc (d :: d' :: l))
    with ((acc + d) :: cumsum_from (acc + d) (d' :: l)).
  cbn [nth]. rewrite IH. reflexivity.
Qed.

Lemma cumsum_from_step (acc : Q) (t : list Q) (i : nat) :
  (S i < length t)%nat ->
  nth (S i) (cumsum_from acc t) 0 == nth i (cumsum_from acc t) 0 + nth (S i) t 0.
Proof.
  revert acc i; induction t as [|d t IH]; intros acc i Hi; simpl in Hi; [lia|].
  destruct t as [|d' t']; simpl in Hi; [lia|].
  destruct i as [|i].
  - simpl. reflexivity.
  - change (nth (S (S i)) (cumsum_from acc (d :: d' :: t')) 0)
      with (nth (S i) (cumsum_from (acc + d) (d' :: t')) 0).
    change (nth (S i) (cumsum_from acc (d :: d' :: t')) 0)
      with (nth i (cumsum_from (acc + d) (d' :: t')) 0).
    change (nth (S (S i)) (d :: d' :: t') 0) with (nth (S i) (d' :: t') 0).
    apply IH. simpl; lia.
Qed.

Lemma layer_of_le_length (tc : list Q) (x : Q) : (layer_of tc x <= length tc)%nat.
Proof. unfold layer_of. apply filter_length_le. Qed.

Lemma layer_of_none_exceeded (tc : list Q) (x : Q) :
  (forall y, In y tc -> x <= y) -> layer_of tc x = 0%nat.
Proof.
  induction tc as [|c tc IH]; intros Hall; [reflexivity|].
  rewrite layer_of_cons, IH by (intros y Hy; apply Hall; now right).
  destruct (Qgtb x c) eqn:E; [|reflexivity].
  apply Qgtb_lt in E. pose proof (Hall c (or_introl eq_refl)). Lqa.lra.
Qed.

(** In a non-decreasing list of cumulative sums, the sums that a position
    exceeds are exactly those of the layers before its layer. *)
Lemma layer_of_exceeded (tc : list Q) (x : Q) :
  StronglySorted Qle tc ->
  forall i, (i < length tc)%nat -> (nth i tc 0 < x <-> (i < layer_of tc x)%nat).
Proof.
  induction 1 as [|c tc Hs IH Hall]; intros i Hi; [simpl in Hi; lia|].
  rewrite layer_of_cons. rewrite Forall_forall in Hall.
  destruct (Qgtb x c) eqn:E.
  - apply Qgtb_lt in E. destruct i as [|i]; simpl nth.
    + split; [lia | auto].
    + rewrite IH by (simpl in Hi; lia). lia.
  - assert (Hxc : x <= c).
    { apply Qnot_lt_le. intros Hlt. apply Qgtb_lt in Hlt. congruence. }
    rewrite layer_of_none_exceeded.
    + split; [|lia]. intros Hlt. exfalso.
      destruct i as [|i]; simpl nth in Hlt; [Lqa.lra|].
      assert (c <= nth i tc 0) by (apply Hall, nth_In; simpl in Hi; lia).
      Lqa.lra.
    + intros y Hy. pose proof (Hall y Hy). Lqa.lra.
Qed.

Lemma sorted_nth_le (l : list Q) :
  StronglySorted Qle l ->
  forall i j, (i <= j)%nat -> (j < length l)%nat -> nth i l 0 <= nth j l 0.
Proof.
  induction 1 as [|c l Hs IH Hall]; intros i j Hij Hj; [simpl in Hj; lia|].
  rewrite Forall_forall in Hall.
  destruct i as [|i], j as [|j]; simpl nth; simpl in Hj; try lia.
  - apply Qle_refl.
  - apply Hall, nth_In. lia.
  - apply IH; lia.
Qed.

(** C8, as the code has it.  The mapping of lines 168-172 counts, for
    every sample position, the cumulative sums below it.  For cumulative
    sums that do not decrease (thicknesses not negative) and whatever the
    sample positions are, every position [x] gets exactly one index [m]:
    the cumulative sums below [x] are exactly those of the layers before
    [m].  The index is a layer, the only one whose interval
    [(t_cumsum[m-1], t_cumsum[m]]] contains [x], exactly when [x] is not
    beyond the last cumulative sum; beyond it the index is [len(t)], which
    is no layer.  A position exactly on the boundary [t_cumsum[i]] is not
    above that sum: it is assigned to the first layer whose cumulative sum
    reaches it, which is layer [i], the layer that ends at the boundary,
    when layer [i] is not empty. *)
Theorem x_mat_assigns_one_layer (t t_cumsum x_pos : list Q) :
  length t_cumsum = length t ->
  StronglySorted Qle t_cumsum ->
  let x_mat := x_mat_of t x_pos t_cumsum in
  length x_mat = length x_pos /\
  forall j x, nth_error x_pos j = Some x ->
    exists m,
      nth_error x_mat j = Some m /\ (m <= length t)%nat /\
      (forall i, (i < length t)%nat -> (nth i t_cumsum 0 < x <-> (i < m)%nat)) /\
      ((m < length t)%nat <->
       (0 < length t)%nat /\ x <= nth (length t - 1) t_cumsum 0) /\
      (forall m', (m' < length t)%nat ->
         (forall i, (i < m')%nat -> nth i t_cumsum 0 < x) ->
         x <= nth m' t_cumsum 0 -> m' = m) /\
      (forall i, (i < length t)%nat -> x == nth i t_cumsum 0 ->
         (m <= i)%nat /\ nth m t_cumsum 0 == x /\
         (i = 0%nat \/ nth (i - 1) t_cumsum 0 < nth i t_cumsum 0 -> m = i)).
Proof.
  intros Hlc Hsorted x_mat.
  split; [unfold x_mat; rewrite x_mat_of_layer by exact Hlc; apply length_map|].
  intros j x Hx.
  pose proof (layer_of_exceeded x Hsorted) as Hiff. rewrite Hlc in Hiff.
  pose proof (layer_of_le_length t_cumsum x) as Hle. rewrite Hlc in Hle.
  set (m := layer_of t_cumsum x) in *.
  exists m. split; [|split; [exact Hle|split; [exact Hiff|split; [|split]]]].
  - unfold x_mat. rewrite x_mat_of_layer by exact Hlc.
    now apply map_nth_error.
  - split.
    + intros Hm. split; [lia|].
      apply Qnot_lt_le. intros H. apply (Hiff (length t - 1)%nat) in H; lia.
    + intros [Hpos Hlast].
      destruct (lt_dec m (length t)) as [H|H]; [exact H|].
      assert (Hlt : (length t - 1 < m)%nat) by lia.
      apply (Hiff (length t - 1)%nat) in Hlt; [|lia]. Lqa.lra.
  - intros m' Hm' Hbefore Hxle.
    destruct (lt_eq_lt_dec m' m) as [[Hlt|Heq]|Hgt]; [|exact Heq|].
    + apply (Hiff m' Hm') in Hlt. Lqa.lra.
    + pose proof (Hbefore m Hgt) as Hex. apply (Hiff m) in Hex; lia.
  - intros i Hi Heq.
    assert (Hmi : (m <= i)%nat).
    { destruct (le_lt_dec m i) as [H|H]; [exact H|].
      apply (Hiff i Hi) in H. Lqa.lra. }
    assert (Hm : (m < length t)%nat) by lia.
    assert (Hxm : x <= nth m t_cumsum 0).
    { apply Qnot_lt_le. intros H. apply (Hiff m Hm) in H. lia. }
    assert (Hmle : nth m t_cumsum 0 <= nth i t_cumsum 0)
      by (apply sorted_nth_le; [exact Hsorted | exact Hmi | lia]).
    split; [exact Hmi|]. split; [Lqa.lra|].
    intros Hti. destruct (Nat.eq_dec m i) as [E|E]; [exact E|].
    destruct Hti as [->|Hti]; [lia|].
    assert (Hmi' : nth m t_cumsum 0 <= nth (i - 1) t_cumsum 0)
      by (apply sorted_nth_le; [exact Hsorted | lia | lia]).
    Lqa.lra.
Qed.

Lemma x_mat_assigns_one_layer_witness :
  let t := [0; 10; 5]%Q in
  let x_pos := x_pos_of 5 t in
  let x_mat := x_mat_of t x_pos (cumsum t) in
  length x_mat = length x_pos /\
  exists m,
    nth_error x_mat 1 = Some m /\ (m < 3)%nat /\
    (forall i, (i < 3)%nat -> (nth i (cumsum t) 0 < 150 # 20 <-> (i < m)%nat)).
Proof.
  intros t x_pos x_mat.
  assert (Hpos : forall d, In d t -> 0 <= d).
  { intros d [<-|[<-|[<-|[]]]]; discriminate. }
  destruct (cumsum_from_sorted 0 t Hpos) as [Hsorted _].
  destruct (@x_mat_assigns_one_layer t (cumsum t) x_pos (length_cumsum t) Hsorted)
    as [Hlen Hall].
  split; [exact Hlen|].
  destruct (Hall 1%nat (150 # 20)) as (m & Hm & _ & Hiff & Hlay & _).
  - vm_compute. reflexivity.
  - exists m. split; [exact Hm|]. split; [|exact Hiff].
    apply Hlay. split; [simpl; lia | vm_compute; discriminate].
Defined.

(** C8, as stated, fails at a boundary.  In the stack [t = [0, 10, 10]]
    sampled every 4 nm the third position is 10, the boundary between
    layers 1 and 2.  The first cumulative sum that the position exceeds is
    that of layer 0, and the first cumulative sum that exceeds the position
    is that of layer 2; the position is assigned to neither, but to
    layer 1. *)
Lemma boundary_position_in_ending_layer :
  let t := [0; 10; 10]%Q in
  let t_cumsum := cumsum t in
  let x_pos := x_pos_of 4 t in
  let x := nth 2 x_pos 0 in
  x == 10 /\ x == nth 1 t_cumsum 0 /\
  nth_error (x_mat_of t x_pos t_cumsum) 2 = Some 1%nat /\
  nth 0 t_cumsum 0 < x /\
  ~ x < nth 1 t_cumsum 0 /\ x < nth 2 t_cumsum 0.
Proof.
  vm_compute. repeat split; try reflexivity; discriminate.
Qed.

(** The rule at a boundary, evaluated: with [t = [0, 10, 5]] a position at
    10, on the boundary between layers 1 and 2, belongs to layer 1. *)
Example layer_of_on_boundary : layer_of (cumsum [0; 10; 5]) 10 = 1%nat.
Proof. reflexivity. Qed.

(** Double precision moves positions across boundaries: for
    [t = [0, 0.15, 0.1]] sampled every 0.1 the second position is the
    double above 0.15 and lies in layer 2, where the exact position 0.15
    lies in layer 1.  The theorem above covers both lists of positions. *)
Example decimal_positions_change_layer :
  let t := map f64_round [0; 0.15; 0.1] in
  let x_step := f64_round 0.1 in
  x_mat_of t (x_pos_f64 x_step t) (cumsum_f64 t) = [1; 2]%nat /\
  x_mat_of [0; 0.15; 0.1] (x_pos_of 0.1 [0; 0.15; 0.1]) (cumsum [0; 0.15; 0.1])
  = [1; 1]%nat.
Proof. split; vm_compute; reflexivity. Qed.

End LayerOf.

(** *** The discretisation in double precision, on whole numbers *)

Section WholeNumbers.

Local Open Scope Q_scope.

(** Halves of whole numbers below [2^53] are doubles. *)
Lemma f64_round_half (z : Z) :
  (Z.abs z < 2 ^ 53)%Z -> f64_round (inject_Z z / 2) = Qred (inject_Z z / 2).
Proof.
  intros Hz. unfold f64_round.
  set (y := Qred (inject_Z z / 2)).
  assert (Ey : y == inject_Z z / 2) by apply Qred_correct.
  destruct (Qeq_bool y 0) eqn:E.
  { apply Qeq_bool_iff in E. unfold y.
    rewrite (@Qred_complete (inject_Z z / 2) 0); [reflexivity|].
    now rewrite <- Ey. }
  assert (Hy0 : ~ y == 0).
  { intros H. apply Qeq_bool_iff in H. congruence. }
  destruct (Qilog2_spec Hy0) as [HL _].
  set (L := Qilog2 y) in *.
  assert (Habs : Qabs y == inject_Z (Z.abs z) / 2).
  { rewrite Ey. unfold Qdiv. rewrite Qabs_Qmult. reflexivity. }
  assert (HL51 : (L <= 51)%Z).
  { destruct (Z.le_gt_cases L 51) as [H|H]; [exact H|].
    pose proof (@Qpow2_le 52 L ltac:(lia)) as H52.
    assert (E52 : Qpow2 52 == inject_Z (2 ^ 52)) by reflexivity.
    assert (Hlt : inject_Z (Z.abs z) < inject_Z (2 ^ 53)) by now rewrite <- Zlt_Qlt.
    assert (E53 : inject_Z (2 ^ 53) == 2 * inject_Z (2 ^ 52)) by reflexivity.
    rewrite Habs in HL. rewrite E52 in H52.
    assert (Hd : inject_Z (Z.abs z) / 2 < inject_Z (2 ^ 52)).
    { apply Qlt_shift_div_r; [reflexivity|]. Lqa.lra. }
    Lqa.lra. }
  set (e := Z.max (-1074) (L - 52)).
  assert (He : (-1074 <= e <= -1)%Z) by (unfold e; lia).
  pose proof (Qpow2_pos e) as Hpos.
  assert (Hp : Qpow2 e * inject_Z (2 ^ (- e - 1)) == 1 # 2).
  { rewrite <- Qpow2_Z by lia. rewrite <- Qpow2_plus.
    replace (e + (- e - 1))%Z with (-1)%Z by lia. reflexivity. }
  assert (Hq : y / Qpow2 e == inject_Z (z * 2 ^ (- e - 1))).
  { rewrite Ey, inject_Z_mult. apply Qmult_inj_r with (z := Qpow2 e); [Lqa.lra|].
    unfold Qdiv. rewrite <- !Qmult_assoc.
    rewrite (Qmult_comm (/ Qpow2 e)), Qmult_inv_r by Lqa.lra.
    rewrite (Qmult_comm (inject_Z (2 ^ (- e - 1)))), Hp. field. }
  rewrite (round_half_even_comp Hq), round_half_even_Z.
  unfold y. apply Qred_complete.
  rewrite inject_Z_mult, <- Qmult_assoc, (Qmult_comm (inject_Z (2 ^ (- e - 1)))), Hp.
  field.
Qed.

Lemma f64_round_half_eq (x : Q) (z : Z) :
  x == inject_Z z / 2 -> (Z.abs z < 2 ^ 53)%Z -> f64_round x = Qred x.
Proof.
  intros E Hz. rewrite (f64_round_comp E), f64_round_half by exact Hz.
  symmetry. now apply Qred_complete.
Qed.

Lemma f64_round_Z_eq (x : Q) (z : Z) :
  x == inject_Z z -> (Z.abs z < 2 ^ 53)%Z -> f64_round x = inject_Z z.
Proof. intros E Hz. now rewrite (f64_round_comp E), f64_round_Z. Qed.

Lemma Zsum_nonneg (ts : list Z) : Forall (fun d => 0 <= d)%Z ts -> (0 <= Zsum ts)%Z.
Proof. induction 1; simpl; lia. Qed.

(** The builtin [sum] on whole numbers. *)
Lemma pysum_f64_from_Z (ts : list Z) (acc : Z) :
  Forall (fun d => 0 <= d)%Z ts -> (0 <= acc)%Z -> (acc + Zsum ts < 2 ^ 53)%Z ->
  fold_left f64_add (map inject_Z ts) (inject_Z acc) = inject_Z (acc + Zsum ts).
Proof.
  intros Hpos. revert acc. induction Hpos as [|d ts Hd Hpos IH]; intros acc Ha Hb.
  - simpl. f_equal. lia.
  - pose proof (Zsum_nonneg Hpos) as Hs.
    cbn [map fold_left Zsum fold_right] in *. fold (Zsum ts) in *.
    rewrite f64_add_Z by lia. rewrite IH by lia. f_equal. lia.
Qed.

Lemma pysum_from_Z (ts : list Z) (accQ : Q) (acc : Z) :
  accQ == inject_Z acc ->
  fold_left Qplus (map inject_Z ts) accQ == inject_Z (acc + Zsum ts).
Proof.
  revert accQ acc. induction ts as [|d ts IH]; intros accQ acc E.
  - simpl. rewrite E. now rewrite Z.add_0_r.
  - cbn [map fold_left Zsum fold_right]. fold (Zsum ts).
    rewrite (IH _ (acc + d)%Z) by (now rewrite E, inject_Z_plus).
    now rewrite Z.add_assoc.
Qed.

(** [np.cumsum] on whole numbers. *)
Lemma cumsum_f64_from_Z (ts : list Z) (accQ : Q) (acc : Z) :
  accQ == inject_Z acc ->
  Forall (fun d => 0 <= d)%Z ts -> (0 <= acc)%Z -> (acc + Zsum ts < 2 ^ 53)%Z ->
  cumsum_f64_from (inject_Z acc) (map inject_Z ts)
  = map Qred (cumsum_from accQ (map inject_Z ts)).
Proof.
  intros E Hpos. revert accQ acc E.
  induction Hpos as [|d ts Hd Hpos IH]; intros accQ acc E Ha Hb; [reflexivity|].
  pose proof (Zsum_nonneg Hpos) as Hs.
  cbn [map cumsum_f64_from cumsum_from Zsum fold_right] in *. fold (Zsum ts) in *.
  rewrite f64_add_Z by lia.
  assert (E' : accQ + inject_Z d == inject_Z (acc + d)) by now rewrite E, inject_Z_plus.
  f_equal.
  - rewrite (Qred_complete _ _ E'). symmetry. apply Qred_inject_Z.
  - apply IH; [exact E' | lia | lia].
Qed.

(** The sample positions on whole numbers: the grid computed in double
    precision is the exact grid. *)
Lemma np_arange_f64_half (xs tot : Z) :
  (0 < xs)%Z -> (0 <= tot)%Z -> (tot + xs < 2 ^ 52)%Z ->
  np_arange_f64 (Qred (inject_Z xs / 2)) (inject_Z tot) (inject_Z xs)
  = map Qred (arange (inject_Z xs / 2) (inject_Z tot) (inject_Z xs)).
Proof.
  intros Hxs HS Hb.
  assert (Hx0 : 0 < inject_Z xs)
    by (replace 0 with (inject_Z 0) by reflexivity; now rewrite <- Zlt_Qlt).
  assert (Hh : Qred (inject_Z xs / 2) == inject_Z xs / 2) by apply Qred_correct.
  unfold np_arange_f64, arange. cbv zeta. rewrite map_map.
  (* the length *)
  assert (Esub : f64_sub (inject_Z tot) (Qred (inject_Z xs / 2))
                 = Qred (inject_Z tot - Qred (inject_Z xs / 2))).
  { unfold f64_sub. apply f64_round_half_eq with (z := (2 * tot - xs)%Z); [|lia].
    rewrite Hh. unfold Z.sub. rewrite inject_Z_plus, inject_Z_mult, inject_Z_opp.
    change (inject_Z 2) with 2. field. }
  assert (Eq : inject_Z (2 * tot - xs) / inject_Z (2 * xs)
               == (inject_Z tot - inject_Z xs / 2) / inject_Z xs).
  { unfold Z.sub. rewrite inject_Z_plus, !inject_Z_mult, inject_Z_opp.
    change (inject_Z 2) with 2. field. Lqa.lra. }
  assert (Elen : Qceiling (f64_div (f64_sub (inject_Z tot) (Qred (inject_Z xs / 2)))
                                   (inject_Z xs))
                 = Qceiling ((inject_Z tot - inject_Z xs / 2) / inject_Z xs)).
  { rewrite Esub. unfold f64_div at 1.
    rewrite (@f64_round_comp _ (inject_Z (2 * tot - xs) / inject_Z (2 * xs)))
      by (rewrite Eq, Qred_correct, Hh; reflexivity).
    fold (f64_div (inject_Z (2 * tot - xs)) (inject_Z (2 * xs))).
    rewrite f64_div_ceiling by lia. now apply Qceiling_comp. }
  rewrite Elen.
  set (c := Qceiling ((inject_Z tot - inject_Z xs / 2) / inject_Z xs)).
  assert (Hc : ((c - 1) * (2 * xs) < 2 * tot - xs)%Z).
  { pose proof (Qceiling_lt ((inject_Z tot - inject_Z xs / 2) / inject_Z xs)) as Hlt.
    fold c in Hlt. rewrite <- Eq in Hlt.
    assert (H2x : 0 < inject_Z (2 * xs))
      by (replace 0 with (inject_Z 0) by reflexivity; rewrite <- Zlt_Qlt; lia).
    assert (He : inject_Z (2 * tot - xs) / inject_Z (2 * xs) * inject_Z (2 * xs)
                 == inject_Z (2 * tot - xs)) by (field; Lqa.lra).
    assert (H1 : inject_Z (c - 1) * inject_Z (2 * xs) < inject_Z (2 * tot - xs)).
    { rewrite <- He. apply Qmult_lt_compat_r; assumption. }
    now rewrite <- inject_Z_mult, <- Zlt_Qlt in H1. }
  (* the values *)
  apply map_ext_in. intros i Hi. apply in_seq in Hi.
  assert (Hic : (Z.of_nat i <= c - 1)%Z) by lia.
  assert (Hnext : f64_add (Qred (inject_Z xs / 2)) (inject_Z xs)
                  = Qred (inject_Z (3 * xs) / 2)).
  { unfold f64_add.
    rewrite (@f64_round_half_eq _ (3 * xs)%Z); [| |nia].
    - apply Qred_complete. rewrite Hh, inject_Z_mult. change (inject_Z 3) with 3. field.
    - rewrite Hh, inject_Z_mult. change (inject_Z 3) with 3. field. }
  destruct i as [|[|i]].
  - apply Qred_complete. change (inject_Z (Z.of_nat 0)) with 0. ring.
  - rewrite Hnext. apply Qred_complete. rewrite inject_Z_mult.
    change (inject_Z 3) with 3. change (inject_Z (Z.of_nat 1)) with 1. field.
  - rewrite Hnext.
    assert (Ed : f64_sub (Qred (inject_Z (3 * xs) / 2)) (Qred (inject_Z xs / 2))
                 = inject_Z xs).
    { unfold f64_sub. apply f64_round_Z_eq; [|lia].
      rewrite !Qred_correct, inject_Z_mult. change (inject_Z 3) with 3. field. }
    rewrite Ed. rewrite f64_mul_Z by nia.
    unfold f64_add.
    rewrite (@f64_round_half_eq _ ((2 * Z.of_nat (S (S i)) + 1) * xs)%Z); [| |nia].
    + apply Qred_complete. now rewrite Hh, inject_Z_mult.
    + rewrite Hh, !inject_Z_mult, inject_Z_plus, inject_Z_mult.
      change (inject_Z 2) with 2. change (inject_Z 1) with 1. field.
Qed.

Lemma layer_of_Qred (tc : list Q) (x : Q) :
  layer_of (map Qred tc) (Qred x) = layer_of tc x.
Proof.
  induction tc as [|c tc IH]; [reflexivity|].
  cbn [map]. rewrite !layer_of_cons, IH. unfold Qgtb.
  now rewrite (Qleb_comp _ _ (Qred_correct x) _ _ (Qred_correct c)).
Qed.

(** On a stack of whole-number thicknesses sampled with a whole-number
    step, as in the configuration of the script, lines 165-172 compute in
    double precision what they compute in exact arithmetic: the cumulative
    sums and the sample positions are the exact ones, and so are the layers
    of the positions. *)
Lemma discretisation_f64_whole (xs : Z) (ts : list Z) :
  (0 < xs)%Z -> Forall (fun d => 0 <= d)%Z ts -> (Zsum ts + xs < 2 ^ 52)%Z ->
  let t := map inject_Z ts in
  let x_step := inject_Z xs in
  cumsum_f64 t = map Qred (cumsum t) /\
  x_pos_f64 x_step t = map Qred (x_pos_of x_step t) /\
  x_mat_of t (x_pos_f64 x_step t) (cumsum_f64 t)
  = x_mat_of t (x_pos_of x_step t) (cumsum t).
Proof.
  intros Hxs Hpos Hb t x_step.
  pose proof (Zsum_nonneg Hpos) as Hs.
  assert (Hc : cumsum_f64 t = map Qred (cumsum t)).
  { unfold cumsum_f64, cumsum, t.
    apply (@cumsum_f64_from_Z ts 0 0%Z); [reflexivity | exact Hpos | lia | lia]. }
  assert (Hp : x_pos_f64 x_step t = map Qred (x_pos_of x_step t)).
  { unfold x_pos_f64, x_pos_of, pysum_f64, pysum, t, x_step.
    change 0 with (inject_Z 0) at 1.
    rewrite pysum_f64_from_Z by (assumption || lia).
    assert (E2 : inject_Z xs / 2.0 == inject_Z xs / 2)
      by (apply Qmult_comp; reflexivity).
    unfold f64_div.
    rewrite (@f64_round_half_eq (inject_Z xs / 2.0) xs) by (exact E2 || lia).
    rewrite (Qred_complete _ _ E2).
    replace (0 + Zsum ts)%Z with (Zsum ts) by lia.
    rewrite np_arange_f64_half by (assumption || lia).
    apply arange_comp; [symmetry; exact E2 | | reflexivity].
    symmetry. rewrite (@pysum_from_Z ts 0 0%Z) by reflexivity.
    now replace (0 + Zsum ts)%Z with (Zsum ts) by lia. }
  split; [exact Hc|]. split; [exact Hp|].
  rewrite Hc, Hp.
  rewrite !x_mat_of_layer by (rewrite ?length_map; apply length_cumsum).
  rewrite map_map. apply map_ext. intros x. apply layer_of_Qred.
Qed.

End WholeNumbers.

(** The configuration of the script at the first sweep value: thicknesses
    [[0, 110, 35, 0, 7, 200]] sampled every 5 nm. *)
Example script_discretisation_f64 :
  let t := [0; 110; 35; 0; 7; 200]%Q in
  x_pos_f64 5.0 t = map Qred (x_pos_of 5.0 t) /\
  x_mat_of t (x_pos_f64 5.0 t) (cumsum_f64 t) = x_mat_of t (x_pos_of 5.0 t) (cumsum t).
Proof. split; vm_compute; reflexivity. Qed.

(** *** Wavelength-integration step *)

Section LambdaStep.

Local Open Scope Q_scope.

Lemma in_insert_sorted (x y : Q) (l : list Q) :
  In x (insert_sorted y l) <-> x = y \/ In x l.
Proof.
  induction l as [|z l IH]; simpl; [intuition congruence|].
  destruct (Qle_bool y z); simpl; [intuition congruence|].
  rewrite IH. intuition congruence.
Qed.

Lemma in_sorted (x : Q) (l : list Q) : In x (sorted l) <-> In x l.
Proof.
  induction l as [|y l IH]; simpl; [tauto|].
  rewrite in_insert_sorted, IH. intuition congruence.
Qed.

Lemma insert_sorted_sorted (y : Q) (l : list Q) :
  StronglySorted Qle l -> StronglySorted Qle (insert_sorted y l).
Proof.
  induction 1 as [|z l Hs IH Hall]; simpl; [repeat constructor|].
  destruct (Qle_bool y z) eqn:E.
  - apply Qle_bool_iff in E. constructor; [constructor; assumption|].
    constructor; [exact E|].
    eapply Forall_impl; [|exact Hall]. intros a Ha. simpl in Ha. Lqa.lra.
  - assert (Hzy : z <= y).
    { apply Qlt_le_weak, Qnot_le_lt. intros H. apply Qle_bool_iff in H. congruence. }
    constructor; [exact IH|].
    apply Forall_forall. intros a Ha. apply in_insert_sorted in Ha as [->|Ha];
      [exact Hzy|]. rewrite Forall_forall in Hall. now apply Hall.
Qed.

Lemma sorted_sorted (l : list Q) : StronglySorted Qle (sorted l).
Proof.
  induction l as [|y l IH]; simpl; [constructor|].
  now apply insert_sorted_sorted.
Qed.

(** On a grid of at least two wavelengths the step is
    [(max - min)/(count - 1)]. *)
Lemma lambda_step_of_grid (grid : list Q) :
  (2 <= length grid)%nat ->
  exists lo hi,
    In lo grid /\ In hi grid /\ (forall x, In x grid -> lo <= x /\ x <= hi) /\
    ~ inject_Z (Z.of_nat (length grid) - 1) == 0 /\
    lambda_step_of grid
    = Ok ((hi - lo) / inject_Z (Z.of_nat (length grid) - 1)).
Proof.
  intros Hlen.
  pose proof (length_sorted grid) as Hls.
  pose proof (sorted_sorted grid) as Hs.
  exists (nth 0 (sorted grid) 0), (nth (length (sorted grid) - 1) (sorted grid) 0).
  split; [apply in_sorted, nth_In; lia|].
  split; [apply in_sorted, nth_In; lia|].
  split; [|split].
  - intros x Hx. apply in_sorted in Hx.
    apply (In_nth _ _ 0) in Hx as (i & Hi & <-).
    split; apply sorted_nth_le; auto; lia.
  - intros E.
    assert (H : inject_Z (Z.of_nat (length grid) - 1) == inject_Z 0) by exact E.
    rewrite inject_Z_injective in H. lia.
  - unfold lambda_step_of.
    destruct (Nat.eqb_spec (length grid) 1) as [E|_]; [lia|].
    unfold get_last.
    rewrite (get_in_range (sorted grid) 0) by lia; cbn [bind].
    rewrite (get_in_range (sorted grid) 0) by lia; cbn [bind]. reflexivity.
Qed.

Lemma lambda_step_of_single (grid : list Q) :
  length grid = 1%nat -> lambda_step_of grid = Ok 1.
Proof. intros H. unfold lambda_step_of. now rewrite H. Qed.

Lemma Jsc_of_unit_step (x_step : Q) (Gxl : list (list R)) :
  Jsc_of x_step Gxl 1
  = (Rsum (map Rsum Gxl) * Q2R x_step * 1.0e-7 * q * 1.0e3)%R.
Proof.
  unfold Jsc_of. do 4 f_equal.
  induction Gxl as [|row G IH]; [reflexivity|]. simpl. rewrite IH.
  f_equal. unfold Q2R; simpl. lra.
Qed.

Lemma lambda_step_np_single (grid : list Q) :
  length grid = 1%nat -> lambda_step_np grid = Ok (FFin 1).
Proof. intros H. unfold lambda_step_np. now rewrite H. Qed.

(** Without the guard the step of a grid of one wavelength is the result of
    dividing 0 by 0. *)
Lemma grid_step_np_single (grid : list Q) :
  length grid = 1%nat -> grid_step_np grid = Ok FNonFin.
Proof.
  intros H. unfold grid_step_np, get_last.
  pose proof (length_sorted grid) as Hls. rewrite H in Hls. rewrite Hls, H.
  rewrite !(get_in_range (sorted grid) 0) by lia. reflexivity.
Qed.

Lemma lambda_step_np_grid (grid : list Q) :
  (2 <= length grid)%nat ->
  exists lo hi,
    In lo grid /\ In hi grid /\ (forall x, In x grid -> lo <= x /\ x <= hi) /\
    ~ inject_Z (Z.of_nat (length grid) - 1) == 0 /\
    lambda_step_np grid
    = Ok (FFin ((hi - lo) / inject_Z (Z.of_nat (length grid) - 1))) /\
    lambda_step_of grid
    = Ok ((hi - lo) / inject_Z (Z.of_nat (length grid) - 1)).
Proof.
  intros Hlen.
  destruct (lambda_step_of_grid grid Hlen) as (lo & hi & Hlo & Hhi & Hb & Hd & Hls).
  exists lo, hi. repeat (split; [assumption|]). split; [|exact Hls].
  unfold lambda_step_of in Hls. unfold lambda_step_np.
  destruct (Nat.eqb_spec (length grid) 1) as [E|_]; [lia|].
  destruct (get_last (sorted grid)) as [hi'|e]; [|discriminate]. cbn [bind] in *.
  destruct (get (sorted grid) 0) as [lo'|e]; [|discriminate]. cbn [bind] in *.
  unfold np_fdiv.
  destruct (Qeq_bool (inject_Z (Z.of_nat (length grid) - 1)) 0) eqn:Ez.
  { apply Qeq_bool_iff in Ez. contradiction. }
  congruence.
Qed.

(** The step of line 228 is never the result of a division by zero. *)
Lemma lambda_step_np_finite (grid : list Q) : lambda_step_np grid <> Ok FNonFin.
Proof.
  destruct (le_lt_dec 2 (length grid)) as [H|H].
  - destruct (lambda_step_np_grid grid H) as (lo & hi & _ & _ & _ & _ & E & _).
    rewrite E. discriminate.
  - unfold lambda_step_np.
    destruct (Nat.eqb_spec (length grid) 1) as [E|E]; [discriminate|].
    assert (H0 : length (sorted grid) = 0%nat) by (rewrite length_sorted; lia).
    unfold get_last. rewrite get_out_of_range by lia. discriminate.
Qed.

(** C10, as the code has it.  On a grid of exactly one wavelength the
    integrator takes the step 1 without dividing, where the grid formula
    [(max - min)/(count - 1)] would divide 0 by 0; on a larger grid the step
    is [(max - min)/(count - 1)], computed from the grid values, and the
    divisor is never zero.  A sweep step on a grid of one wavelength
    returns the photocurrent [sum(Gxl) * 1 * x_step * 1e-7 * q * 1e3] of the
    generation rate [Gxl] of its fields; it is the finite number that the
    script computes when the spatial step is not zero and no other
    division of the step has a zero divisor. *)
Theorem single_wavelength_unit_step (cfg : config) (Rg : list R) (t : list Q) :
  wf_config cfg -> length (am15_int_y cfg) = length (lambdas cfg) ->
  ~ x_step cfg == 0 ->
  length Rg = length (lambdas cfg) ->
  length t = length (thicknesses cfg) ->
  regular_step (n cfg) (lambdas cfg) Rg t ->
  length (lambdas cfg) = 1%nat ->
  lambda_step_np (lambdas cfg) = Ok (FFin 1) /\
  grid_step_np (lambdas cfg) = Ok FNonFin /\
  lambda_step_of (lambdas cfg) = Ok 1 /\
  (exists f a Gxl,
      absorption (n cfg) (lambdas cfg) t = Ok a /\
      Gxl_of (n cfg) (lambdas cfg) (x_mat_of t (x_pos_of (x_step cfg) t) (cumsum t))
             (activeLayer cfg) (am15_int_y cfg) a (E_arr f) = Ok Gxl /\
      step_output cfg Rg t
      = Ok (f, 1, (Rsum (map Rsum Gxl) * Q2R (x_step cfg) * 1.0e-7 * q * 1.0e3)%R)) /\
  (forall grid, lambda_step_np grid <> Ok FNonFin) /\
  (forall grid, (2 <= length grid)%nat ->
     exists lo hi,
       In lo grid /\ In hi grid /\ (forall x, In x grid -> lo <= x /\ x <= hi) /\
       ~ inject_Z (Z.of_nat (length grid) - 1) == 0 /\
       lambda_step_np grid
       = Ok (FFin ((hi - lo) / inject_Z (Z.of_nat (length grid) - 1))) /\
       lambda_step_of grid
       = Ok ((hi - lo) / inject_Z (Z.of_nat (length grid) - 1))).
Proof.
  intros Hwf _ Hxs HRg Ht _ Hone.
  pose proof (lambda_step_of_single _ Hone) as Hls.
  split; [now apply lambda_step_np_single|].
  split; [now apply grid_step_np_single|].
  split; [exact Hls|].
  split; [|split; [exact lambda_step_np_finite | exact lambda_step_np_grid]].
  destruct (@step_output_total_parts cfg Rg HRg t Hwf Hxs Ht)
    as (f & ls & a & Gxl & Hout & Hls' & Ha & HG & _).
  rewrite Hls in Hls'. inversion Hls'; subst ls.
  exists f, a, Gxl. split; [exact Ha|]. split; [exact HG|].
  rewrite Hout. now rewrite Jsc_of_unit_step.
Qed.

Lemma single_wavelength_unit_step_witness :
  let cfg := quarter_wave_config in
  lambda_step_np (lambdas cfg) = Ok (FFin 1) /\
  lambda_step_of (lambdas cfg) = Ok 1 /\
  exists f Gxl,
    step_output cfg [(1/9)%R] [0; 1; 0]
    = Ok (f, 1, (Rsum (map Rsum Gxl) * Q2R (x_step cfg) * 1.0e-7 * q * 1.0e3)%R).
Proof.
  intros cfg. destruct quarter_wave_grids as [Elam _].
  assert (HRg : length [(1/9)%R] = length (lambdas cfg)) by (unfold cfg; now rewrite Elam).
  assert (Hone : length (lambdas cfg) = 1%nat) by (unfold cfg; now rewrite Elam).
  assert (Hreg : regular_step (n cfg) (lambdas cfg) [(1/9)%R] [0; 1; 0]).
  { unfold cfg. rewrite Elam. exact quarter_wave_regular. }
  destruct (@single_wavelength_unit_step cfg [(1/9)%R] [0; 1; 0]
              quarter_wave_wf eq_refl quarter_wave_x_step HRg eq_refl Hreg Hone)
    as (Hnp & _ & Hls & (f & a & Gxl & _ & _ & Hout) & _).
  split; [exact Hnp|]. split; [exact Hls|]. exists f, Gxl. exact Hout.
Defined.

(** C10, as stated, fails: a run on a single wavelength need not yield a
    finite photocurrent.  With a spatial step of zero the run stops in the
    first sweep step, at [np.arange] (line 166), whose length computation
    divides by the step; and with the indices 1 and -1 in layers 0 and 1
    the interface matrix from which the solver starts (line 180) has no
    finite entry. *)
Lemma single_wavelength_run_not_finite :
  length (lambdas zero_x_step_config) = 1%nat /\
  run zero_x_step_config = Err ArangeZeroStep /\
  length (lambdas degenerate_config) = 1%nat /\
  exists n0 n1,
    n_at (n degenerate_config) 0 0 = Ok n0 /\
    n_at (n degenerate_config) 1 0 = Ok n1 /\
    I_mat_np n0 n1 = Ok (mkM2np NonFin NonFin NonFin NonFin).
Proof.
  split; [vm_compute; reflexivity|]. split.
  { apply run_zero_x_step; try discriminate; [simpl; lia | reflexivity]. }
  split; [vm_compute; reflexivity|].
  exists (RtoC 1), (RtoC (-1)). split; [reflexivity|]. split; [reflexivity|].
  assert (Hs : (RtoC 1 + RtoC (-1))%C = C0) by (apply C_eq; simpl; lra).
  unfold I_mat_np, np_div; simpl. rewrite (Cis_zero_true Hs). reflexivity.
Qed.

(** The step on the script's own grid, 350 to 800 nm every 5 nm. *)
Example script_lambda_step (n : list (list C)) (am15 : list R) :
  exists ls, lambda_step_of (lambdas (script_config n am15)) = Ok ls /\ ls == 5.
Proof. eexists. split; [vm_compute; reflexivity | reflexivity]. Qed.

End LambdaStep.

(* ===================================================================== *)
(** ** Further properties of the script *)
(* ===================================================================== *)

(** *** The field of complex numbers and the algebra of 2x2 matrices *)

Lemma C_field_theory :
  field_theory C0 C1 Cadd Cmul Csub Copp Cdiv Cinv (@eq C).
Proof.
  constructor.
  - constructor; intros; apply C_eq; simpl; ring.
  - intros E. apply (f_equal Re) in E. simpl in E. lra.
  - reflexivity.
  - intros p Hp. rewrite Cmul_comm. now apply Cinv_r.
Qed.

Add Field Cfield : C_field_theory.

Lemma RtoC_2 : RtoC 2 = (C1 + C1)%C.
Proof. apply C_eq; simpl; ring. Qed.

Lemma C1_plus_C1_neq0 : (C1 + C1)%C <> C0.
Proof. intros E. apply (f_equal Re) in E. simpl in E. lra. Qed.

Lemma M2_eq (A B : M2) :
  m00 A = m00 B -> m01 A = m01 B -> m10 A = m10 B -> m11 A = m11 B -> A = B.
Proof. destruct A, B; simpl; intros -> -> -> ->; reflexivity. Qed.

Lemma Mmul_assoc (A B D : M2) : (A * (B * D) = A * B * D)%M.
Proof. apply M2_eq; simpl; ring. Qed.

Lemma Mmul_eye_r (A : M2) : (A * eye2 = A)%M.
Proof. apply M2_eq; unfold eye2; simpl; ring. Qed.

Lemma Mmul_eye_l (A : M2) : (eye2 * A = A)%M.
Proof. apply M2_eq; unfold eye2; simpl; ring. Qed.

Lemma Cexp_add (a b : C) : Cexp (a + b)%C = (Cexp a * Cexp b)%C.
Proof.
  apply C_eq; unfold Cexp, Cadd, Cmul, Re, Im; simpl fst; simpl snd;
    rewrite exp_plus, ?cos_plus, ?sin_plus; ring.
Qed.

(** X1.  Crossing an interface and crossing it back composes to the
    identity: [I_mat(n1, n2) * I_mat(n2, n1)] is the identity matrix, for
    non-zero indices with a non-zero sum. *)
Theorem I_mat_reverse_is_inverse (n1 n2 : C) :
  n1 <> C0 -> n2 <> C0 -> (n1 + n2)%C <> C0 ->
  (I_mat n1 n2 * I_mat n2 n1)%M = eye2.
Proof.
  intros H1 H2 Hs.
  assert (Hs' : (n2 + n1)%C <> C0) by (intros E; apply Hs; rewrite <- E; ring).
  unfold I_mat, Mdiv, Mmul, eye2; cbn [m00 m01 m10 m11]. rewrite !RtoC_2.
  pose proof C1_plus_C1_neq0 as H11.
  apply M2_eq; cbn [m00 m01 m10 m11]; field; repeat split; assumption.
Qed.

Lemma I_mat_reverse_is_inverse_witness :
  (I_mat (RtoC 2) (RtoC 1) * I_mat (RtoC 1) (RtoC 2))%M = eye2.
Proof.
  apply I_mat_reverse_is_inverse; intros E; apply (f_equal Re) in E;
    simpl in E; lra.
Defined.

(** X2.  Propagation matrices of one medium compose by adding the
    thicknesses: [L_mat(n, d1, l) * L_mat(n, d2, l) = L_mat(n, d1 + d2, l)],
    for a non-zero wavelength. *)
Theorem L_mat_adds_thickness (n : C) (d1 d2 l : R) :
  l <> 0%R ->
  (L_mat n d1 l * L_mat n d2 l)%M = L_mat n (d1 + d2)%R l.
Proof.
  intros Hl. unfold L_mat, Mmul; cbn [m00 m01 m10 m11].
  apply M2_eq; cbn [m00 m01 m10 m11].
  - rewrite Cmul_0_l. rewrite <- Cexp_add.
    transitivity (Cexp (py_complex C0
        (RtoC (-1) * (RtoC (2 * PI * d1) * n / RtoC l))
      + py_complex C0 (RtoC (-1) * (RtoC (2 * PI * d2) * n / RtoC l)))%C).
    { apply C_eq; unfold py_complex; cplx_unfold; ring. }
    f_equal. apply C_eq; unfold py_complex; cplx_unfold; field; exact Hl.
  - apply C_eq; simpl; ring.
  - apply C_eq; simpl; ring.
  - rewrite Cmul_0_l. rewrite <- Cexp_add.
    transitivity (Cexp (py_complex C0 (RtoC (2 * PI * d1) * n / RtoC l)
                        + py_complex C0 (RtoC (2 * PI * d2) * n / RtoC l))%C).
    { apply C_eq; unfold py_complex; cplx_unfold; ring. }
    f_equal. apply C_eq; unfold py_complex; cplx_unfold; field; exact Hl.
Qed.

Lemma L_mat_adds_thickness_witness :
  (L_mat (2, 0.1)%R 100 500 * L_mat (2, 0.1)%R 120 500)%M
  = L_mat (2, 0.1)%R (100 + 120)%R 500.
Proof. apply L_mat_adds_thickness. lra. Defined.

(** *** Partial products of the stack solver *)

Section PartialProducts.

Variable n : list (list C).
Variable t lambdas : list Q.
Hypothesis Hwf : wf_table n t lambdas.
Variable ind : nat.
Hypothesis Hind : ind < length lambdas.

Let l := nth ind lambdas 0%Q.

Lemma S_prime_loop_chain (k : nat) :
  k + 1 < length t \/ k = 0 ->
  foldM (S_prime_body n t lambdas ind) (irange 2 (k + 2)) (S_chain n t l ind 0)
  = Ok (S_chain n t l ind k).
Proof.
  pose proof Hwf as (Hn2 & Htn & _).
  induction k as [|k IH]; intros Hk; [reflexivity|].
  replace (S k + 2) with (S (k + 2)) by lia.
  rewrite irange_snoc by lia. rewrite foldM_app, IH by lia. cbn [bind foldM].
  unfold S_prime_body.
  rewrite (n_at_idx Hwf) by lia; cbn [bind].
  rewrite (get_in_range t 0%Q) by lia; cbn [bind].
  rewrite (get_in_range lambdas 0%Q Hind); cbn [bind].
  rewrite (n_at_idx Hwf) by lia; cbn [bind].
  cbn [S_chain]. unfold thick. fold l.
  replace (k + 2 - 1) with (S k) by lia.
  replace (k + 2) with (S k + 1) by lia. reflexivity.
Qed.

Lemma S_prime_chain (material : nat) :
  1 <= material < length t ->
  S_prime_mat n t lambdas ind material = Ok (S_chain n t l ind (material - 1)).
Proof.
  intros Hm. pose proof Hwf as (Hn2 & Htn & _).
  unfold S_prime_mat. rewrite !(n_at_idx Hwf) by lia; cbn [bind].
  replace (material + 1) with ((material - 1) + 2) by lia.
  apply S_prime_loop_chain. lia.
Qed.

Lemma S_dprime_loop_chain (m k : nat) :
  m + k < length t \/ k = 0 ->
  foldM (S_dprime_body n t lambdas ind) (irange m (m + k)) eye2
  = Ok (Sd_chain n t l ind m k).
Proof.
  pose proof Hwf as (Hn2 & Htn & _).
  induction k as [|k IH]; intros Hk.
  - unfold irange. replace (m + 0 - m) with 0 by lia. reflexivity.
  - replace (m + S k) with (S (m + k)) by lia.
    rewrite irange_snoc by lia. rewrite foldM_app, IH by lia. cbn [bind foldM].
    unfold S_dprime_body.
    rewrite !(n_at_idx Hwf) by lia; cbn [bind].
    rewrite (get_in_range t 0%Q) by lia; cbn [bind].
    rewrite (get_in_range lambdas 0%Q Hind); cbn [bind].
    reflexivity.
Qed.

Lemma S_dprime_chain (material : nat) :
  material < length t ->
  S_dprime_mat n t lambdas ind material
  = Ok (Sd_chain n t l ind material (length t - 1 - material)).
Proof.
  intros Hm. unfold S_dprime_mat.
  replace (length t - 1) with (material + (length t - 1 - material)) at 1 by lia.
  apply S_dprime_loop_chain. lia.
Qed.

Lemma chain_factor (m k : nat) :
  1 <= m ->
  (S_chain n t l ind (m - 1)
   * L_mat (idx n m ind) (Q2R (thick t m)) (Q2R l)
   * Sd_chain n t l ind m k)%M
  = (S_chain n t l ind (m - 1 + k)
     * L_mat (idx n (m + k) ind) (Q2R (thick t (m + k))) (Q2R l))%M.
Proof.
  intros Hm. induction k as [|k IH].
  - cbn [Sd_chain]. rewrite Mmul_eye_r.
    replace (m - 1 + 0) with (m - 1) by lia.
    replace (m + 0) with m by lia. reflexivity.
  - cbn [Sd_chain]. rewrite !Mmul_assoc. rewrite IH.
    replace (m - 1 + S k) with (S (m - 1 + k)) by lia.
    cbn [S_chain].
    replace (S (m - 1 + k)) with (m + k) by lia.
    replace (m + S k) with (m + k + 1) by lia. reflexivity.
Qed.

End PartialProducts.

(** [regular_step] speaks of the divisors of the code: in a regular step
    the entry [S[0, 0]] by which line 185 divides and the denominator [den]
    of line 214, computed from the matrices of the loops of lines 195-205,
    are not zero. *)
Lemma regular_step_divisors (n : list (list C)) (t lambdas : list Q) (Rg : list R)
    (ind m : nat) :
  wf_table n t lambdas -> regular_step n lambdas Rg t ->
  ind < length lambdas -> 1 <= m < length t ->
  let xi := ((RtoC (2 * PI)%R * idx n m ind) / RtoC (Q2R (nth ind lambdas 0%Q)))%C in
  exists S S_prime S_dprime,
    S_mat n t lambdas ind = Ok S /\ m00 S <> C0 /\
    S_prime_mat n t lambdas ind m = Ok S_prime /\
    S_dprime_mat n t lambdas ind m = Ok S_dprime /\
    E_den xi (thick t m) S_prime S_dprime <> C0 /\
    forall (Tind : R) (x : Q),
      E_value Tind xi (thick t m) x S_prime S_dprime
      = (RtoC Tind *
         (m00 S_dprime
          * Cexp (py_complex C0 (RtoC (-1.0)) * xi * RtoC (Q2R (thick t m - x)))
          + m10 S_dprime
            * Cexp (py_complex C0 (RtoC 1) * xi * RtoC (Q2R (thick t m - x))))
         / E_den xi (thick t m) S_prime S_dprime)%C.
Proof.
  intros Hwf Hreg Hind Hm xi.
  destruct (Hreg ind Hind) as (_ & _ & _ & HS & _ & Hden).
  exists (S_chain n t (nth ind lambdas 0%Q) ind (length t - 2)),
         (S_chain n t (nth ind lambdas 0%Q) ind (m - 1)),
         (Sd_chain n t (nth ind lambdas 0%Q) ind m (length t - 1 - m)).
  split; [now apply S_mat_chain|]. split; [exact HS|].
  split; [now apply S_prime_chain|]. split; [apply S_dprime_chain; auto; lia|].
  split; [apply Hden; exact Hm | reflexivity].
Qed.

(** X3.  The three matrices of the field calculation factor the stack: for
    every layer [m] from 1 to the last, [S_prime], the propagation matrix
    of layer [m] and [S_dprime] multiply to the system matrix [S] of the
    solver followed by the propagation matrix of the last layer. *)
Theorem S_prime_L_S_dprime_factor_S
    (n : list (list C)) (t lambdas : list Q) (ind material : nat) :
  wf_table n t lambdas -> ind < length lambdas ->
  1 <= material < length t ->
  let l := nth ind lambdas 0%Q in
  let last := length t - 1 in
  exists S S_prime S_dprime,
    S_mat n t lambdas ind = Ok S /\
    S_prime_mat n t lambdas ind material = Ok S_prime /\
    S_dprime_mat n t lambdas ind material = Ok S_dprime /\
    (S_prime * L_mat (idx n material ind) (Q2R (thick t material)) (Q2R l)
     * S_dprime)%M
    = (S * L_mat (idx n last ind) (Q2R (thick t last)) (Q2R l))%M.
Proof.
  intros Hwf Hind Hm l last.
  exists (S_chain n t l ind (length t - 2)),
         (S_chain n t l ind (material - 1)),
         (Sd_chain n t l ind material (length t - 1 - material)).
  split; [apply (S_mat_chain Hwf Hind)|].
  split; [apply (S_prime_chain Hwf Hind Hm)|].
  split; [apply (S_dprime_chain Hwf Hind); lia|].
  unfold l. rewrite chain_factor by lia. unfold last.
  replace (material - 1 + (length t - 1 - material)) with (length t - 2) by lia.
  replace (material + (length t - 1 - material)) with (length t - 1) by lia.
  reflexivity.
Qed.

Lemma S_prime_L_S_dprime_factor_S_witness :
  let n := [[(1.5, 0)]; [(2, 0.1)]; [(1.8, 0)]; [(1, 3)]]%R in
  let t := [0; 100; 35; 200]%Q in
  exists S S_prime S_dprime,
    S_mat n t [500%Q] 0 = Ok S /\
    S_prime_mat n t [500%Q] 0 2 = Ok S_prime /\
    S_dprime_mat n t [500%Q] 0 2 = Ok S_dprime /\
    (S_prime * L_mat (idx n 2 0) (Q2R (thick t 2)) (Q2R 500) * S_dprime)%M
    = (S * L_mat (idx n 3 0) (Q2R (thick t 3)) (Q2R 500))%M.
Proof.
  intros n t.
  apply (@S_prime_L_S_dprime_factor_S n t [500%Q] 0 2).
  - unfold wf_table; simpl. split; [lia|]. split; [lia|]. repeat constructor.
  - simpl; lia.
  - simpl; lia.
Defined.

Lemma S_chain_firstn (n : list (list C)) (t : list Q) (l : Q) (ind m k : nat) :
  k <= m -> S_chain n (firstn (m + 1) t) l ind k = S_chain n t l ind k.
Proof.
  induction k as [|k IH]; intros Hk; [reflexivity|].
  cbn [S_chain]. rewrite IH by lia. unfold thick.
  rewrite nth_firstn. replace (S k <? m + 1) with true; [reflexivity|].
  symmetry. apply Nat.ltb_lt. lia.
Qed.

(** X4.  [S_prime] for layer [m] is the system matrix that the solver
    computes for the stack cut off after layer [m]; for the last layer it
    is the system matrix [S] of the whole stack. *)
Theorem S_prime_is_S_of_truncated_stack
    (n : list (list C)) (t lambdas : list Q) (ind material : nat) :
  wf_table n t lambdas -> ind < length lambdas ->
  1 <= material < length t ->
  S_prime_mat n t lambdas ind material
  = S_mat n (firstn (material + 1) t) lambdas ind /\
  S_prime_mat n t lambdas ind (length t - 1) = S_mat n t lambdas ind.
Proof.
  intros Hwf Hind Hm. pose proof Hwf as (Hn2 & Htn & Hrows).
  assert (Hlen : length (firstn (material + 1) t) = material + 1)
    by (rewrite length_firstn; lia).
  assert (Hwf' : wf_table n (firstn (material + 1) t) lambdas).
  { unfold wf_table. rewrite Hlen. repeat split; [lia | lia | exact Hrows]. }
  split.
  - rewrite (S_prime_chain Hwf Hind Hm), (S_mat_chain Hwf' Hind), Hlen.
    replace (material + 1 - 2) with (material - 1) by lia.
    now rewrite S_chain_firstn by lia.
  - rewrite (S_prime_chain Hwf Hind) by lia.
    rewrite (S_mat_chain Hwf Hind).
    replace (length t - 1 - 1) with (length t - 2) by lia. reflexivity.
Qed.

Lemma S_prime_is_S_of_truncated_stack_witness :
  let n := [[(1.5, 0)]; [(2, 0.1)]; [(1.8, 0)]; [(1, 3)]]%R in
  let t := [0; 100; 35; 200]%Q in
  S_prime_mat n t [500%Q] 0 2 = S_mat n [0; 100; 35]%Q [500%Q] 0 /\
  S_prime_mat n t [500%Q] 0 3 = S_mat n t [500%Q] 0.
Proof.
  intros n t.
  apply (@S_prime_is_S_of_truncated_stack n t [500%Q] 0 2).
  - unfold wf_table; simpl. split; [lia|]. split; [lia|]. repeat constructor.
  - simpl; lia.
  - simpl; lia.
Defined.

(** X5.  For a stack of two layers the solver's reflectance is the Fresnel
    reflectance of the single interface, [|(n0 - n1)/(n0 + n1)|^2]. *)
Theorem two_layer_reflectance_is_fresnel
    (n : list (list C)) (t lambdas : list Q) (ind : nat) :
  wf_table n t lambdas -> ind < length lambdas -> length t = 2 ->
  idx n 0 ind <> C0 -> (idx n 0 ind + idx n 1 ind)%C <> C0 ->
  exists S,
    S_mat n t lambdas ind = Ok S /\
    reflectance S
    = (Cmod ((idx n 0 ind - idx n 1 ind) / (idx n 0 ind + idx n 1 ind))%C ^ 2)%R.
Proof.
  intros Hwf Hind Ht H0 Hs.
  eexists. split; [apply (S_mat_chain Hwf Hind)|].
  rewrite Ht. cbn [Nat.sub S_chain].
  unfold reflectance, I_mat, Mdiv; cbn [m00 m01 m10 m11]. do 2 f_equal.
  rewrite RtoC_2. pose proof C1_plus_C1_neq0. field. repeat split; assumption.
Qed.

Lemma two_layer_reflectance_is_fresnel_witness :
  let n := [[RtoC 1.5]; [RtoC 2]] in
  exists S,
    S_mat n [0; 100]%Q [500%Q] 0 = Ok S /\
    reflectance S = (Cmod ((RtoC 1.5 - RtoC 2) / (RtoC 1.5 + RtoC 2))%C ^ 2)%R.
Proof.
  intros n.
  apply (@two_layer_reflectance_is_fresnel n [0; 100]%Q [500%Q] 0).
  - unfold wf_table; simpl. split; [lia|]. split; [lia|]. repeat constructor.
  - simpl; lia.
  - reflexivity.
  - intros E; apply (f_equal Re) in E; simpl in E; lra.
  - intros E; apply (f_equal Re) in E; simpl in E; lra.
Defined.

(** *** Incoherent substrate *)

Lemma Cnorm2_div (a b : C) :
  b <> C0 -> Cnorm2 (a / b)%C = (Cnorm2 a / Cnorm2 b)%R.
Proof.
  intros Hb. pose proof (Cnorm2_neq0 Hb) as Hn.
  destruct a as [x y], b as [u v]. unfold Cnorm2 in Hn; simpl in Hn.
  cplx_unfold. field. exact Hn.
Qed.

(** X6.  For a substrate index with positive real part the substrate
    reflectance [R_glass] lies in [[0, 1)], at every wavelength. *)
Theorem R_glass_below_one (n : list (list C)) (Rg : list R) (ind : nat) (n0 : C) :
  R_glass n = Ok Rg ->
  n_at n 0 ind = Ok n0 ->
  (0 < Re n0)%R ->
  exists r, nth_error Rg ind = Some r /\ (0 <= r < 1)%R.
Proof.
  intros HR Hn0 Hre. unfold R_glass, n_at in *.
  destruct (get n 0) as [row|e]; [|discriminate]. cbn [bind] in *.
  assert (ERg : Rg = map (fun n0 => (Cmod ((C1 - n0) / (C1 + n0))%C ^ 2)%R) row)
    by congruence.
  subst Rg; clear HR.
  apply get_nth_error in Hn0.
  rewrite nth_error_map, Hn0. cbn [option_map].
  eexists; split; [reflexivity|].
  rewrite Cmod_sqr.
  assert (Hd : (C1 + n0)%C <> C0).
  { intros E; apply (f_equal Re) in E; simpl in E; lra. }
  rewrite (Cnorm2_div _ Hd).
  pose proof (Cnorm2_neq0 Hd) as Hnz. pose proof (Cnorm2_nonneg (C1 + n0)%C) as Hp.
  pose proof (Cnorm2_nonneg (C1 - n0)%C) as Hq.
  assert (Hlt : (Cnorm2 (C1 - n0)%C < Cnorm2 (C1 + n0)%C)%R).
  { destruct n0 as [a b]; simpl in Hre. cplx_unfold. nra. }
  split.
  - apply Rmult_le_pos; [exact Hq | apply Rlt_le, Rinv_0_lt_compat; lra].
  - apply Rmult_lt_reg_r with (Cnorm2 (C1 + n0)%C); [lra|].
    unfold Rdiv. rewrite Rmult_assoc, Rinv_l by exact Hnz. lra.
Qed.

Lemma R_glass_below_one_witness :
  exists r,
    nth_error [(1 / 9)%R] 0 = Some r /\ (0 <= r < 1)%R.
Proof.
  apply (@R_glass_below_one (n quarter_wave_config) [(1 / 9)%R] 0 (RtoC 2)).
  - exact R_glass_quarter_wave.
  - reflexivity.
  - simpl; lra.
Defined.

(** X7.  For a lossless substrate (real positive index) the substrate
    transmittance and reflectance add up to one:
    [T_glass + R_glass = 1], at every wavelength. *)
Theorem T_glass_plus_R_glass_lossless
    (n : list (list C)) (Tg Rg : list R) (ind : nat) (n0 : C) :
  T_glass n = Ok Tg -> R_glass n = Ok Rg ->
  n_at n 0 ind = Ok n0 ->
  Im n0 = 0%R -> (0 < Re n0)%R ->
  exists tg rg,
    nth_error Tg ind = Some tg /\ nth_error Rg ind = Some rg /\
    (tg + rg = 1)%R.
Proof.
  intros HT HR Hn0 Him Hre. unfold T_glass, R_glass, n_at in *.
  destruct (get n 0) as [row|e]; [|discriminate]. cbn [bind] in *.
  assert (ETg : Tg = map (fun n0 => Cmod ((RtoC (4.0 * 1.0)%R * n0)
                                          / ((C1 + n0) * (C1 + n0)))%C) row)
    by congruence.
  assert (ERg : Rg = map (fun n0 => (Cmod ((C1 - n0) / (C1 + n0))%C ^ 2)%R) row)
    by congruence.
  subst Tg Rg; clear HT HR.
  apply get_nth_error in Hn0.
  rewrite !nth_error_map, Hn0. cbn [option_map].
  eexists; eexists; split; [reflexivity|]. split; [reflexivity|].
  rewrite Cmod_sqr.
  destruct n0 as [a b]; simpl in Him, Hre; subst b.
  assert (Hd : (C1 + (a, 0%R))%C <> C0).
  { intros E; apply (f_equal Re) in E; simpl in E; lra. }
  assert (Hdd : ((C1 + (a, 0%R)) * (C1 + (a, 0%R)))%C <> C0)
    by (apply Cmul_neq0; exact Hd).
  unfold Cmod. rewrite (Cnorm2_div _ Hdd), (Cnorm2_div _ Hd).
  assert (H1 : Cnorm2 (RtoC (4.0 * 1.0) * (a, 0%R))%C = ((4 * a) * (4 * a))%R).
  { cplx_unfold. replace (4.0 * 1.0)%R with 4%R by lra. ring. }
  assert (H2 : Cnorm2 ((C1 + (a, 0%R)) * (C1 + (a, 0%R)))%C
               = (((1 + a) * (1 + a)) * ((1 + a) * (1 + a)))%R)
    by (cplx_unfold; ring).
  assert (H3 : Cnorm2 (C1 - (a, 0%R))%C = ((1 - a) * (1 - a))%R)
    by (cplx_unfold; ring).
  assert (H4 : Cnorm2 (C1 + (a, 0%R))%C = ((1 + a) * (1 + a))%R)
    by (cplx_unfold; ring).
  rewrite H1, H2, H3, H4.
  replace (4 * a * (4 * a) / ((1 + a) * (1 + a) * ((1 + a) * (1 + a))))%R
    with (Rsqr (4 * a / ((1 + a) * (1 + a)))) by (unfold Rsqr; field; lra).
  rewrite sqrt_Rsqr.
  - field. lra.
  - apply Rmult_le_pos; [lra | apply Rlt_le, Rinv_0_lt_compat; nra].
Qed.

Lemma T_glass_plus_R_glass_lossless_witness :
  exists Tg tg rg,
    T_glass (n quarter_wave_config) = Ok Tg /\
    nth_error Tg 0 = Some tg /\ nth_error [(1 / 9)%R] 0 = Some rg /\
    (tg + rg = 1)%R.
Proof.
  destruct (T_glass (n quarter_wave_config)) as [Tg|e] eqn:HT; [|discriminate].
  destruct (@T_glass_plus_R_glass_lossless (n quarter_wave_config) Tg
              [(1 / 9)%R] 0 (RtoC 2) HT R_glass_quarter_wave eq_refl eq_refl)
    as (tg & rg & H1 & H2 & H3); [simpl; lra|].
  exists Tg, tg, rg. auto.
Defined.

(** *** The grids of the script *)

Section InclusiveGrids.

Local Open Scope Q_scope.

Lemma inclusive_arange_length (start finish step : Q) :
  0 < step ->
  length (arange start (finish + step) step)
  = Z.to_nat (Qceiling ((finish - start) / step) + 1).
Proof.
  intros Hstep. rewrite length_arange. f_equal.
  rewrite <- Qceiling_succ. apply Qceiling_comp.
  field. intros E; rewrite E in Hstep; now apply Qlt_irrefl in Hstep.
Qed.

Lemma arange_sorted_from (f : nat -> Q) (a k : nat) :
  (forall i j, (i <= j)%nat -> f i <= f j) ->
  StronglySorted Qle (map f (seq a k)).
Proof.
  intros Hf. revert a; induction k as [|k IH]; intros a; simpl; constructor.
  - apply IH.
  - apply Forall_forall. intros y Hy.
    apply in_map_iff in Hy as [j [<- Hj]]. apply in_seq in Hj. apply Hf. lia.
Qed.

Lemma arange_sorted (start stop step : Q) :
  0 < step -> StronglySorted Qle (arange start stop step).
Proof.
  intros Hstep. unfold arange. apply arange_sorted_from.
  intros i j Hij.
  assert (H : inject_Z (Z.of_nat i) <= inject_Z (Z.of_nat j))
    by (rewrite <- Zle_Qle; lia).
  assert (inject_Z (Z.of_nat i) * step <= inject_Z (Z.of_nat j) * step)
    by (apply Qmult_le_compat_r; [exact H | apply Qlt_le_weak, Hstep]).
  Lqa.lra.
Qed.

(** The exact grid [arange start (finish + step) step] covers the range
    from [start] to [finish] and passes it by less than a step. *)
Lemma inclusive_arange_exact (start finish step : Q) :
  0 < step -> start <= finish ->
  let g := arange start (finish + step) step in
  Z.of_nat (length g) = (Qceiling ((finish - start) / step) + 1)%Z /\
  (1 <= length g)%nat /\
  nth 0 g 0 == start /\
  (forall i, (S i < length g)%nat -> nth (S i) g 0 == nth i g 0 + step) /\
  finish <= nth (length g - 1) g 0 /\ nth (length g - 1) g 0 < finish + step.
Proof.
  intros Hstep Hle g.
  assert (Hnz : ~ step == 0)
    by (intros E; rewrite E in Hstep; now apply Qlt_irrefl in Hstep).
  assert (Hx : 0 <= (finish - start) / step).
  { apply Qle_shift_div_l; [exact Hstep | Lqa.lra]. }
  assert (Hc : (0 <= Qceiling ((finish - start) / step))%Z).
  { rewrite Zle_Qle. eapply Qle_trans; [exact Hx | apply Qle_ceiling]. }
  assert (Hlen : length g = Z.to_nat (Qceiling ((finish - start) / step) + 1))
    by (apply inclusive_arange_length, Hstep).
  assert (Hnth : forall i, (i < length g)%nat ->
                   nth i g 0 = start + inject_Z (Z.of_nat i) * step).
  { intros i Hi. apply nth_error_nth. now apply nth_error_arange. }
  split; [lia|]. split; [lia|]. split; [|split; [|split]].
  - rewrite Hnth by lia. change (inject_Z (Z.of_nat 0)) with 0. ring.
  - intros i Hi. rewrite !Hnth by lia.
    replace (Z.of_nat (S i)) with (Z.of_nat i + 1)%Z by lia.
    rewrite inject_Z_plus. change (inject_Z 1) with 1. ring.
  - rewrite Hnth by lia.
    replace (Z.of_nat (length g - 1)) with (Qceiling ((finish - start) / step)) by lia.
    pose proof (Qle_ceiling ((finish - start) / step)) as Hceil.
    assert (Hm : (finish - start) / step * step
                 <= inject_Z (Qceiling ((finish - start) / step)) * step)
      by (apply Qmult_le_compat_r; [exact Hceil | apply Qlt_le_weak, Hstep]).
    assert (He : (finish - start) / step * step == finish - start)
      by (field; exact Hnz).
    rewrite He in Hm. Lqa.lra.
  - apply (@arange_bounds start (finish + step) step _ Hstep).
    apply nth_In. fold g. lia.
Qed.

Lemma nth_map_Qred (l : list Q) (i : nat) : nth i (map Qred l) 0 == nth i l 0.
Proof.
  change 0 with (Qred 0) at 1. rewrite map_nth. apply Qred_correct.
Qed.

(** X8.  The grids built as [np.arange(start, finish + step, step)], the
    wavelengths and the sweep thicknesses, cover the whole range when
    [start], [finish] and [step] are whole numbers (below [2^52] in
    magnitude): for a positive step and [start <= finish] the grid computed
    in double precision is the exact grid; there are
    [ceil((finish - start)/step) + 1] values, the first is [start],
    neighbours differ by [step], and the last lies in
    [[finish, finish + step)], so the range is passed by less than a step. *)
Theorem inclusive_arange_covers_range (a fin s : Z) :
  (0 < s)%Z -> (a <= fin)%Z -> (- 2 ^ 52 < a)%Z -> (fin + s < 2 ^ 52)%Z ->
  let start := inject_Z a in
  let finish := inject_Z fin in
  let step := inject_Z s in
  let g := np_arange_f64 start (f64_add finish step) step in
  g = map Qred (arange start (finish + step) step) /\
  Z.of_nat (length g) = (Qceiling ((finish - start) / step) + 1)%Z /\
  (1 <= length g)%nat /\
  nth 0 g 0 == start /\
  (forall i, (S i < length g)%nat -> nth (S i) g 0 == nth i g 0 + step) /\
  finish <= nth (length g - 1) g 0 /\ nth (length g - 1) g 0 < finish + step.
Proof.
  intros Hs Hle Hlo Hhi start finish step g.
  assert (Hstep : 0 < step).
  { unfold step. replace 0 with (inject_Z 0) by reflexivity. now rewrite <- Zlt_Qlt. }
  assert (Hsf : start <= finish) by (unfold start, finish; now rewrite <- Zle_Qle).
  assert (Hg : g = map Qred (arange start (finish + step) step))
    by (apply np_arange_f64_exact; assumption).
  destruct (@inclusive_arange_exact start finish step Hstep Hsf)
    as (H1 & H2 & H3 & H4 & H5 & H6).
  assert (Hlen : length g = length (arange start (finish + step) step))
    by (rewrite Hg; apply length_map).
  split; [exact Hg|]. rewrite Hlen. split; [exact H1|]. split; [exact H2|].
  rewrite Hg. split; [|split; [|split]].
  - now rewrite nth_map_Qred.
  - intros i Hi. rewrite !nth_map_Qred. now apply H4.
  - now rewrite nth_map_Qred.
  - now rewrite nth_map_Qred.
Qed.

Lemma inclusive_arange_covers_range_witness :
  let g := np_arange_f64 0 (f64_add 7 5) 5 in
  g = map Qred (arange 0 (7 + 5) 5) /\
  Z.of_nat (length g) = (Qceiling ((7 - 0) / 5) + 1)%Z /\
  7 <= nth (length g - 1) g 0 /\ nth (length g - 1) g 0 < 7 + 5.
Proof.
  intros g.
  destruct (@inclusive_arange_covers_range 0 7 5) as (H0 & H1 & _ & _ & _ & H2 & H3);
    try reflexivity; [discriminate|].
  split; [exact H0|]. split; [exact H1|]. split; [exact H2 | exact H3].
Defined.

Lemma sorted_of_sorted (l : list Q) : StronglySorted Qle l -> sorted l = l.
Proof.
  induction 1 as [|x l Hs IH Hall]; [reflexivity|].
  simpl. rewrite IH. destruct l as [|y l']; [reflexivity|].
  simpl. inversion Hall as [|? ? Hxy _]; subst.
  apply Qle_bool_iff in Hxy. now rewrite Hxy.
Qed.

(** X9.  On the wavelength grid of the script with at least two values,
    the step that the integrator recomputes from the grid (lines 225-228)
    is the configured [lambda_step]. *)
Theorem recomputed_lambda_step_is_configured (cfg : config) :
  0 < lambda_step cfg ->
  lambda_start cfg < lambda_stop cfg ->
  exists ls, lambda_step_of (lambdas cfg) = Ok ls /\ ls == lambda_step cfg.
Proof.
  intros Hstep Hlt.
  assert (Hnz : ~ lambda_step cfg == 0)
    by (intros E; rewrite E in Hstep; now apply Qlt_irrefl in Hstep).
  pose proof (@inclusive_arange_length (lambda_start cfg) (lambda_stop cfg)
                (lambda_step cfg) Hstep) as Hlen.
  fold (lambdas cfg) in Hlen.
  assert (Hx : 0 < (lambda_stop cfg - lambda_start cfg) / lambda_step cfg).
  { apply Qlt_shift_div_l; [exact Hstep | Lqa.lra]. }
  assert (Hc : (1 <= Qceiling ((lambda_stop cfg - lambda_start cfg) / lambda_step cfg))%Z).
  { assert (H : inject_Z 0 < inject_Z (Qceiling ((lambda_stop cfg - lambda_start cfg)
                                                  / lambda_step cfg))).
    { eapply Qlt_le_trans; [exact Hx | apply Qle_ceiling]. }
    rewrite <- Zlt_Qlt in H. lia. }
  assert (H2 : (2 <= length (lambdas cfg))%nat) by lia.
  assert (Hsorted : sorted (lambdas cfg) = lambdas cfg)
    by (apply sorted_of_sorted, arange_sorted, Hstep).
  assert (Hnth : forall i, (i < length (lambdas cfg))%nat ->
                   nth i (lambdas cfg) 0
                   = lambda_start cfg + inject_Z (Z.of_nat i) * lambda_step cfg).
  { intros i Hi. apply nth_error_nth. now apply nth_error_arange. }
  unfold lambda_step_of.
  destruct (Nat.eqb_spec (length (lambdas cfg)) 1) as [E|_]; [lia|].
  unfold get_last. rewrite Hsorted.
  rewrite (get_in_range (lambdas cfg) 0) by lia; cbn [bind].
  rewrite (get_in_range (lambdas cfg) 0) by lia; cbn [bind].
  eexists. split; [reflexivity|].
  rewrite !Hnth by lia.
  replace (Z.of_nat (length (lambdas cfg) - 1))
    with (Z.of_nat (length (lambdas cfg)) - 1)%Z by lia.
  change (inject_Z (Z.of_nat 0)) with 0.
  assert (Hd : ~ inject_Z (Z.of_nat (length (lambdas cfg)) - 1) == 0).
  { intros E. assert (H : inject_Z (Z.of_nat (length (lambdas cfg)) - 1) == inject_Z 0)
      by exact E.
    rewrite inject_Z_injective in H. lia. }
  field. exact Hd.
Qed.

Lemma recomputed_lambda_step_is_configured_witness :
  exists ls,
    lambda_step_of (lambdas (script_config [] [])) = Ok ls /\ ls == 5.
Proof.
  apply (@recomputed_lambda_step_is_configured (script_config [] []));
    reflexivity.
Defined.

End InclusiveGrids.

(** *** Sample positions and their layers *)

Section PositionsAndLayers.

Local Open Scope Q_scope.

Lemma layer_of_mono (tc : list Q) (x y : Q) :
  x <= y -> (layer_of tc x <= layer_of tc y)%nat.
Proof.
  intros Hxy. induction tc as [|c tc IH]; [reflexivity|].
  rewrite !layer_of_cons.
  destruct (Qgtb x c) eqn:Ex; [|destruct (Qgtb y c); lia].
  apply Qgtb_lt in Ex.
  assert (Ey : Qgtb y c = true) by (apply Qgtb_lt; Lqa.lra).
  rewrite Ey. lia.
Qed.

Lemma nth_x_mat_of (t : list Q) (x_step : Q) (j : nat) :
  (j < length (x_pos_of x_step t))%nat ->
  nth j (x_mat_of t (x_pos_of x_step t) (cumsum t)) 0%nat
  = layer_of (cumsum t) (nth j (x_pos_of x_step t) 0).
Proof.
  intros Hj. rewrite x_mat_of_layer by apply length_cumsum.
  apply nth_error_nth. apply map_nth_error. now apply nth_error_nth'.
Qed.

(** A sample position is positive, and its layer is a layer of the stack. *)
Lemma x_pos_layer_bound (t : list Q) (x_step x : Q) :
  (forall d, In d t -> 0 <= d) -> 0 < x_step ->
  In x (x_pos_of x_step t) ->
  0 < x /\ (layer_of (cumsum t) x < length t)%nat.
Proof.
  intros Hpos Hstep Hx.
  destruct (@arange_bounds (x_step / 2.0) (pysum t) x_step x Hstep Hx) as [Hlo Hhi].
  assert (Hhalf : 0 < x_step / 2.0)
    by (apply Qlt_shift_div_l; [reflexivity | Lqa.lra]).
  split; [Lqa.lra|].
  destruct (cumsum_from_sorted 0 t Hpos) as [Hsorted _]. fold (cumsum t) in Hsorted.
  destruct t as [|d l].
  - unfold pysum in Hhi; simpl in Hhi. Lqa.lra.
  - assert (Hlast : nth (length l) (cumsum (d :: l)) 0 = pysum (d :: l))
      by apply cumsum_from_last.
    destruct (lt_dec (length l) (layer_of (cumsum (d :: l)) x)) as [Hlt|Hge];
      [|simpl; lia].
    apply (layer_of_exceeded x Hsorted) in Hlt;
      [|rewrite length_cumsum; simpl; lia].
    rewrite Hlast in Hlt. Lqa.lra.
Qed.

(** No sample position falls into a layer of thickness zero. *)
Lemma x_pos_not_in_empty_layer (t : list Q) (x_step x : Q) (a : nat) :
  (forall d, In d t -> 0 <= d) -> 0 < x_step ->
  (a < length t)%nat -> nth a t 0 == 0 ->
  In x (x_pos_of x_step t) ->
  layer_of (cumsum t) x <> a.
Proof.
  intros Hpos Hstep Ha Hzero Hx Hm.
  destruct (@x_pos_layer_bound t x_step x Hpos Hstep Hx) as [Hx0 _].
  destruct (cumsum_from_sorted 0 t Hpos) as [Hsorted _]. fold (cumsum t) in Hsorted.
  pose proof (layer_of_exceeded x Hsorted) as Hiff. rewrite length_cumsum in Hiff.
  assert (Hnot : ~ nth a (cumsum t) 0 < x).
  { intros H. apply (Hiff a Ha) in H. lia. }
  destruct a as [|a].
  - destruct t as [|d l]; [simpl in Ha; lia|].
    apply Hnot. simpl in Hzero |- *. Lqa.lra.
  - assert (Hprev : nth a (cumsum t) 0 < x) by (apply Hiff; lia).
    pose proof (@cumsum_from_step 0 t a Ha) as Hstepc. fold (cumsum t) in Hstepc.
    apply Hnot. Lqa.lra.
Qed.

(** X10.  Along the sample positions the assigned layer never decreases:
    the positions of a layer form one contiguous block of [x_pos]. *)
Theorem x_mat_non_decreasing (t : list Q) (x_step : Q) (i j : nat) :
  0 < x_step ->
  (i <= j)%nat -> (j < length (x_pos_of x_step t))%nat ->
  (nth i (x_mat_of t (x_pos_of x_step t) (cumsum t)) 0
   <= nth j (x_mat_of t (x_pos_of x_step t) (cumsum t)) 0)%nat.
Proof.
  intros Hstep Hij Hj.
  rewrite !nth_x_mat_of by lia.
  apply layer_of_mono, sorted_nth_le; [|exact Hij | exact Hj].
  apply arange_sorted, Hstep.
Qed.

Lemma x_mat_non_decreasing_witness :
  let t := [0; 10; 5] in
  let x_mat := x_mat_of t (x_pos_of 5 t) (cumsum t) in
  (nth 1 x_mat 0 <= nth 2 x_mat 0)%nat.
Proof.
  intros t x_mat. unfold x_mat.
  apply x_mat_non_decreasing; [reflexivity | lia | vm_compute; lia].
Defined.

End PositionsAndLayers.



(** *** Absorption and generation *)

Section Generation.

Local Open Scope R_scope.

Lemma Rsum_nonneg (l : list R) : Forall (fun x => 0 <= x) l -> 0 <= Rsum l.
Proof. induction 1 as [|x l Hx _ IH]; simpl; lra. Qed.

Lemma Rsum_zero (l : list R) : Forall (fun x => x = 0) l -> Rsum l = 0.
Proof. induction 1 as [|x l Hx _ IH]; simpl; lra. Qed.

Lemma Forall_zip_with (X Y Z : Type) (P : X -> Prop) (P' : Y -> Prop)
    (P'' : Z -> Prop) (f : X -> Y -> Z) (l1 : list X) (l2 : list Y) :
  (forall x y, P x -> P' y -> P'' (f x y)) ->
  Forall P l1 -> Forall P' l2 -> Forall P'' (zip_with f l1 l2).
Proof.
  intros Hf H1. revert l2. induction H1 as [|x l1 Hx _ IH]; intros l2 H2.
  - constructor.
  - destruct H2 as [|y l2 Hy H2]; [constructor|].
    rewrite zip_with_cons. constructor; auto.
Qed.

Lemma Forall_True (X : Type) (l : list X) : Forall (fun _ => True) l.
Proof. induction l; constructor; auto. Qed.

Lemma Q2R_nonneg (x : Q) : (0 <= x)%Q -> 0 <= Q2R x.
Proof.
  intros H. apply Qle_Rle in H. replace (Q2R 0) with 0 in H; [exact H|].
  unfold Q2R; simpl; lra.
Qed.

Lemma Q2R_pos (x : Q) : (0 < x)%Q -> 0 < Q2R x.
Proof.
  intros H. apply Qlt_Rlt in H. replace (Q2R 0) with 0 in H; [exact H|].
  unfold Q2R; simpl; lra.
Qed.

Lemma hc_pos : 0 < h * c.
Proof. unfold h, c. lra. Qed.

Lemma q_pos : 0 < q.
Proof. unfold q. lra. Qed.

(** The rows of the absorption array: row 0 keeps its zeros, the rows of
    layers 1 to the last hold [4 pi Im(n) / (lambda * 1e-7)]. *)
Lemma absorption_spec (n : list (list C)) (t lambdas : list Q) :
  wf_table n t lambdas ->
  exists a,
    absorption n lambdas t = Ok a /\ length a = length t /\
    forall i, (i < length t)%nat ->
      nth_error a i
      = Some (if (1 <=? i)%nat
              then zip_with (fun (nc : C) (l : Q) => 4 * PI * Im nc / (Q2R l * 1.0e-7))
                            (nth i n []) lambdas
              else repeat 0 (length lambdas)).
Proof.
  intros (Hn2 & Htn & _). unfold absorption.
  set (row := fun i => zip_with (fun (nc : C) (l : Q) => 4 * PI * Im nc / (Q2R l * 1.0e-7))
                                (nth i n []) lambdas).
  set (body := fun (a : list (list R)) (matind : nat) =>
                 bind (get n matind) (fun r =>
                   set_item a matind
                     (zip_with (fun (nc : C) (l : Q) => 4 * PI * Im nc / (Q2R l * 1.0e-7))
                               r lambdas))).
  assert (Hloop : forall mats a0,
             (forall m, In m mats -> (m < length t)%nat) -> length a0 = length t ->
             exists a, foldM body mats a0 = Ok a /\ length a = length t /\
               forall i, (In i mats -> (i < length t)%nat -> nth_error a i = Some (row i)) /\
                         (~ In i mats -> nth_error a i = nth_error a0 i)).
  { induction mats as [|m mats IH]; intros a0 Hm Ha0.
    - exists a0. split; [reflexivity|]. split; [exact Ha0|].
      intros i; split; [intros [] | reflexivity].
    - assert (Hmt : (m < length t)%nat) by (apply Hm; now left).
      cbn [foldM]. unfold body at 1.
      rewrite (get_in_range n [] (i := m)) by lia; cbn [bind].
      rewrite set_item_in_range by lia; cbn [bind]. fold (row m).
      destruct (IH (list_set a0 m (row m)) (fun m' H => Hm m' (or_intror H)))
        as (a & Hf & Hl & Hspec); [now rewrite length_list_set|].
      exists a. split; [exact Hf|]. split; [exact Hl|].
      intros i; split.
      + intros Hi Hit. destruct (in_dec Nat.eq_dec i mats) as [Hin|Hnin].
        * now apply Hspec.
        * destruct Hi as [<-|Hi]; [|contradiction].
          rewrite (proj2 (Hspec m) Hnin). apply nth_error_list_set_eq. lia.
      + intros Hni. rewrite (proj2 (Hspec i)) by (intros H; apply Hni; now right).
        apply nth_error_list_set_neq. intros ->. apply Hni. now left. }
  destruct (Hloop (irange 1 (length t)) (repeat (repeat 0 (length lambdas)) (length t)))
    as (a & Hf & Hl & Hspec).
  - intros m Hm. apply in_irange in Hm. lia.
  - apply repeat_length.
  - exists a. split; [exact Hf|]. split; [exact Hl|].
    intros i Hi. destruct (Nat.leb_spec 1 i) as [H1|H1].
    + apply Hspec; [apply in_irange; lia | exact Hi].
    + rewrite (proj2 (Hspec i)) by (rewrite in_irange; lia).
      apply nth_error_repeat. exact Hi.
Qed.

Lemma lambda_step_of_nonneg (lambdas : list Q) (ls : Q) :
  lambda_step_of lambdas = Ok ls -> (0 <= ls)%Q.
Proof.
  unfold lambda_step_of.
  destruct (Nat.eqb_spec (length lambdas) 1) as [E|E].
  - intros H; inversion H; subst. discriminate.
  - intros H. inv_bind H. inversion H; subst; clear H.
    unfold get_last in Hx.
    pose proof (get_Ok_range _ _ Hx0) as Hlen.
    pose proof (length_sorted lambdas) as Hls.
    apply get_nth_error in Hx, Hx0.
    apply (nth_error_nth _ _ 0%Q) in Hx, Hx0. subst x x0.
    assert (Hle : (nth 0 (sorted lambdas) 0 <= nth (length (sorted lambdas) - 1)
                                                 (sorted lambdas) 0)%Q)
      by (apply sorted_nth_le; [apply sorted_sorted | lia | lia]).
    apply Qle_shift_div_l.
    + replace 0%Q with (inject_Z 0) by reflexivity. rewrite <- Zlt_Qlt. lia.
    + Lqa.lra.
Qed.

End Generation.

Section Photocurrent.

Local Open Scope R_scope.

Variable cfg : config.
Variable Rg : list R.

(** The parts of a sweep step that returned. *)
Lemma step_output_parts (t : list Q) (f : fields) (ls : Q) (J : R) :
  step_output cfg Rg t = Ok (f, ls, J) ->
  exists a Gxl,
    absorption (n cfg) (lambdas cfg) t = Ok a /\
    Gxl_of (n cfg) (lambdas cfg)
           (x_mat_of t (x_pos_of (x_step cfg) t) (cumsum t))
           (activeLayer cfg) (am15_int_y cfg) a (E_arr f) = Ok Gxl /\
    lambda_step_of (lambdas cfg) = Ok ls /\
    J = Jsc_of (x_step cfg) Gxl ls.
Proof.
  unfold step_output. intros H. inv_bind H.
  apply np_arange_Ok_inv in Hx as [_ ->].
  inversion H; subst; clear H. eauto 8.
Qed.

Lemma filter_combine_nil (X : Type) (xm : list nat) (E : list X) (a : nat) :
  (forall m, In m xm -> m <> a) ->
  filter (fun p : nat * X => (fst p =? a)%nat) (combine xm E) = [].
Proof.
  revert E; induction xm as [|m xm IH]; intros E Hne; [reflexivity|].
  destruct E as [|e E]; [reflexivity|]. simpl.
  destruct (Nat.eqb_spec m a) as [Hm|_].
  - exfalso. apply (Hne m); [now left | exact Hm].
  - apply IH. intros m' Hm'. apply Hne. now right.
Qed.

Lemma Jsc_of_nil (x : Q) (ls : Q) : Jsc_of x [] ls = 0.
Proof. unfold Jsc_of; simpl. ring. Qed.

(** X12.  When the active layer has thickness zero, as at a sweep value
    0, no sample position lies in it and the photocurrent of the step is
    exactly 0. *)
Theorem zero_thickness_active_layer_gives_zero
    (t : list Q) (f : fields) (ls : Q) (J : R) :
  wf_config cfg -> length t = length (thicknesses cfg) ->
  (forall d, In d t -> (0 <= d)%Q) -> (0 < x_step cfg)%Q ->
  (nth (activeLayer cfg) t 0 == 0)%Q ->
  step_output cfg Rg t = Ok (f, ls, J) ->
  J = 0.
Proof.
  intros (Hwf & Hact & _ & _) Hlen Hpos Hstep Hzero Hout.
  destruct (step_output_parts _ Hout) as (a & Gxl & _ & HG & _ & ->).
  unfold Gxl_of in HG. inv_bind HG. inversion HG; subst Gxl; clear HG.
  rewrite filter_combine_nil; [apply Jsc_of_nil|].
  intros m Hm. rewrite x_mat_of_layer in Hm by apply length_cumsum.
  apply in_map_iff in Hm as [xq [<- Hxq]].
  apply (@x_pos_not_in_empty_layer t (x_step cfg) xq (activeLayer cfg));
    try assumption. lia.
Qed.

(** X13.  The photocurrent of a sweep step is not negative when the index
    of the active layer has non-negative real and imaginary parts, the
    spectrum is non-negative, the wavelengths are positive, the spatial
    step is not negative, and no division of the step has a zero divisor
    (otherwise the script computes [nan]). *)
Theorem photocurrent_non_negative (t : list Q) (f : fields) (ls : Q) (J : R) :
  wf_config cfg -> length t = length (thicknesses cfg) ->
  regular_step (n cfg) (lambdas cfg) Rg t ->
  Forall (fun nc => 0 <= Re nc /\ 0 <= Im nc) (nth (activeLayer cfg) (n cfg) []) ->
  Forall (fun s => 0 <= s) (am15_int_y cfg) ->
  Forall (fun l => (0 < l)%Q) (lambdas cfg) ->
  (0 <= x_step cfg)%Q ->
  step_output cfg Rg t = Ok (f, ls, J) ->
  0 <= J.
Proof.
  intros (Hwf & Hact & _ & _) Hlen _ Hn Hs Hl Hx Hout.
  apply (wf_table_length t Hlen) in Hwf.
  destruct (step_output_parts _ Hout) as (a & Gxl & Ha & HG & Hls & ->).
  destruct (absorption_spec Hwf) as (a' & Ha' & _ & Hrows).
  rewrite Ha in Ha'. inversion Ha'; subst a'; clear Ha'.
  unfold Gxl_of in HG. inv_bind HG. inversion HG; subst Gxl; clear HG.
  apply get_nth_error in Hx0, Hx1.
  rewrite Hrows in Hx0 by lia. inversion Hx0; subst x; clear Hx0.
  apply (nth_error_nth _ _ []) in Hx1. subst x0.
  assert (Harow : Forall (fun v => 0 <= v)
            (if (1 <=? activeLayer cfg)%nat
             then zip_with (fun (nc : C) (l : Q) => 4 * PI * Im nc / (Q2R l * 1.0e-7))
                           (nth (activeLayer cfg) (n cfg) []) (lambdas cfg)
             else repeat 0 (length (lambdas cfg)))).
  { destruct (1 <=? activeLayer cfg)%nat.
    - apply Forall_zip_with with (P := fun nc => 0 <= Re nc /\ 0 <= Im nc)
                                 (P' := fun l => (0 < l)%Q); [|exact Hn | exact Hl].
      intros nc l [_ Him] Hlpos. apply Q2R_pos in Hlpos.
      pose proof PI_RGT_0.
      apply Rmult_le_pos; [nra | apply Rlt_le, Rinv_0_lt_compat; lra].
    - apply Forall_forall. intros v Hv. apply repeat_spec in Hv. lra. }
  assert (Htmp1 : Forall (fun v => 0 <= v)
            (zip_with Rmult
               (zip_with (fun av (nc : C) => av * Re nc)
                  (if (1 <=? activeLayer cfg)%nat
                   then zip_with (fun (nc : C) (l : Q) => 4 * PI * Im nc / (Q2R l * 1.0e-7))
                                 (nth (activeLayer cfg) (n cfg) []) (lambdas cfg)
                   else repeat 0 (length (lambdas cfg)))
                  (nth (activeLayer cfg) (n cfg) []))
               (am15_int_y cfg))).
  { apply Forall_zip_with with (P := fun v => 0 <= v) (P' := fun v => 0 <= v);
      [intros; nra | | exact Hs].
    apply Forall_zip_with with (P := fun v => 0 <= v)
                               (P' := fun nc => 0 <= Re nc /\ 0 <= Im nc);
      [intros ? ? ? []; nra | exact Harow | exact Hn]. }
  pose proof hc_pos as Hhc. pose proof q_pos as Hq.
  pose proof (Q2R_nonneg (lambda_step_of_nonneg _ Hls)) as Hlsr.
  pose proof (Q2R_nonneg Hx) as Hxr.
  unfold Jsc_of.
  assert (HGx : 0 <= Rsum
            (map (fun row => Rsum row * Q2R ls)
               (map (fun Qrow => zip_with (fun qv (l : Q) =>
                                   (qv * 1.0e-3) * (Q2R l * 1.0e-9) / (h * c))
                                 Qrow (lambdas cfg))
                  (map (fun p : nat * list cell =>
                          zip_with (fun tm e => tm * Cmod (cell_val e) ^ 2)
                            (zip_with Rmult
                               (zip_with (fun av (nc : C) => av * Re nc)
                                  (if (1 <=? activeLayer cfg)%nat
                                   then zip_with
                                          (fun (nc : C) (l : Q) =>
                                             4 * PI * Im nc / (Q2R l * 1.0e-7))
                                          (nth (activeLayer cfg) (n cfg) []) (lambdas cfg)
                                   else repeat 0 (length (lambdas cfg)))
                                  (nth (activeLayer cfg) (n cfg) []))
                               (am15_int_y cfg)) (snd p))
                       (filter (fun p => (fst p =? activeLayer cfg)%nat)
                          (combine (x_mat_of t (x_pos_of (x_step cfg) t) (cumsum t))
                                   (E_arr f))))))).
  { apply Rsum_nonneg. rewrite !map_map. apply Forall_forall.
    intros v Hv. apply in_map_iff in Hv as [p [<- _]].
    apply Rmult_le_pos; [|exact Hlsr]. apply Rsum_nonneg.
    apply Forall_zip_with with (P := fun v => 0 <= v) (P' := fun l => (0 < l)%Q);
      [| |exact Hl].
    - intros qv l Hqv Hlpos. apply Q2R_pos in Hlpos.
      apply Rmult_le_pos; [nra | apply Rlt_le, Rinv_0_lt_compat; lra].
    - apply Forall_zip_with with (P := fun v => 0 <= v) (P' := fun _ : cell => True);
        [| exact Htmp1 | apply Forall_True].
      intros tm e Htm _. apply Rmult_le_pos; [exact Htm | apply pow2_ge_0]. }
  apply Rmult_le_pos; [|lra]. apply Rmult_le_pos; [|lra].
  apply Rmult_le_pos; [|lra]. apply Rmult_le_pos; [exact HGx | exact Hxr].
Qed.

(** X14.  With the incidence layer as active layer ([activeLayer = 0]) the
    photocurrent of every sweep step is 0: the absorption loop starts at
    layer 1, so row 0 of the absorption array keeps its zeros. *)
Theorem incidence_layer_active_gives_zero
    (t : list Q) (f : fields) (ls : Q) (J : R) :
  wf_config cfg -> length t = length (thicknesses cfg) ->
  activeLayer cfg = 0%nat ->
  step_output cfg Rg t = Ok (f, ls, J) ->
  J = 0.
Proof.
  intros (Hwf & Hact & _ & _) Hlen Ha0 Hout.
  apply (wf_table_length t Hlen) in Hwf.
  destruct (step_output_parts _ Hout) as (a & Gxl & Ha & HG & Hls & ->).
  destruct (absorption_spec Hwf) as (a' & Ha' & _ & Hrows).
  rewrite Ha in Ha'. inversion Ha'; subst a'; clear Ha'.
  unfold Gxl_of in HG. inv_bind HG. inversion HG; subst Gxl; clear HG.
  apply get_nth_error in Hx.
  rewrite Hrows in Hx by lia. rewrite Ha0 in Hx. cbn [Nat.leb] in Hx.
  inversion Hx; subst x; clear Hx.
  assert (Htmp1 : Forall (fun v => v = 0)
            (zip_with Rmult
               (zip_with (fun av (nc : C) => av * Re nc)
                         (repeat 0 (length (lambdas cfg))) x0)
               (am15_int_y cfg))).
  { apply Forall_zip_with with (P := fun v => v = 0) (P' := fun _ : R => True);
      [intros ? ? -> _; ring | | apply Forall_True].
    apply Forall_zip_with with (P := fun v => v = 0) (P' := fun _ : C => True);
      [intros ? ? -> _; ring | | apply Forall_True].
    apply Forall_forall. intros v Hv. now apply repeat_spec in Hv. }
  unfold Jsc_of.
  rewrite Rsum_zero; [ring|].
  rewrite !map_map. apply Forall_forall.
  intros v Hv. apply in_map_iff in Hv as [p [<- _]].
  rewrite Rsum_zero; [ring|].
  apply Forall_zip_with with (P := fun v => v = 0) (P' := fun _ : Q => True);
    [intros ? ? -> _; unfold Rdiv; ring | | apply Forall_True].
  apply Forall_zip_with with (P := fun v => v = 0) (P' := fun _ : cell => True);
    [intros ? ? -> _; ring | exact Htmp1 | apply Forall_True].
Qed.

End Photocurrent.

Lemma zero_thickness_active_layer_gives_zero_witness :
  exists f ls,
    step_output quarter_wave_config [(1 / 9)%R] [0; 0; 0]%Q = Ok (f, ls, 0%R).
Proof.
  destruct quarter_wave_grids as [Elam _].
  assert (HRg : length [(1 / 9)%R] = length (lambdas quarter_wave_config))
    by now rewrite Elam.
  destruct (@step_output_total quarter_wave_config [(1 / 9)%R] HRg [0; 0; 0]%Q
              quarter_wave_wf quarter_wave_x_step eq_refl) as (f & ls & Gxl & Hout & _).
  exists f, ls. rewrite Hout. do 2 f_equal.
  apply (@zero_thickness_active_layer_gives_zero quarter_wave_config [(1 / 9)%R]
           [0; 0; 0]%Q f ls _ quarter_wave_wf eq_refl); try reflexivity; [|exact Hout].
  intros d [<-|[<-|[<-|[]]]]; discriminate.
Defined.

Lemma photocurrent_non_negative_witness :
  exists f ls J,
    step_output quarter_wave_config [(1 / 9)%R] [0; 1; 0]%Q = Ok (f, ls, J) /\
    (0 <= J)%R.
Proof.
  destruct quarter_wave_grids as [Elam _].
  assert (HRg : length [(1 / 9)%R] = length (lambdas quarter_wave_config))
    by now rewrite Elam.
  destruct (@step_output_total quarter_wave_config [(1 / 9)%R] HRg [0; 1; 0]%Q
              quarter_wave_wf quarter_wave_x_step eq_refl) as (f & ls & Gxl & Hout & _).
  exists f, ls, (Jsc_of (x_step quarter_wave_config) Gxl ls).
  split; [exact Hout|].
  apply (@photocurrent_non_negative quarter_wave_config [(1 / 9)%R]
           [0; 1; 0]%Q f ls _ quarter_wave_wf eq_refl); [| | | | |exact Hout].
  - rewrite Elam. exact quarter_wave_regular.
  - repeat constructor; simpl; lra.
  - repeat constructor; simpl; lra.
  - rewrite Elam. repeat constructor.
  - discriminate.
Defined.

Lemma incidence_layer_active_gives_zero_witness :
  let cfg := mkConfig [0; 0; 0]%Q 0 1 0 1 1 4 4 1 1
                      [[RtoC 2]; [RtoC 1]; [RtoC 2]] [1%R] in
  exists f ls, step_output cfg [(1 / 9)%R] [0; 1; 0]%Q = Ok (f, ls, 0%R).
Proof.
  intros cfg.
  assert (Elam : lambdas cfg = [4%Q]) by (vm_compute; reflexivity).
  assert (Hwf : wf_config cfg).
  { unfold wf_config, wf_table. rewrite Elam. simpl.
    repeat split; try lia; try discriminate. repeat constructor. }
  assert (HRg : length [(1 / 9)%R] = length (lambdas cfg)) by now rewrite Elam.
  assert (Hx : ~ (x_step cfg == 0)%Q) by discriminate.
  destruct (@step_output_total cfg [(1 / 9)%R] HRg [0; 1; 0]%Q Hwf Hx eq_refl)
    as (f & ls & Gxl & Hout & _).
  exists f, ls. rewrite Hout. do 2 f_equal.
  exact (@incidence_layer_active_gives_zero cfg [(1 / 9)%R] [0; 1; 0]%Q f ls _
           Hwf eq_refl eq_refl Hout).
Defined.

(** *** Side effects and errors of the run *)

Section RunEffects.

Variable cfg : config.

Lemma sweep_body_Ok_inv (Rg : list R) (st st' : state) (k : nat) :
  sweep_body cfg Rg st k = Ok st' ->
  exists v,
    get (varyThickness cfg) k = Ok v /\
    st_t st' = list_set (st_t st) (layerVaried cfg) v /\
    lambda_step_of (lambdas cfg) = Ok (st_lambda_step st').
Proof.
  unfold sweep_body. intros H. inv_bind H.
  destruct x1 as [[f ls] J]. inv_bind H. inversion H; subst; clear H. simpl.
  apply set_item_Ok_inv in Hx0 as [_ ->].
  destruct (step_output_parts _ _ _ Hx1) as (_ & _ & _ & _ & Hls & _).
  exists x. auto.
Qed.

(** X15.  The run leaves its marks on the configuration: the thickness
    list, which [t] aliases, ends with entry 0 set to 0 and the entry of
    the varied layer set to the last sweep value, and the global
    [lambda_step] ends as the step recomputed from the wavelength grid. *)
Theorem run_overwrites_configuration (st : state) (k : nat) :
  run cfg = Ok st ->
  length (varyThickness cfg) = S k ->
  st_t st
  = list_set (list_set (thicknesses cfg) 0 0%Q) (layerVaried cfg)
             (nth k (varyThickness cfg) 0%Q) /\
  lambda_step_of (lambdas cfg) = Ok (st_lambda_step st).
Proof.
  unfold run. intros H Hlen. inv_bind H. rewrite Hlen in H.
  rewrite sweep_upto_S in H. inv_bind H.
  unfold init_state in Hx1. inv_bind Hx1. inversion Hx1; subst x1; clear Hx1.
  apply set_item_Ok_inv in Hx3 as [_ ->].
  destruct (sweep_upto_t _ _ _ _ Hx2) as (_ & Hset & _). simpl in Hset.
  destruct (sweep_body_Ok_inv _ _ _ H) as (v & Hv & Ht & Hls).
  split; [|exact Hls].
  rewrite Ht, Hset. f_equal.
  apply get_nth_error in Hv. symmetry. now apply nth_error_nth.
Qed.

Lemma get_Err (X : Type) (l : list X) (i : nat) (e : error) :
  get l i = Err e -> e = IndexError.
Proof. unfold get. destruct (nth_error l i); congruence. Qed.

Lemma set_item_Err (X : Type) (l : list X) (i : nat) (v : X) (e : error) :
  set_item l i v = Err e -> e = IndexError.
Proof. unfold set_item. destruct (i <? length l); congruence. Qed.

(** X16.  When the varied layer is not a layer of the thickness list, the
    first sweep step raises [IndexError] at the assignment
    [t[layerVaried] = ...]: the run fails as soon as the sweep has a
    value. *)
Theorem run_varied_layer_out_of_range :
  n cfg <> [] -> thicknesses cfg <> [] ->
  length (thicknesses cfg) <= layerVaried cfg ->
  varyThickness cfg <> [] ->
  run cfg = Err IndexError.
Proof.
  intros Hn Ht Hlv Hv. unfold run, T_glass, R_glass.
  rewrite (get_in_range (n cfg) [] (i := 0))
    by (destruct (n cfg); [congruence | simpl; lia]).
  cbn [bind]. unfold init_state.
  rewrite set_item_in_range by (destruct (thicknesses cfg); [congruence | simpl; lia]).
  cbn [bind].
  destruct (varyThickness cfg) as [|v vT] eqn:EvT; [congruence|].
  unfold sweep_upto. cbn [length seq foldM]. unfold sweep_body at 1.
  rewrite EvT. cbn [get nth_error bind st_t].
  unfold set_item. rewrite length_list_set.
  replace (layerVaried cfg <? length (thicknesses cfg)) with false; [reflexivity|].
  symmetry. apply Nat.ltb_ge. exact Hlv.
Qed.

(** X17.  The solver reads the indices of layers 0 and 1 before any other
    index: with fewer than two rows in the index table the run raises
    [IndexError], whatever the thickness list, as soon as there is a sweep
    value and a wavelength.  The spatial step is not zero: with a zero step
    the first sweep step stops earlier, at [np.arange] (line 166). *)
Theorem run_needs_two_index_rows :
  length (n cfg) < 2 ->
  varyThickness cfg <> [] -> lambdas cfg <> [] ->
  ~ (x_step cfg == 0)%Q ->
  run cfg = Err IndexError.
Proof.
  intros Hn Hv Hl Hxs. unfold run.
  destruct (T_glass (n cfg)) as [Tg|e] eqn:HT.
  2:{ unfold T_glass in HT. destruct (get (n cfg) 0) eqn:Hg; [discriminate|].
      cbn [bind] in HT |- *. apply get_Err in Hg. congruence. }
  destruct (R_glass (n cfg)) as [Rg|e] eqn:HR.
  2:{ unfold R_glass in HR. destruct (get (n cfg) 0) eqn:Hg; [discriminate|].
      cbn [bind] in HR |- *. apply get_Err in Hg. congruence. }
  cbn [bind]. unfold init_state.
  destruct (set_item (thicknesses cfg) 0 0%Q) as [t0|e] eqn:Ht0.
  2:{ apply set_item_Err in Ht0. subst e. reflexivity. }
  cbn [bind].
  destruct (varyThickness cfg) as [|v vT] eqn:EvT; [congruence|].
  unfold sweep_upto. cbn [length seq foldM]. unfold sweep_body at 1.
  rewrite EvT. cbn [get nth_error bind st_t].
  destruct (set_item t0 (layerVaried cfg) v) as [t1|e] eqn:Ht1.
  2:{ apply set_item_Err in Ht1. subst e. reflexivity. }
  cbn [bind]. unfold step_output.
  rewrite (np_arange_nonzero _ _ Hxs). cbn [bind]. unfold step_fields.
  destruct (lambdas cfg) as [|l0 lam] eqn:Elam; [congruence|].
  cbn [length seq foldM]. unfold wavelength_body at 1, S_mat, n_at.
  destruct (get (n cfg) 0) as [row0|e] eqn:H0.
  2:{ apply get_Err in H0. subst e. reflexivity. }
  cbn [bind].
  destruct (get row0 0) as [n0|e] eqn:H00.
  2:{ apply get_Err in H00. subst e. reflexivity. }
  cbn [bind].
  rewrite (get_out_of_range (n cfg) (i := 1)) by lia. reflexivity.
Qed.

End RunEffects.

Lemma run_overwrites_configuration_witness :
  exists st,
    run quarter_wave_config = Ok st /\
    st_t st = [0; 1; 0]%Q /\
    lambda_step_of (lambdas quarter_wave_config) = Ok (st_lambda_step st).
Proof.
  destruct (run_total quarter_wave_wf quarter_wave_x_step)
    as (Rg & t0 & st & _ & _ & _ & _ & Hrun & _).
  destruct (@run_overwrites_configuration quarter_wave_config st 1 Hrun)
    as [Ht Hls]; [now rewrite (proj2 quarter_wave_grids)|].
  exists st. split; [exact Hrun|]. split; [|exact Hls].
  rewrite Ht, (proj2 quarter_wave_grids). reflexivity.
Defined.

Lemma run_varied_layer_out_of_range_witness :
  run (mkConfig [0; 0; 0]%Q 1 7 0 1 1 4 4 1 1
                [[RtoC 2]; [RtoC 1]; [RtoC 2]] [1%R])
  = Err IndexError.
Proof.
  apply run_varied_layer_out_of_range; simpl; try discriminate; lia.
Defined.

Lemma run_needs_two_index_rows_witness :
  run (mkConfig [0; 0]%Q 1 1 0 1 1 4 4 1 1 [[RtoC 2]] [1%R]) = Err IndexError.
Proof.
  apply run_needs_two_index_rows; [simpl; lia | | |]; vm_compute; discriminate.
Defined.

(** *** The field in the exit layer *)

Lemma Cexp_neq0 (a : C) : Cexp a <> C0.
Proof.
  intros E.
  assert (H : (Cexp a * Cexp (- a))%C = C1).
  { rewrite <- Cexp_add. replace (a + - a)%C with C0 by ring. apply Cexp_0. }
  rewrite E, Cmul_0_l in H. apply (f_equal Re) in H. simpl in H. lra.
Qed.

Lemma RtoC_Q2R_minus (a b : Q) :
  RtoC (Q2R (a - b)) = (RtoC (Q2R a) - RtoC (Q2R b))%C.
Proof. unfold Qminus. rewrite Q2R_plus, Q2R_opp. apply C_eq; simpl; ring. Qed.

(** X18.  In the last layer the loop of [S_dprime] is empty, [S_dprime] is
    the identity, and the field is a single forward wave: the value stored
    for a point at distance [x] from the start of the layer is
    [T * exp(i*xi*x) / S_prime[0,0]]. *)
Theorem exit_layer_field_is_forward_wave
    (n : list (list C)) (t lambdas : list Q) (ind : nat)
    (S_prime : M2) (Tind : R) (xi : C) (dj x : Q) :
  m00 S_prime <> C0 ->
  S_dprime_mat n t lambdas ind (length t - 1) = Ok eye2 /\
  E_value Tind xi dj x S_prime eye2
  = (RtoC Tind * Cexp (Ci * xi * RtoC (Q2R x)) / m00 S_prime)%C.
Proof.
  intros H00. split.
  - unfold S_dprime_mat, irange. now rewrite Nat.sub_diag.
  - unfold E_value, eye2; cbn [m00 m01 m10 m11].
    assert (Hm : py_complex C0 (RtoC (-1.0)) = (- Ci)%C)
      by (apply C_eq; simpl; lra).
    rewrite Hm.
    set (D := Cexp (- Ci * xi * RtoC (Q2R dj))%C).
    set (X := Cexp (Ci * xi * RtoC (Q2R x))%C).
    assert (Hsplit : Cexp (- Ci * xi * RtoC (Q2R (dj - x)))%C = (D * X)%C).
    { unfold D, X. rewrite <- Cexp_add. f_equal.
      rewrite RtoC_Q2R_minus. ring. }
    rewrite Hsplit.
    pose proof (@Cexp_neq0 (- Ci * xi * RtoC (Q2R dj))%C) as HD. fold D in HD.
    field. split; assumption.
Qed.

Lemma exit_layer_field_is_forward_wave_witness :
  let n := [[RtoC 2]; [RtoC 1]] in
  S_dprime_mat n [0; 10]%Q [4%Q] 0 1 = Ok eye2 /\
  E_value 1 (RtoC 1) 10 2.5 (I_mat (RtoC 2) (RtoC 1)) eye2
  = (RtoC 1 * Cexp (Ci * RtoC 1 * RtoC (Q2R 2.5))
     / m00 (I_mat (RtoC 2) (RtoC 1)))%C.
Proof.
  intros n.
  apply (@exit_layer_field_is_forward_wave n [0; 10]%Q [4%Q] 0
           (I_mat (RtoC 2) (RtoC 1)) 1 (RtoC 1) 10 2.5).
  rewrite I_mat_2_1. cbn [m00]. intros E. apply (f_equal Re) in E.
  simpl in E. lra.
Defined.

(** *** Configured thicknesses that the run ignores *)

Lemma list_set_overwrites (th th' : list Q) (lv : nat) (v : Q) :
  length th = length th' ->
  (forall i, i <> 0 -> i <> lv -> nth_error th i = nth_error th' i) ->
  list_set (list_set th 0 0%Q) lv v = list_set (list_set th' 0 0%Q) lv v.
Proof.
  intros Hlen Hagree. apply nth_error_ext. intros i.
  destruct (Nat.eq_dec lv i) as [<-|Hlv].
  - destruct (lt_dec lv (length th)) as [Hlt|Hge].
    + rewrite !nth_error_list_set_eq by (rewrite length_list_set; lia).
      reflexivity.
    + transitivity (@None Q); [|symmetry]; apply nth_error_None;
        rewrite !length_list_set; lia.
  - rewrite !(nth_error_list_set_neq _ _ Hlv).
    destruct (Nat.eq_dec 0 i) as [<-|H0].
    + destruct th, th'; simpl in *; try discriminate; reflexivity.
    + rewrite !(nth_error_list_set_neq _ _ H0). apply Hagree; congruence.
Qed.

(** X19.  The thicknesses configured for layer 0 and for the varied layer
    are never used: a run with a non-empty sweep gives the same result for
    any two thickness lists that differ only in these two entries. *)
Theorem run_ignores_overwritten_thicknesses (cfg : config) (th : list Q) :
  length th = length (thicknesses cfg) ->
  (forall i, i <> 0 -> i <> layerVaried cfg ->
             nth_error th i = nth_error (thicknesses cfg) i) ->
  varyThickness cfg <> [] ->
  run (with_thicknesses cfg th) = run cfg.
Proof.
  intros Hlen Hagree Hv. unfold run.
  change (n (with_thicknesses cfg th)) with (n cfg).
  change (varyThickness (with_thicknesses cfg th)) with (varyThickness cfg).
  destruct (T_glass (n cfg)) as [Tg|e]; [|reflexivity]. cbn [bind].
  destruct (R_glass (n cfg)) as [Rg|e]; [|reflexivity]. cbn [bind].
  unfold init_state.
  change (thicknesses (with_thicknesses cfg th)) with th.
  change (varyThickness (with_thicknesses cfg th)) with (varyThickness cfg).
  change (lambda_step (with_thicknesses cfg th)) with (lambda_step cfg).
  unfold set_item. rewrite Hlen.
  destruct (0 <? length (thicknesses cfg)); [|reflexivity]. cbn [bind].
  destruct (varyThickness cfg) as [|v vT] eqn:EvT; [congruence|].
  unfold sweep_upto.
  change (sweep_body (with_thicknesses cfg th) Rg) with (sweep_body cfg Rg).
  cbn [length seq foldM].
  replace (sweep_body cfg Rg
             (mkState (list_set th 0 0%Q) (map (fun _ => 0%R) (v :: vT))
                      (lambda_step cfg) (mkFields [] [] [])) 0)
    with (sweep_body cfg Rg
             (mkState (list_set (thicknesses cfg) 0 0%Q) (map (fun _ => 0%R) (v :: vT))
                      (lambda_step cfg) (mkFields [] [] [])) 0); [reflexivity|].
  unfold sweep_body. cbn [st_t st_Jsc].
  destruct (get (varyThickness cfg) 0) as [w|e]; [|reflexivity]. cbn [bind].
  unfold set_item. rewrite !length_list_set, Hlen.
  destruct (layerVaried cfg <? length (thicknesses cfg)); [|reflexivity].
  cbn [bind].
  now rewrite (@list_set_overwrites th (thicknesses cfg) (layerVaried cfg) w Hlen Hagree).
Qed.

Lemma run_ignores_overwritten_thicknesses_witness :
  run (with_thicknesses quarter_wave_config [3; 220; 0]%Q) = run quarter_wave_config.
Proof.
  apply run_ignores_overwritten_thicknesses.
  - reflexivity.
  - intros [|[|[|i]]] H0 H1; simpl in *; try congruence; reflexivity.
  - rewrite (proj2 quarter_wave_grids). discriminate.
Defined.
